(** * stop_streams.py: shutdown coordinator of the RTSP recording workers

    A shallow embedding of the parts of [src/stop_streams.py] that the
    specification makes statements about, with those statements proved (or
    refuted) over the embedding.

    Conventions of the embedding:
    - Python [int] is [Z]; [str] is [string], read as ASCII text;
    - a [dict] that is only looked up is a [gmap]; a [dict] whose iteration
      order the code relies on is an insertion-ordered association list;
    - a [set] is a [gset];
    - calls into the operating system go through the [OS] interface below,
      of which nothing is assumed, and are recorded, with their outcome, in
      a trace of events;
    - a Python exception is the [Raise] outcome of a computation, and
      [try]/[except] is [try_except]; interrupts ([KeyboardInterrupt]) are
      not part of the embedding;
    - calls to [logger] are dropped: they write to the log only;
    - a [for] or [while] loop is a recursive function on what it runs
      through; a [while] that need not end takes fuel. *)

From Stdlib Require Import ZArith Lia Ascii String.
From stdpp Require Import gmap strings list pretty.

Set Warnings "-clear-no-such-hyp".

Local Open Scope string_scope.
Local Open Scope list_scope.

(** * Python strings *)

(** [str.isspace] on ASCII: tab, line feed, vertical tab, form feed, carriage
    return, the four separators 28..31 and the space. *)
Definition is_space (c : ascii) : bool :=
  let n := nat_of_ascii c in
  ((9 <=? n)%nat && (n <=? 13)%nat) || ((28 <=? n)%nat && (n <=? 32)%nat).

Definition is_digit (c : ascii) : bool :=
  let n := nat_of_ascii c in (48 <=? n)%nat && (n <=? 57)%nat.

Definition digit_value (c : ascii) : Z := Z.of_nat (nat_of_ascii c) - 48.

(** [needle in hay] *)
Fixpoint str_in (needle hay : string) : bool :=
  String.prefix needle hay ||
  match hay with
  | EmptyString => false
  | String _ hay' => str_in needle hay'
  end.

(** [s.split(sep)] for a one-character separator. *)
Fixpoint split_on (sep : ascii) (s : string) : list string :=
  match s with
  | EmptyString => [EmptyString]
  | String c s' =>
      if decide (c = sep) then EmptyString :: split_on sep s'
      else match split_on sep s' with
           | [] => [String c EmptyString]
           | w :: ws => String c w :: ws
           end
  end.

Fixpoint lstrip (s : string) : string :=
  match s with
  | EmptyString => EmptyString
  | String c s' => if is_space c then lstrip s' else s
  end.

Fixpoint rstrip (s : string) : string :=
  match s with
  | EmptyString => EmptyString
  | String c s' =>
      match rstrip s' with
      | EmptyString => if is_space c then EmptyString else String c EmptyString
      | t => String c t
      end
  end.

(** [s.strip()] *)
Definition strip (s : string) : string := rstrip (lstrip s).

(** [s.split(None, maxsplit)]: [tok] is the word being read, empty between
    words; once [maxsplit] words are cut off, the rest is one piece. *)
Fixpoint split_none (maxsplit : nat) (tok : string) (s : string) : list string :=
  match s with
  | EmptyString => match tok with EmptyString => [] | _ => [tok] end
  | String c s' =>
      if is_space c then
        match tok with
        | EmptyString => split_none maxsplit EmptyString s'
        | _ => tok :: split_none (pred maxsplit) EmptyString s'
        end
      else
        match tok, maxsplit with
        | EmptyString, O => [s]
        | _, _ => split_none maxsplit (tok +:+ String c EmptyString) s'
        end
  end.

(** The digits of [int(s)]: decimal digits, single underscores between them. *)
Fixpoint int_digits (acc : Z) (after_digit : bool) (s : string) : option Z :=
  match s with
  | EmptyString => if after_digit then Some acc else None
  | String c s' =>
      if is_digit c then int_digits (10 * acc + digit_value c)%Z true s'
      else if decide (c = "_"%char) then
        if after_digit then int_digits acc false s' else None
      else None
  end.

(** The white space that [int] skips around the number in an ASCII string:
    tab to carriage return and the space, and not the separators 28..31
    that [str.strip] takes off. *)
Definition is_int_space (c : ascii) : bool :=
  let n := nat_of_ascii c in
  ((9 <=? n)%nat && (n <=? 13)%nat) || (n =? 32)%nat.

Fixpoint int_lstrip (s : string) : string :=
  match s with
  | EmptyString => EmptyString
  | String c s' => if is_int_space c then int_lstrip s' else s
  end.

Fixpoint int_rstrip (s : string) : string :=
  match s with
  | EmptyString => EmptyString
  | String c s' =>
      match int_rstrip s' with
      | EmptyString => if is_int_space c then EmptyString else String c EmptyString
      | t => String c t
      end
  end.

(** [int(s)]; [None] stands for [ValueError]. *)
Definition int (s : string) : option Z :=
  match int_rstrip (int_lstrip s) with
  | String "-" s' => Z.opp <$> int_digits 0 false s'
  | String "+" s' => int_digits 0 false s'
  | s' => int_digits 0 false s'
  end.

(** The line feed, Python's ["\n"]. *)
Definition LF : ascii := "010"%char.

(** [str(n)] *)
Definition str (n : Z) : string := pretty n.


(** [s[n:]] *)
Fixpoint slice_from (n : nat) (s : string) : string :=
  match n, s with
  | O, _ => s
  | S n', String _ s' => slice_from n' s'
  | S _, EmptyString => EmptyString
  end.

(** [s.split(sep, 1)] for a one-character separator. *)
Fixpoint split_once (sep : ascii) (s : string) : list string :=
  match s with
  | EmptyString => [EmptyString]
  | String c s' =>
      if decide (c = sep) then [EmptyString; s']
      else match split_once sep s' with
           | [] => [String c EmptyString]
           | w :: ws => String c w :: ws
           end
  end.

(** * pathlib paths *)

(** A [PurePosixPath] is its tuple of parts; an absolute path starts with the
    root part ["/"] (or ["//"], which POSIX keeps distinct). *)
Record path := mkPath { parts : list string }.

#[global] Instance path_eq_dec : EqDecision path.
Proof. solve_decision. Defined.

(** [Path(s)]: empty and ["."] segments disappear. *)
Definition Path (s : string) : path :=
  let segs := filter (λ seg : string, seg ≠ "" ∧ seg ≠ ".") (split_on "/" s) in
  mkPath match s with
         | String "/" (String "/" (String "/" _)) => "/" :: segs
         | String "/" (String "/" _) => "//" :: segs
         | String "/" _ => "/" :: segs
         | _ => segs
         end.

Definition is_absolute (p : path) : bool :=
  match parts p with
  | r :: _ => String.prefix "/" r
  | [] => false
  end.

(** [p / s] *)
Definition path_div (p : path) (s : string) : path :=
  let q := Path s in
  if is_absolute q then q else mkPath (parts p ++ parts q).

Declare Scope path_scope.
Delimit Scope path_scope with path.
Bind Scope path_scope with path.
Infix "/" := path_div : path_scope.

(** [p.name] *)
Definition path_name (p : path) : string :=
  match last (parts p) with
  | Some n => if String.prefix "/" n then "" else n
  | None => ""
  end.

(** [p.parent]: a root, and the empty path, are their own parent. *)
Definition path_parent (p : path) : path :=
  match parts p with
  | [r] => if String.prefix "/" r then p else mkPath []
  | ps => mkPath (removelast ps)
  end.

(** [str(p)] *)
Definition path_str (p : path) : string :=
  match parts p with
  | [] => "."
  | r :: rest =>
      if String.prefix "/" r then r +:+ String.concat "/" rest
      else String.concat "/" (r :: rest)
  end.

(** * Exceptions and the operating system *)

(** The exception classes the module meets; all derive from [Exception].
    [OSError] stands for an [OSError] of no more specific class listed here.
    [LoopNotFinished] is not a Python exception: it marks a [while] loop cut
    off by the fuel of the embedding. *)
Inductive exn :=
  | ProcessLookupError
  | PermissionError
  | FileNotFoundError
  | OSError
  | CalledProcessError (returncode : Z)
  | ValueError
  | LoopNotFinished.

#[global] Instance exn_eq_dec : EqDecision exn.
Proof. solve_decision. Defined.

(** [isinstance(e, OSError)] *)
Definition is_OSError (e : exn) : bool :=
  match e with
  | ProcessLookupError | PermissionError | FileNotFoundError | OSError => true
  | _ => false
  end.

(** [isinstance(e, Exception)]: every exception of Python; running out of
    fuel is none. *)
Definition is_Exception (e : exn) : bool :=
  match e with
  | LoopNotFinished => false
  | _ => true
  end.

Inductive result (A : Type) :=
  | Return (a : A)
  | Raise (e : exn).
Arguments Return {A} a.
Arguments Raise {A} e.

#[global] Instance result_eq_dec {A : Type} `{EqDecision A} : EqDecision (result A).
Proof. solve_decision. Defined.

Definition SIGTERM : Z := 15.
Definition SIGKILL : Z := 9.

(** One call into the operating system, with what it answered. *)
Inductive event :=
  | EvKill (pid sig : Z) (r : result unit)
  | EvSleep (secs : Z)
  | EvRun (argv : list string) (r : result (Z * string))
  | EvOsPathExists (file : string) (b : bool)
  | EvGetsize (file : string) (r : result Z)
  | EvExists (p : path) (b : bool)
  | EvGlob (p : path) (pattern : string) (names : list string)
  | EvMkdir (p : path) (r : result unit)
  | EvRename (src dst : path) (r : result unit)
  | EvUnlink (p : path) (r : result unit).

#[global] Instance event_eq_dec : EqDecision event.
Proof. solve_decision. Defined.

(** What the module asks of its environment.  Every call may change the
    world, also a read: processes exit and files grow on their own.
    - [os_kill pid sig]: [os.kill(pid, sig)];
    - [time_sleep secs]: [time.sleep(secs)];
    - [spawn argv]: start [argv] and wait: return code and standard output,
      or the exception of a program that cannot be started;
    - [os_path_exists], [os_path_getsize]: the [os.path] functions;
    - [path_exists], [path_glob], [path_mkdir] (with [parents=True,
      exist_ok=True]), [path_rename], [path_unlink]: the [Path] methods;
      [path_glob] answers with the names of the entries that match.
      [path_exists] and [path_glob] always answer here: the [OSError]
      that [Path.exists] passes on when a directory may not be searched or
      a name is too long is left out, and the model describes the runs in
      which these two calls answer. *)
Class OS (World : Type) := {
  os_kill : Z → Z → World → result unit * World;
  time_sleep : Z → World → World;
  spawn : list string → World → result (Z * string) * World;
  os_path_exists : string → World → bool * World;
  os_path_getsize : string → World → result Z * World;
  path_exists : path → World → bool * World;
  path_glob : path → string → World → list string * World;
  path_mkdir : path → World → result unit * World;
  path_rename : path → path → World → result unit * World;
  path_unlink : path → World → result unit * World
}.

(** What the module reads besides; these reads leave no event in the trace.
    - [read_lines file]: [open(file, 'r')] and the lines that
      [for line in f] is given, each with its line end, together with the
      exception that ended the reading, if one did (one of [open] too);
    - [environ_get name]: [os.environ.get(name)];
    - [path_stat_size p]: [p.stat().st_size]. *)
Class Host (World : Type) := {
  read_lines : string → World → (list string * option exn) * World;
  environ_get : string → World → option string;
  path_stat_size : path → World → result Z * World
}.

(** ** Computations: state (the world and the trace so far) and exceptions *)
Section monad.
Context {World : Type} `{OS World}.

Definition sys : Type := World * list event.
Definition M (A : Type) : Type := sys → result A * sys.

Definition ret {A} (a : A) : M A := λ s, (Return a, s).
Definition raise {A} (e : exn) : M A := λ s, (Raise e, s).

Definition bind {A B} (c : M A) (k : A → M B) : M B :=
  λ s, match c s with
       | (Return a, s') => k a s'
       | (Raise e, s') => (Raise e, s')
       end.

(** [try: c  except ...]: [handler e] is the body of the first [except]
    clause that matches [e], [None] when no clause does. *)
Definition try_except {A} (c : M A) (handler : exn → option (M A)) : M A :=
  λ s, match c s with
       | (Return a, s') => (Return a, s')
       | (Raise e, s') =>
           match handler e with
           | Some h => h s'
           | None => (Raise e, s')
           end
       end.

(** A call whose answer may be an exception. *)
Definition call {A} (op : World → result A * World) (ev : result A → event) : M A :=
  λ '(w, tr), let '(r, w') := op w in (r, (w', tr ++ [ev r])).

(** A call that always answers. *)
Definition ask {A} (op : World → A * World) (ev : A → event) : M A :=
  λ '(w, tr), let '(a, w') := op w in (Return a, (w', tr ++ [ev a])).

Definition kill (pid sig : Z) : M unit := call (os_kill pid sig) (EvKill pid sig).
Definition sleep (secs : Z) : M unit :=
  λ '(w, tr), (Return tt, (time_sleep secs w, tr ++ [EvSleep secs])).
Definition exists_ (file : string) : M bool :=
  ask (os_path_exists file) (EvOsPathExists file).
Definition getsize (file : string) : M Z := call (os_path_getsize file) (EvGetsize file).
Definition p_exists (p : path) : M bool := ask (path_exists p) (EvExists p).
Definition glob (p : path) (pattern : string) : M (list string) :=
  ask (path_glob p pattern) (EvGlob p pattern).
Definition mkdir (p : path) : M unit := call (path_mkdir p) (EvMkdir p).
Definition rename (src dst : path) : M unit :=
  call (path_rename src dst) (EvRename src dst).
Definition unlink (p : path) : M unit := call (path_unlink p) (EvUnlink p).

(** [subprocess.run(argv, capture_output=True, text=True, check=check)] *)
Definition subprocess_run (argv : list string) (check : bool) : M (Z * string) :=
  bind (call (spawn argv) (EvRun argv))
    (λ cp, if check && negb (bool_decide (cp.1 = 0%Z))
           then raise (CalledProcessError cp.1) else ret cp).
End monad.
Arguments sys World : clear implicits.
Arguments M World A : clear implicits.

Notation "'let*' x := c 'in' k" := (bind c (λ x, k))
  (at level 10, x name, c at level 100, k at level 200).
Notation "'let*' ' p := c 'in' k" := (bind c (λ x, let 'p := x in k))
  (at level 10, p strict pattern, c at level 100, k at level 200).

(** ** Reads that are not traced *)
Section reads.
Context {World : Type} `{Host World}.

Definition read (file : string) : M World (list string * option exn) :=
  λ '(w, tr), let '(lines, w') := read_lines file w in (Return lines, (w', tr)).

Definition environ (name : string) : M World (option string) :=
  λ '(w, tr), (Return (environ_get name w), (w, tr)).

Definition stat_size (p : path) : M World Z :=
  λ '(w, tr), let '(r, w') := path_stat_size p w in (r, (w', tr)).
End reads.

(** * Process tree traversal *)

Module ProcessManager.

(** [ppid_to_children.get(current, [])] *)
Definition get_children (ppid_to_children : gmap Z (list Z)) (current : Z) : list Z :=
  default [] (ppid_to_children !! current).

(** [d[k] = v] on an insertion-ordered dict: an existing key keeps its
    position, a new key goes last. *)
Fixpoint dict_set {V : Type} (k : Z) (v : V) (d : list (Z * V)) : list (Z * V) :=
  match d with
  | [] => [(k, v)]
  | (k', v') :: d' =>
      if decide (k = k') then (k, v) :: d' else (k', v') :: dict_set k v d'
  end.

(** [d.get(k)] on an insertion-ordered dict. *)
Fixpoint dict_get {V : Type} (k : Z) (d : list (Z * V)) : option V :=
  match d with
  | [] => None
  | (k', v') :: d' => if decide (k = k') then Some v' else dict_get k d'
  end.

(** ** [_collect_descendants]: the local variables of the loop *)
Record plain_state := PlainState {
  descendants : list Z;
  p_queue : list Z;
  p_seen : gset Z
}.

(** The body of [for child in ppid_to_children.get(current, [])]. *)
Fixpoint plain_for_children (children : list Z) (st : plain_state) : plain_state :=
  match children with
  | [] => st
  | child :: rest =>
      if decide (child ∈ p_seen st) then plain_for_children rest st
      else plain_for_children rest
             {| descendants := descendants st ++ [child];
                p_queue := p_queue st ++ [child];
                p_seen := {[child]} ∪ p_seen st |}
  end.

(** One turn of [while queue]: [current = queue.pop(0)], then the [for]. *)
Definition plain_turn (ppid_to_children : gmap Z (list Z)) (st : plain_state)
  : plain_state :=
  match p_queue st with
  | [] => st
  | current :: queue' =>
      plain_for_children (get_children ppid_to_children current)
        {| descendants := descendants st; p_queue := queue'; p_seen := p_seen st |}
  end.

(** [while queue: ...], at most [fuel] turns; [None] when the turns run out
    with the queue still non-empty. *)
Fixpoint plain_while (fuel : nat) (ppid_to_children : gmap Z (list Z))
    (st : plain_state) : option plain_state :=
  match p_queue st with
  | [] => Some st
  | _ :: _ =>
      match fuel with
      | O => None
      | S fuel' => plain_while fuel' ppid_to_children (plain_turn ppid_to_children st)
      end
  end.

(** Every PID that occurs as somebody's child. *)
Definition listed_children (ppid_to_children : gmap Z (list Z)) : gset Z :=
  ⋃ ((λ kv : Z * list Z, list_to_set kv.2) <$> map_to_list ppid_to_children).

(** The number of turns granted to the loops: one per PID that can ever enter
    the queue. *)
Definition turns (ppid_to_children : gmap Z (list Z)) : nat :=
  S (size (listed_children ppid_to_children)).

Definition _collect_descendants (root_pid : Z) (ppid_to_children : gmap Z (list Z))
  : option (list Z) :=
  descendants <$>
    plain_while (turns ppid_to_children) ppid_to_children
      {| descendants := []; p_queue := [root_pid]; p_seen := {[root_pid]} |}.

(** ** [_collect_descendants_with_depth]: the local variables of the loop *)
Record depth_state := DepthState {
  depth_map : list (Z * Z);
  queue : list (Z * Z);
  seen : gset Z
}.

Fixpoint for_children (depth : Z) (children : list Z) (st : depth_state) : depth_state :=
  match children with
  | [] => st
  | child :: rest =>
      if decide (child ∈ seen st) then for_children depth rest st
      else for_children depth rest
             {| depth_map := dict_set child (depth + 1)%Z (depth_map st);
                queue := queue st ++ [(child, (depth + 1)%Z)];
                seen := {[child]} ∪ seen st |}
  end.

Definition turn (ppid_to_children : gmap Z (list Z)) (st : depth_state) : depth_state :=
  match queue st with
  | [] => st
  | (current, depth) :: queue' =>
      for_children depth (get_children ppid_to_children current)
        {| depth_map := depth_map st; queue := queue'; seen := seen st |}
  end.

Fixpoint while_queue (fuel : nat) (ppid_to_children : gmap Z (list Z))
    (st : depth_state) : option depth_state :=
  match queue st with
  | [] => Some st
  | _ :: _ =>
      match fuel with
      | O => None
      | S fuel' => while_queue fuel' ppid_to_children (turn ppid_to_children st)
      end
  end.

Definition _collect_descendants_with_depth (root_pid : Z)
    (ppid_to_children : gmap Z (list Z)) : option (list (Z * Z)) :=
  depth_map <$>
    while_queue (turns ppid_to_children) ppid_to_children
      {| depth_map := []; queue := [(root_pid, 0%Z)]; seen := {[root_pid]} |}.

(** ** [_build_process_maps] *)

(** The body of [for line in ps.stdout.split('\n')]. *)
Definition parse_ps_line (line : string) (maps : gmap Z (list Z) * gmap Z string)
  : gmap Z (list Z) * gmap Z string :=
  let '(ppid_to_children, pid_to_cmd) := maps in
  let line := strip line in
  if decide (line = "") then maps
  else
    match split_none 2 "" line with
    | p0 :: p1 :: rest =>
        match int p0, int p1 with
        | Some pid_val, Some ppid_val =>
            let cmdline := match rest with c :: _ => c | [] => "" end in
            (<[ppid_val := get_children ppid_to_children ppid_val ++ [pid_val]]>
               ppid_to_children,
             <[pid_val := cmdline]> pid_to_cmd)
        | _, _ => maps
        end
    | _ => maps
    end.

(** Where a line of [screen -list] leaves [get_rtsp_stream_pids]: the loop
    goes on, or an exception has left the [try] around the loop. *)
Inductive scan :=
  | GoOn (child_pids : list Z)
  | LeftTry (child_pids : list Z).

Section system_calls.
Context {World : Type} `{OS World}.

(** Only [subprocess.run] can raise inside the [try], and it does so before
    either map has received an entry. *)
Definition _build_process_maps : M World (gmap Z (list Z) * gmap Z string) :=
  try_except
    (let* ps := subprocess_run ["ps"; "-e"; "-o"; "pid="; "-o"; "ppid="; "-o"; "args="]
                  true in
     ret (foldl (λ maps line, parse_ps_line line maps) (∅, ∅) (split_on LF ps.2)))
    (λ e, match e with
          | CalledProcessError _ => Some (ret (∅, ∅))
          | _ => None
          end).

(** ** [_select_target_child_pid] *)

Definition score_cmdline (cmd : string) : Z :=
  let score := 0%Z in
  let score := if str_in "run.py" cmd then (score + 100)%Z else score in
  let score :=
    if str_in "python" cmd || str_in "python3" cmd then (score + 60)%Z else score in
  let score := if str_in " uv " (" " +:+ cmd +:+ " ") then (score + 50)%Z else score in
  foldl (λ score shell,
           if str_in shell (" " +:+ cmd +:+ " ") then (score - 100)%Z else score)
        score [" bash"; " sh "; " screen"; " pstree"; " ps "].

(** A candidate [(pid, score, depth, cmd)]. *)
Record candidate := Candidate {
  c_pid : Z; c_score : Z; c_depth : Z; c_cmd : string
}.

(** [(a[1], a[2]) > (b[1], b[2])] on tuples. *)
Definition key_gtb (a b : candidate) : bool :=
  (c_score b <? c_score a)%Z
  || ((c_score a =? c_score b)%Z && (c_depth b <? c_depth a)%Z).

(** [candidates.sort(key=..., reverse=True)]: the sort is stable, also when
    reversed, so candidates of equal key keep their order. *)
Fixpoint insert_desc (x : candidate) (l : list candidate) : list candidate :=
  match l with
  | [] => [x]
  | y :: l' => if key_gtb y x then y :: insert_desc x l' else x :: l
  end.

Definition sort_desc (l : list candidate) : list candidate := foldr insert_desc [] l.

Definition _select_target_child_pid (screen_pid : Z) : M World (option Z) :=
  let* '(ppid_to_children, pid_to_cmd) := _build_process_maps in
  match _collect_descendants_with_depth screen_pid ppid_to_children with
  | None => raise LoopNotFinished
  | Some [] => ret None
  | Some depth_map =>
      let candidates :=
        (λ '(pid, depth),
           let cmd := default "" (pid_to_cmd !! pid) in
           Candidate pid (score_cmdline cmd) depth cmd) <$> depth_map in
      let candidates := sort_desc candidates in
      match List.find (λ c, (0 <? c_score c)%Z) candidates with
      | Some c => ret (Some (c_pid c))
      | None =>
          match candidates with
          | c :: _ => ret (Some (c_pid c))
          | [] => ret None
          end
      end
  end.

(** ** [kill_processes_by_pid] *)

(** [for pid in pids: try: os.kill(pid, sig) except ...: (log)]: every
    exception is caught by one of the clauses, all of which only log. *)
Fixpoint signal_all (sig : Z) (pids : list Z) : M World unit :=
  match pids with
  | [] => ret tt
  | pid :: rest =>
      let* _ := try_except (kill pid sig) (λ _, Some (ret tt)) in
      signal_all sig rest
  end.

(** [for pid in pids: try: os.kill(pid, 0); running.append(pid)
    except ProcessLookupError: ... except Exception: ...]: the loop that
    fills [running_pids], [remaining_pids] and [final_running]. *)
Fixpoint probe_all (pids : list Z) (running : list Z) : M World (list Z) :=
  match pids with
  | [] => ret running
  | pid :: rest =>
      let* running :=
        try_except (let* _ := kill pid 0 in ret (running ++ [pid]))
                   (λ _, Some (ret running)) in
      probe_all rest running
  end.

(** [for sec in range(1, grace_period + 1)], [secs] turns left. *)
Fixpoint grace_wait (secs : nat) (pids : list Z) : M World unit :=
  match secs with
  | O => ret tt
  | S secs' =>
      let* running_pids := probe_all pids [] in
      match running_pids with
      | [] => ret tt
      | _ :: _ => let* _ := sleep 1 in grace_wait secs' pids
      end
  end.

Definition kill_processes_by_pid (pids : list Z) (grace_period : Z) : M World bool :=
  match pids with
  | [] => ret true
  | _ :: _ =>
      let* _ := signal_all SIGTERM pids in
      let* _ := grace_wait (Z.to_nat grace_period) pids in
      let* remaining_pids := probe_all pids [] in
      let* _ := match remaining_pids with
                | [] => ret tt
                | _ :: _ => signal_all SIGKILL remaining_pids
                end in
      let* final_running := probe_all pids [] in
      let final_result := bool_decide (length final_running = 0) in
      ret final_result
  end.

(** ** [get_screen_child_pid] *)

Definition get_screen_child_pid (screen_pid : Z) : M World (option Z) :=
  try_except
    (let* result :=
       subprocess_run ["ps"; "--ppid"; str screen_pid; "-o"; "pid"; "--no-headers"]
         true in
     match strip result.2 with
     | EmptyString => ret None
     | stdout =>
         match int (default "" (head (split_on LF stdout))) with
         | None => raise ValueError
         | Some child_pid => ret (Some child_pid)
         end
     end)
    (λ e, if is_Exception e then Some (ret None) else None).

(** ** [get_rtsp_stream_pids] *)

(** One line of the listing, run inside the [try] around the loop.  The
    list [child_pids] is filled in place and so keeps what it holds when an
    exception leaves that [try]: a line hands on the list and whether the
    loop goes on.  The inner [try] catches [ValueError] only; each clause of
    the outer one only logs. *)
Definition rtsp_line (line : string) (child_pids : list Z) : M World scan :=
  if str_in "rtsp_stream" line && (str_in "Detached" line || str_in "Attached" line)
  then
    match split_on "." line with
    | p0 :: _ :: _ =>
        try_except
          (try_except
             (match int (strip p0) with
              | None => raise ValueError
              | Some screen_pid =>
                  let* target_pid := _select_target_child_pid screen_pid in
                  match target_pid with
                  | Some target_pid =>
                      if decide (target_pid = 0%Z) then ret (GoOn child_pids)
                      else ret (GoOn (child_pids ++ [target_pid]))
                  | None => ret (GoOn child_pids)
                  end
              end)
             (λ e, match e with
                   | ValueError => Some (ret (GoOn child_pids))
                   | _ => None
                   end))
          (λ e, if is_Exception e then Some (ret (LeftTry child_pids)) else None)
    | _ => ret (GoOn child_pids)
    end
  else ret (GoOn child_pids).

(** [for line in result.stdout.split('\n')] *)
Fixpoint rtsp_lines (lines : list string) (child_pids : list Z) : M World (list Z) :=
  match lines with
  | [] => ret child_pids
  | line :: rest =>
      let* step := rtsp_line line child_pids in
      match step with
      | GoOn child_pids => rtsp_lines rest child_pids
      | LeftTry child_pids => ret child_pids
      end
  end.

Definition get_rtsp_stream_pids : M World (list Z) :=
  let* listing :=
    try_except
      (let* result := subprocess_run ["screen"; "-list"] true in ret (Some result.2))
      (λ e, if is_Exception e then Some (ret None) else None) in
  match listing with
  | None => ret []
  | Some stdout => rtsp_lines (split_on LF stdout) []
  end.
End system_calls.

End ProcessManager.

(** * Files of the streams *)

Record StreamConfig := mkStreamConfig {
  stream_id : Z;
  temp_output_path : string;
  final_output_path : string;
  env_file : string
}.

Module FileProcessor.

(** ** The pattern [_(\d{6})_(\d{6})\.(mp4|srt)$] *)

(** The pattern matched at the very start of [s]: eighteen characters, then
    [$], which accepts the end of the string and the position before a
    final line feed. *)
Definition pattern_match (s : string) : option (string * string * string) :=
  match s with
  | String u1 (String y1 (String y2 (String m1 (String m2 (String d1 (String d2
    (String u2 (String h1 (String h2 (String n1 (String n2 (String s1 (String s2
    (String dot (String e1 (String e2 (String e3 tail))))))))))))))))) =>
      let date_part := string_of_list_ascii [y1; y2; m1; m2; d1; d2] in
      let time_part := string_of_list_ascii [h1; h2; n1; n2; s1; s2] in
      let file_ext := string_of_list_ascii [e1; e2; e3] in
      if bool_decide (u1 = "_"%char)
         && forallb is_digit [y1; y2; m1; m2; d1; d2]
         && bool_decide (u2 = "_"%char)
         && forallb is_digit [h1; h2; n1; n2; s1; s2]
         && bool_decide (dot = "."%char)
         && (bool_decide (file_ext = "mp4") || bool_decide (file_ext = "srt"))
         && (bool_decide (tail = "") || bool_decide (tail = String LF ""))
      then Some (date_part, time_part, file_ext)
      else None
  | _ => None
  end.

(** [pattern.search(s)]: the leftmost position where the pattern matches. *)
Fixpoint pattern_search (s : string) : option (string * string * string) :=
  match pattern_match s with
  | Some groups => Some groups
  | None =>
      match s with
      | EmptyString => None
      | String _ s' => pattern_search s'
      end
  end.

(** Where a loop body leaves: [return a], or the next turn with the loop
    variables [s]. *)
Inductive flow (A S : Type) :=
  | ReturnNow (a : A)
  | NextTurn (s : S).
Arguments ReturnNow {A S} a.
Arguments NextTurn {A S} s.

Section system_calls.
Context {World : Type} `{OS World}.

(** ** [is_file_stable] *)

(** [for _ in range(max_wait)], [turns_left] turns left. *)
Fixpoint stable_loop (turns_left : nat) (file_path : string) (check_count : Z)
    (prev_size same_count : Z) : M World bool :=
  match turns_left with
  | O => ret false
  | S turns_left' =>
      let* step :=
        try_except
          (let* current_size := getsize file_path in
           if bool_decide (current_size = prev_size) && bool_decide (0 ≤ prev_size)%Z
           then
             let same_count := (same_count + 1)%Z in
             if bool_decide (check_count ≤ same_count)%Z
             then ret (ReturnNow true)
             else ret (NextTurn (prev_size, same_count))
           else ret (NextTurn (current_size, 0%Z)))
          (λ e, if is_OSError e then Some (ret (ReturnNow false)) else None) in
      match step with
      | ReturnNow b => ret b
      | NextTurn (prev_size, same_count) =>
          let* _ := sleep 1 in
          stable_loop turns_left' file_path check_count prev_size same_count
      end
  end.

Definition is_file_stable (file_path : string) (check_count max_wait : Z) : M World bool :=
  let* present := exists_ file_path in
  if negb present then ret false
  else stable_loop (Z.to_nat max_wait) file_path check_count (-1) 0.

(** ** [final_sweep_move] *)

(** The destination directory of a file named [name], when the sweep is to
    move it: [Path(final_output_path) / str(year) / month / day / hour].
    [None]: the name is skipped. [int] cannot fail on two digits; the
    embedding keeps the [ValueError] all the same. *)
Definition sweep_target_dir (final_output_path : string) (name : string)
  : option (result path) :=
  if String.prefix "temp_" name then None
  else
    match pattern_search name with
    | None => None
    | Some (date_part, time_part, file_ext) =>
        Some match int (substring 0 2 date_part) with
             | None => Raise ValueError
             | Some yy =>
                 let year := (yy + 2000)%Z in
                 let month := substring 2 2 date_part in
                 let day := substring 4 2 date_part in
                 let hour := substring 0 2 time_part in
                 Return (Path final_output_path / str year / month / day / hour)%path
             end
    end.

(** [for file_path in temp_path.glob("*")], over the names of the entries. *)
Fixpoint sweep_loop (config : StreamConfig) (temp_path : path)
    (entries : list string) (moved_count : Z) : M World Z :=
  match entries with
  | [] => ret moved_count
  | entry :: rest =>
      let file_path := (temp_path / entry)%path in
      match sweep_target_dir (final_output_path config) (path_name file_path) with
      | None => sweep_loop config temp_path rest moved_count
      | Some (Raise e) => raise e
      | Some (Return target_dir) =>
          let* _ := mkdir target_dir in
          let* moved_count :=
            try_except
              (let target_path := (target_dir / path_name file_path)%path in
               let* _ := rename file_path target_path in
               ret (moved_count + 1)%Z)
              (λ e, if is_OSError e then Some (ret moved_count) else None) in
          sweep_loop config temp_path rest moved_count
      end
  end.

Definition final_sweep_move (config : StreamConfig) : M World Z :=
  let temp_path := Path (temp_output_path config) in
  let* present := p_exists temp_path in
  if negb present then ret 0%Z
  else
    let* entries := glob temp_path "*" in
    sweep_loop config temp_path entries 0.

(** ** [is_file_in_use] *)

Definition is_file_in_use (file_path : string) : M World bool :=
  try_except
    (let* result := subprocess_run ["lsof"; file_path] false in
     ret (bool_decide (result.1 = 0%Z)))
    (λ e, match e with
          | CalledProcessError _ | FileNotFoundError => Some (ret false)
          | _ => None
          end).

(** ** [_process_single_file] *)

Definition _process_single_file (file_path : path) (config : StreamConfig)
  : M World bool :=
  let base_name := path_name file_path in
  let final_name := slice_from 5 base_name in
  let* stable := is_file_stable (path_str file_path) 3 15 in
  if negb stable then ret false
  else
    let* in_use := is_file_in_use (path_str file_path) in
    if in_use then ret false
    else
      try_except
        (let new_path := (path_parent file_path / final_name)%path in
         let* _ := rename file_path new_path in
         ret true)
        (λ e, if is_OSError e then Some (ret false) else None).

(** ** [process_temp_files] *)

(** [for file_path in mp4_files] and [for file_path in srt_files], over the
    names of the entries. *)
Fixpoint process_files (config : StreamConfig) (temp_path : path)
    (entries : list string) (processed_count : Z) : M World Z :=
  match entries with
  | [] => ret processed_count
  | entry :: rest =>
      let* done := _process_single_file (temp_path / entry)%path config in
      process_files config temp_path rest
        (if done then (processed_count + 1)%Z else processed_count)
  end.

Definition process_temp_files (config : StreamConfig) : M World Z :=
  let temp_path := Path (temp_output_path config) in
  let* present := p_exists temp_path in
  if negb present then ret 0%Z
  else
    let* mp4_files := glob temp_path "temp_*.mp4" in
    let* processed_count := process_files config temp_path mp4_files 0 in
    let* srt_files := glob temp_path "temp_*.srt" in
    process_files config temp_path srt_files processed_count.
End system_calls.

(** ** [get_env_value] *)

(** [for line in f]: the value of the first line that starts with [key=].
    The index [1] exists on such a line; were it not to, the [IndexError]
    would end in [return None] like every exception here. *)
Fixpoint scan_env (key : string) (lines : list string) : option string :=
  match lines with
  | [] => None
  | line :: rest =>
      if String.prefix (key +:+ "=") line
      then match split_once "=" line with
           | _ :: value :: _ => Some (strip value)
           | _ => None
           end
      else scan_env key rest
  end.

Section configuration.
Context {World : Type} `{OS World} `{Host World}.

(** Whatever ends the reading, the two [except] clauses log it and the
    function returns [None]. *)
Definition get_env_value (key env_file : string) : M World (option string) :=
  let* '(lines, failure) := read env_file in
  ret (scan_env key lines).

(** ** [get_stream_config], of a [FileProcessor(script_dir, profile)] *)

(** [if value:] on an [Optional[str]]. *)
Definition truthy (value : option string) : bool :=
  match value with
  | Some (String _ _) => true
  | _ => false
  end.

Definition get_stream_config (script_dir profile : string) (stream_id : Z)
  : M World StreamConfig :=
  let env_base_dir := (Path script_dir / "profiles" / profile)%path in
  let alt_env_dir := Path script_dir in
  let env_file := (env_base_dir / (".env.stream" +:+ str stream_id))%path in
  let* present := p_exists env_file in
  let env_file :=
    if present then env_file
    else (alt_env_dir / (".env.stream" +:+ str stream_id))%path in
  let temp_output_path := "./output/temp/" in
  let final_output_path := "/mnt/nas/cam" in
  let* present := p_exists env_file in
  let* '(temp_output_path, final_output_path) :=
    if present then
      let* temp_path := get_env_value "TEMP_OUTPUT_PATH" (path_str env_file) in
      let* final_path := get_env_value "FINAL_OUTPUT_PATH" (path_str env_file) in
      ret (if truthy temp_path then default "" temp_path else temp_output_path,
           if truthy final_path then default "" final_path else final_output_path)
    else ret (temp_output_path, final_output_path) in
  ret {| stream_id := stream_id;
         temp_output_path := temp_output_path;
         final_output_path := final_output_path;
         env_file := path_str env_file |}.
End configuration.

End FileProcessor.

(** * The stop manager *)

Module StreamStopManager.

(** The dictionary [get_running_sessions] returns. *)
Record sessions := mkSessions { streams : Z; mover : Z; total : Z }.

(** The dictionary [stop_all_streams] returns. *)
Record summary := mkSummary {
  stopped_sessions : Z;
  temp_files_removed : Z;
  remaining_sessions : Z
}.

Section system_calls.
Context {World : Type} `{OS World}.

(** ** [cleanup_temp_files] *)

(** [for i in range(1, 7)], over the values of [i]. *)
Fixpoint cleanup_temp_loop (script_dir : path) (indices : list Z)
    (temp_files_removed : Z) : M World Z :=
  match indices with
  | [] => ret temp_files_removed
  | i :: rest =>
      let temp_file := (script_dir / (".env.temp" +:+ str i))%path in
      let* present := p_exists temp_file in
      let* temp_files_removed :=
        if present
        then let* _ := unlink temp_file in ret (temp_files_removed + 1)%Z
        else ret temp_files_removed in
      cleanup_temp_loop script_dir rest temp_files_removed
  end.

Definition cleanup_temp_files (script_dir : path) : M World Z :=
  let* temp_files_removed := cleanup_temp_loop script_dir (seqZ 1 6) 0 in
  let env_file := (script_dir / ".env")%path in
  let* present := p_exists env_file in
  if present
  then let* _ := unlink env_file in ret (temp_files_removed + 1)%Z
  else ret temp_files_removed.

(** ** [stop_all_streams] *)

(** The stages of [stop_all_streams] that no statement below looks into
    are parameters: what is proved holds whatever they do. *)
Section stages.
Variable get_running_sessions : M World sessions.
Variable get_rtsp_stream_pids : M World (list Z).
Variable get_stream_config : Z → M World StreamConfig.
Variable process_temp_files : StreamConfig → M World Z.
(** [int(os.environ.get('FINAL_SWEEP_SECONDS', '20'))] *)
Variable final_sweep_seconds : M World Z.
Variable stop_file_mover_session : M World bool.
Variable stop_mediamtx : M World bool.
(** The [for] over the log files at the end, which reads their sizes. *)
Variable report_log_files : Z → M World unit.

(** [for i in range(1, num_streams + 1)] around [process_temp_files]. *)
Fixpoint process_all (indices : list Z) (total_processed : Z) : M World Z :=
  match indices with
  | [] => ret total_processed
  | i :: rest =>
      let* config := get_stream_config i in
      let* processed := process_temp_files config in
      process_all rest (total_processed + processed)%Z
  end.

(** [for i in range(1, num_streams + 1)] around [final_sweep_move]. *)
Fixpoint sweep_all (indices : list Z) (moved_count : Z) : M World Z :=
  match indices with
  | [] => ret moved_count
  | i :: rest =>
      let* config := get_stream_config i in
      let* moved := FileProcessor.final_sweep_move config in
      sweep_all rest (moved_count + moved)%Z
  end.

(** [for pass_num in range(1, final_sweep_max + 1)], [passes] left. *)
Fixpoint sweep_passes (passes : nat) (num_streams : Z) : M World unit :=
  match passes with
  | O => ret tt
  | S passes' =>
      let* moved_count := sweep_all (seqZ 1 num_streams) 0 in
      if bool_decide (moved_count = 0%Z) then ret tt
      else let* _ := sleep 1 in sweep_passes passes' num_streams
  end.

Definition stop_all_streams (script_dir : path) (num_streams : Z) : M World summary :=
  let* sessions := get_running_sessions in
  let* rtsp_pids := get_rtsp_stream_pids in
  let* stopped_count :=
    match rtsp_pids with
    | [] => ret 0%Z
    | _ :: _ =>
        let* success := ProcessManager.kill_processes_by_pid rtsp_pids 5 in
        if success then ret (Z.of_nat (length rtsp_pids)) else ret 0%Z
    end in
  let* _ :=
    if bool_decide (0 < stopped_count)%Z then
      let* total_processed := process_all (seqZ 1 num_streams) 0 in
      let* _ := sleep 3 in
      let* final_sweep_max := final_sweep_seconds in
      sweep_passes (Z.to_nat final_sweep_max) num_streams
    else ret tt in
  let* temp_files_removed := cleanup_temp_files script_dir in
  let* remaining_sessions := get_running_sessions in
  let* _ := stop_file_mover_session in
  let* _ := stop_mediamtx in
  let* _ :=
    try_except
      (let* _ := subprocess_run ["pkill"; "-TERM"; "-f"; "run_daemon.py"] false in
       ret tt)
      (λ _, Some (ret tt)) in
  let* _ := report_log_files num_streams in
  ret {| stopped_sessions := stopped_count;
         temp_files_removed := temp_files_removed;
         remaining_sessions := streams remaining_sessions |}.
End stages.
End system_calls.

End StreamStopManager.

(** * Screen sessions *)

Module SessionManager.
Import StreamStopManager.

Definition base_session_name : string := "rtsp_stream".
Definition file_mover_session : string := "rtsp_file_mover".

(** [len([line for line in output.split('\n') if name in line])] *)
Definition lines_with (name output : string) : Z :=
  Z.of_nat (length (filter (λ line, str_in name line = true) (split_on LF output))).

Section system_calls.
Context {World : Type} `{OS World}.

(** ** [get_running_sessions] *)

Definition get_running_sessions : M World sessions :=
  try_except
    (let* result := subprocess_run ["screen"; "-list"] true in
     let output := result.2 in
     let running_streams := lines_with base_session_name output in
     let running_mover := lines_with file_mover_session output in
     ret {| streams := running_streams;
            mover := running_mover;
            total := (running_streams + running_mover)%Z |})
    (λ e, match e with
          | CalledProcessError returncode =>
              if decide (returncode = 1%Z)
              then Some (ret {| streams := 0; mover := 0; total := 0 |})
              else Some (ret {| streams := 0; mover := 0; total := 0 |})
          | FileNotFoundError => Some (ret {| streams := 0; mover := 0; total := 0 |})
          | _ => None
          end).

(** ** [stop_stream_sessions] *)

(** [for i in range(1, num_streams + 1)], over the values of [i].  The
    [quit] command runs without [capture_output]: what it prints is not
    read. *)
Fixpoint stop_sessions_loop (indices : list Z) (stopped_count : Z) : M World Z :=
  match indices with
  | [] => ret stopped_count
  | i :: rest =>
      let session_name := base_session_name +:+ str i in
      let* stopped_count :=
        try_except
          (let* result := subprocess_run ["screen"; "-list"] false in
           if negb (str_in session_name result.2) then ret stopped_count
           else
             let* _ := subprocess_run ["screen"; "-S"; session_name; "-X"; "quit"] true in
             let* _ := sleep 1 in
             let* result := subprocess_run ["screen"; "-list"] false in
             if negb (str_in session_name result.2)
             then ret (stopped_count + 1)%Z
             else ret stopped_count)
          (λ e, match e with
                | CalledProcessError _ => Some (ret stopped_count)
                | _ => None
                end) in
      stop_sessions_loop rest stopped_count
  end.

Definition stop_stream_sessions (num_streams : Z) : M World Z :=
  stop_sessions_loop (seqZ 1 num_streams) 0.

(** ** [stop_file_mover_session] *)

Definition stop_file_mover_session : M World bool :=
  try_except
    (let* result := subprocess_run ["screen"; "-list"] false in
     if negb (str_in file_mover_session result.2) then ret true
     else
       let* _ := subprocess_run ["screen"; "-S"; file_mover_session; "-X"; "quit"] true in
       let* _ := sleep 1 in
       let* result := subprocess_run ["screen"; "-list"] false in
       let success := negb (str_in file_mover_session result.2) in
       ret success)
    (λ e, match e with
          | CalledProcessError _ | FileNotFoundError => Some (ret false)
          | _ => None
          end).
End system_calls.

End SessionManager.

(** * The media server *)

Module MediaMTXManager.

Section system_calls.
Context {World : Type} `{OS World}.

(** ** [stop_mediamtx] *)

Definition stop_mediamtx : M World bool :=
  try_except
    (let* result := subprocess_run ["pgrep"; "-f"; "mediamtx"] false in
     if negb (bool_decide (result.1 = 0%Z)) then ret true
     else
       let* result := subprocess_run ["pkill"; "-TERM"; "-f"; "mediamtx"] false in
       let* _ := sleep 3 in
       let* result := subprocess_run ["pgrep"; "-f"; "mediamtx"] false in
       let* _ :=
         if bool_decide (result.1 = 0%Z)
         then let* result := subprocess_run ["pkill"; "-9"; "-f"; "mediamtx"] false in
              ret tt
         else ret tt in
       ret true)
    (λ e, if is_Exception e then Some (ret false) else None).
End system_calls.

End MediaMTXManager.

(** * The script *)

Module Main.
Import StreamStopManager.

Section system_calls.
Context {World : Type} `{OS World} `{Host World}.

(** [int(os.environ.get('FINAL_SWEEP_SECONDS', '20'))] *)
Definition final_sweep_seconds : M World Z :=
  let* value := environ "FINAL_SWEEP_SECONDS" in
  match int (default "20" value) with
  | None => raise ValueError
  | Some final_sweep_max => ret final_sweep_max
  end.

(** The last loop of [stop_all_streams]:
    [for i in range(1, num_streams + 1)] over the log files, which reads
    the size of those that exist. *)
Fixpoint report_logs (script_dir : path) (indices : list Z) : M World unit :=
  match indices with
  | [] => ret tt
  | i :: rest =>
      let log_file := (script_dir / ("rtsp_stream" +:+ str i +:+ ".log"))%path in
      let* present := p_exists log_file in
      let* _ := if present
                then let* file_size := stat_size log_file in ret tt
                else ret tt in
      report_logs script_dir rest
  end.

(** [stop_all_streams] of a [StreamStopManager(script_dir, profile)]: the
    stages are those of the managers that [__init__] makes, the
    [FileProcessor] being made from [str(script_dir)]. *)
Definition stop_all_streams (script_dir : path) (profile : string) (num_streams : Z)
  : M World summary :=
  StreamStopManager.stop_all_streams
    SessionManager.get_running_sessions
    ProcessManager.get_rtsp_stream_pids
    (FileProcessor.get_stream_config (path_str script_dir) profile)
    FileProcessor.process_temp_files
    final_sweep_seconds
    SessionManager.stop_file_mover_session
    MediaMTXManager.stop_mediamtx
    (λ num_streams, report_logs script_dir (seqZ 1 num_streams))
    script_dir num_streams.

End system_calls.

End Main.

(** * A small operating system to run the module on *)

Module Sim.

(** The files that exist (every one of size 1024) and the directories, the
    processes that are alive, what [ps] prints ([None]: there is no [ps]),
    whether renaming is refused, and whether directories can be made. *)
Record world := mkWorld {
  files : list path;
  alive : list Z;
  ps_output : option (Z * string);
  rename_refused : bool;
  mkdir_refused : bool
}.

Definition parent (p : path) : path := mkPath (removelast (parts p)).

Definition sim_kill (pid sig : Z) (w : world) : result unit * world :=
  if bool_decide (pid ∈ alive w) then
    if bool_decide (sig = SIGKILL)
    then (Return tt, mkWorld (files w) (filter (λ q, q ≠ pid) (alive w)) (ps_output w)
                       (rename_refused w) (mkdir_refused w))
    else (Return tt, w)
  else (Raise ProcessLookupError, w).

Definition sim_spawn (argv : list string) (w : world) : result (Z * string) * world :=
  match ps_output w with
  | Some out => (Return out, w)
  | None => (Raise FileNotFoundError, w)
  end.

Definition sim_rename (src dst : path) (w : world) : result unit * world :=
  if rename_refused w then (Raise OSError, w)
  else if bool_decide (src ∈ files w) then
    (Return tt, mkWorld (dst :: filter (λ q, q ≠ src) (files w)) (alive w) (ps_output w)
                  (rename_refused w) (mkdir_refused w))
  else (Raise FileNotFoundError, w).

Definition sim_unlink (p : path) (w : world) : result unit * world :=
  if bool_decide (p ∈ files w) then
    (Return tt, mkWorld (filter (λ q, q ≠ p) (files w)) (alive w) (ps_output w)
                  (rename_refused w) (mkdir_refused w))
  else (Raise FileNotFoundError, w).

#[global] Instance sim_os : OS world := {|
  os_kill := sim_kill;
  time_sleep := λ _ w, w;
  spawn := sim_spawn;
  os_path_exists := λ file w, (bool_decide (Path file ∈ files w), w);
  os_path_getsize := λ file w,
    (if bool_decide (Path file ∈ files w) then Return 1024%Z else Raise FileNotFoundError, w);
  path_exists := λ p w,
    (bool_decide (p ∈ files w) || bool_decide (p ∈ parent <$> files w), w);
  path_glob := λ p _ w, (path_name <$> filter (λ q, parent q = p) (files w), w);
  path_mkdir := λ p w, (if mkdir_refused w then Raise PermissionError else Return tt, w);
  path_rename := sim_rename;
  path_unlink := sim_unlink
|}.

(** A machine of which only the text files matter: their lines, by name. *)
Definition shelf : Type := list (string * list string).

Definition shelf_lines (file : string) (w : shelf) : list string * option exn :=
  match List.find (λ entry : string * list string, bool_decide (entry.1 = file)) w with
  | Some entry => (entry.2, None)
  | None => ([], Some FileNotFoundError)
  end.

#[global] Instance shelf_host : Host shelf := {|
  read_lines := λ file w, (shelf_lines file w, w);
  environ_get := λ _ _, None;
  path_stat_size := λ _ w, (Raise FileNotFoundError, w)
|}.

End Sim.

(** * Vocabulary of the statements *)

Local Close Scope string_scope.

(** ** Process trees *)

Module Tree.
Import ProcessManager.

(** [walk m root pid n]: [n] parent-to-child edges of [m] lead from [root]
    down to [pid]. *)
Inductive walk (m : gmap Z (list Z)) (root : Z) : Z → nat → Prop :=
  | walk_here : walk m root root 0
  | walk_down v c n : walk m root v n → c ∈ get_children m v → walk m root c (S n).

(** A children map in the shape of a tree (of a forest): no PID is the
    child of two parents, and no walk of one edge or more comes back to
    where it started. *)
Record tree_shaped (m : gmap Z (list Z)) : Prop := {
  one_parent : ∀ p1 p2 c, c ∈ get_children m p1 → c ∈ get_children m p2 → p1 = p2;
  cycle_free : ∀ v n, walk m v v n → n = 0
}.

(** The PIDs that can ever be in the queue. *)
Definition universe (m : gmap Z (list Z)) (root_pid : Z) : gset Z :=
  {[root_pid]} ∪ listed_children m.

(** A sufficient test for [tree_shaped] that computes: every child has a
    larger PID than its parent, and no PID is listed under two parents. *)
Definition is_forest (m : gmap Z (list Z)) : bool :=
  forallb (λ parent1 : Z * list Z,
             forallb (λ c, (parent1.1 <? c)%Z) parent1.2
             && forallb (λ parent2 : Z * list Z,
                           forallb (λ c : Z,
                                      negb (bool_decide (c ∈ parent2.2))
                                      || bool_decide (parent1.1 = parent2.1))
                                   parent1.2)
                        (map_to_list m))
          (map_to_list m).

(** What holds of the loop variables of [_collect_descendants_with_depth];
    [current] is the PID whose children the [for] is going through, [None]
    between two turns. *)
Record bfs_inv (m : gmap Z (list Z)) (root : Z) (current : option Z)
    (st : depth_state) : Prop := {
  inv_root : root ∈ seen st;
  inv_seen : ∀ v, v ∈ seen st ↔ v = root ∨ v ∈ (depth_map st).*1;
  inv_root_key : root ∉ (depth_map st).*1;
  inv_nodup : NoDup (depth_map st).*1;
  inv_map : ∀ v k, (v, k) ∈ depth_map st →
            ∃ n, k = Z.of_nat (S n) ∧ walk m root v (S n);
  inv_queue : ∀ u d, (u, d) ∈ queue st → ∃ n, d = Z.of_nat n ∧ walk m root u n;
  inv_closed : ∀ u, u ∈ seen st →
               Some u = current ∨ u ∈ (queue st).*1
               ∨ ∀ c, c ∈ get_children m u → c ∈ seen st
}.

(** What holds of the loop variables of [_collect_descendants]. *)
Definition plain_inv (root : Z) (st : plain_state) : Prop :=
  NoDup (descendants st) ∧ root ∈ p_seen st ∧ (root ∉ descendants st)
  ∧ (∀ x, x ∈ descendants st → x ∈ p_seen st).

(** A screen session with two children and a grandchild. *)
Definition small_tree : gmap Z (list Z) :=
  list_to_map [(100, [101; 102]); (101, [103])]%Z.

End Tree.

(** ** Traces of signals *)

Module Trace.

(** The events of [os.kill(pid, sig)] over [pids], answered by [outs]. *)
Definition kill_events (sig : Z) (pids : list Z) (outs : list (result unit)) : list event :=
  zip_with (λ pid out, EvKill pid sig out) pids outs.

(** The PIDs of [pids] whose call returned, [outs] being the answers. *)
Definition answering (pids : list Z) (outs : list (result unit)) : list Z :=
  (filter (λ po : Z * result unit, po.2 = Return tt) (zip pids outs)).*1.

(** What the grace phase does: probes of [pids] and one-second sleeps. *)
Definition grace_event (pids : list Z) (ev : event) : Prop :=
  ev = EvSleep 1 ∨ ∃ pid out, pid ∈ pids ∧ ev = EvKill pid 0 out.

(** The number of one-second sleeps among the events. *)
Definition sleeps (evs : list event) : nat :=
  length (filter (λ ev, ev = EvSleep 1) evs).
End Trace.

(** ** Size samples *)

Module Samples.

(** The event is a sample of a file's size. *)
Definition is_sample (ev : event) : bool :=
  match ev with EvGetsize _ _ => true | _ => false end.

(** The number of size samples among the events. *)
Definition samples (evs : list event) : nat := length (List.filter is_sample evs).

(** The event is consistent with a file that exists and has [size] bytes. *)
Definition shows_size (size : Z) (ev : event) : bool :=
  match ev with
  | EvOsPathExists _ present => present
  | EvGetsize _ r => bool_decide (r = Return size)
  | _ => true
  end.

(** A world with one file in it. *)
Definition one_file : Sim.world := Sim.mkWorld [Path "cam1.mp4"] [] None false false.
End Samples.

(** ** Files looked at and removed *)

Module Files.
(** The paths that [unlink] removed, in order. *)
Fixpoint deleted (evs : list event) : list path :=
  match evs with
  | [] => []
  | EvUnlink p (Return _) :: evs' => p :: deleted evs'
  | _ :: evs' => deleted evs'
  end.

(** The paths that [exists()] found, in order. *)
Fixpoint found (evs : list event) : list path :=
  match evs with
  | [] => []
  | EvExists p true :: evs' => p :: found evs'
  | _ :: evs' => found evs'
  end.

(** An event that looks at, or removes, one of [paths] and nothing else. *)
Definition touches_only (paths : list path) (ev : event) : Prop :=
  ∃ p, p ∈ paths ∧ ((∃ b, ev = EvExists p b) ∨ (∃ r, ev = EvUnlink p r)).

(** The seven files [cleanup_temp_files] is after. *)
Definition env_files (script_dir : path) : list path :=
  [script_dir / ".env.temp1"; script_dir / ".env.temp2"; script_dir / ".env.temp3";
   script_dir / ".env.temp4"; script_dir / ".env.temp5"; script_dir / ".env.temp6";
   script_dir / ".env"]%path.

(** What a call left behind: only the files of [paths] were looked at or
    removed, each at most once and in order; a call that returns has
    removed every file it found and counted them from [n0]; a call that
    raises does so from an [unlink]. *)
Definition cleaned (paths : list path) (n0 : Z) (r : result Z) (evs : list event)
  : Prop :=
  Forall (touches_only paths) evs
  ∧ deleted evs `sublist_of` paths
  ∧ match r with
    | Return n => n = (n0 + Z.of_nat (length (deleted evs)))%Z
                  ∧ deleted evs = found evs
    | Raise e => ∃ p evs0, evs = evs0 ++ [EvUnlink p (Raise e)]
    end.
End Files.

Local Open Scope string_scope.
Local Open Scope list_scope.

(** ** Stamped file names *)

Module Stamp.
(** Six decimal digits. *)
Definition digits6 (s : string) : Prop :=
  String.length s = 6 ∧ forallb is_digit (list_ascii_of_string s) = true.

(** [name] ends in [_DDDDDD_TTTTTT.mp4] or [.srt], possibly followed by
    [tail]. *)
Definition stamped (name date time ext tail : string) : Prop :=
  ∃ pre, name = pre +:+ "_" +:+ date +:+ "_" +:+ time +:+ "." +:+ ext +:+ tail
         ∧ digits6 date ∧ digits6 time ∧ (ext = "mp4" ∨ ext = "srt").

(** Where the specification sends a file stamped [date], [time]:
    [final_root/(2000+YY)/MM/DD/HH]. *)
Definition dated_dir (final_output_path date time : string) (yy : Z) : path :=
  (Path final_output_path / str (2000 + yy) / substring 2 2 date / substring 4 2 date
   / substring 0 2 time)%path.
End Stamp.

(** ** Renames of a sweep *)

Module Moves.
(** The renames that were tried, as (source, destination), in order. *)
Fixpoint attempted (evs : list event) : list (path * path) :=
  match evs with
  | [] => []
  | EvRename src dst _ :: evs' => (src, dst) :: attempted evs'
  | _ :: evs' => attempted evs'
  end.

(** The renames that succeeded. *)
Fixpoint renamed (evs : list event) : list (path * path) :=
  match evs with
  | [] => []
  | EvRename src dst (Return _) :: evs' => (src, dst) :: renamed evs'
  | _ :: evs' => renamed evs'
  end.

(** The entries that [glob] listed. *)
Fixpoint listed (evs : list event) : list string :=
  match evs with
  | [] => []
  | EvGlob _ _ names :: evs' => names ++ listed evs'
  | _ :: evs' => listed evs'
  end.

(** The sweep sends [entry] of the directory [temp_path] to [target_dir]:
    the entry's name passes the filter and [target_dir] is the directory
    computed from it. *)
Definition routed (config : StreamConfig) (temp_path : path) (entry : string)
    (target_dir : path) : Prop :=
  FileProcessor.sweep_target_dir (final_output_path config)
    (path_name (temp_path / entry)) = Some (Return target_dir).

(** The same name, in [target_dir]. *)
Definition destination (temp_path : path) (entry : string) (target_dir : path) : path :=
  (target_dir / path_name (temp_path / entry))%path.

(** An event of a sweep over [entries]: making the directory an entry is
    sent to, or renaming the entry into it. *)
Definition sweep_event (config : StreamConfig) (temp_path : path)
    (entries : list string) (ev : event) : Prop :=
  ∃ entry target_dir, entry ∈ entries ∧ routed config temp_path entry target_dir
    ∧ ((∃ r, ev = EvMkdir target_dir r)
       ∨ (∃ r, ev = EvRename (temp_path / entry) (destination temp_path entry target_dir) r)).

(** A directory entry as [glob] yields them: one path segment. *)
Definition simple_name (entry : string) : Prop :=
  ("/"%char ∉ list_ascii_of_string entry) ∧ entry ≠ "" ∧ entry ≠ ".".

(** What a sweep does besides making directories and renaming. *)
Definition listing_event (temp_path : path) (ev : event) : Prop :=
  (∃ b, ev = EvExists temp_path b) ∨ (∃ names, ev = EvGlob temp_path "*" names).
End Moves.

(** ** Worlds to run on *)

Module Examples.
(** The configuration of stream 1, with the paths of the defaults. *)
Definition stream1 : StreamConfig :=
  mkStreamConfig 1 "./output/temp/" "/mnt/nas/cam" ".env.stream1".

(** A temp directory with a finished recording, one still in progress and
    a file of another kind. *)
Definition temp_dir : list path :=
  [Path "output/temp/cam1_250131_235901.mp4";
   Path "output/temp/temp_cam1_250131_235901.mp4";
   Path "output/temp/notes.txt"].

Definition recording : Sim.world := Sim.mkWorld temp_dir [] None false false.

(** The same, where the archive is on another file system: [rename] raises
    [OSError]. *)
Definition recording_other_device : Sim.world :=
  Sim.mkWorld temp_dir [] None true false.



(** What [ps] prints: a worker under the screen session, and a shell under
    the worker. *)
Definition ps_lines : string :=
  "  100     1 SCREEN -dmS rtsp_stream1" +:+ String LF
  ("  101   100 ffmpeg -i rtsp://cam1 out.mp4" +:+ String LF
  ("  102   101 sh -c logger" +:+ String LF "")).

Definition worker_with_shell : Sim.world :=
  Sim.mkWorld [] [100; 101; 102]%Z (Some (0%Z, ps_lines)) false false.

(** A machine without [ps]. *)
Definition no_ps : Sim.world := Sim.mkWorld [] [] None false false.

(** The command line of the process-table query. *)
Definition ps_argv : list string :=
  ["ps"; "-e"; "-o"; "pid="; "-o"; "ppid="; "-o"; "args="].
End Examples.

(** ** What a computation yields *)

Module Outcome.

(** From every state, [c] adds some events [evs] to the trace and ends in
    [r], where [Q r evs]. *)
Definition yields {World A : Type} (c : M World A)
    (Q : result A → list event → Prop) : Prop :=
  ∀ w tr, ∃ r w' evs, c (w, tr) = (r, (w', tr ++ evs)) ∧ Q r evs.

(** What [subprocess.run] makes of the answer [out] of the program. *)
Definition run_outcome (check : bool) (out : result (Z * string))
  : result (Z * string) :=
  match out with
  | Return cp =>
      if check && negb (bool_decide (cp.1 = 0%Z))
      then Raise (CalledProcessError cp.1) else Return cp
  | Raise e => Raise e
  end.

(** The event is the run of a program. *)
Definition is_run (ev : event) : Prop := ∃ argv out, ev = EvRun argv out.

(** The event is the run of a program, or a sleep. *)
Definition is_run_or_sleep (ev : event) : Prop :=
  is_run ev ∨ ∃ secs, ev = EvSleep secs.
End Outcome.

(** ** Screen sessions and MediaMTX *)

Module Screen.
(** The command that lists the sessions. *)
Definition listing : list string := ["screen"; "-list"].

(** The command that ends the session [session_name]. *)
Definition quit (session_name : string) : list string :=
  ["screen"; "-S"; session_name; "-X"; "quit"].

(** The session that [argv] ends, if it is a [quit] command. *)
Definition quit_of (argv : list string) : option string :=
  match argv with
  | [_; _; session_name; _; _] =>
      if decide (argv = quit session_name) then Some session_name else None
  | _ => None
  end.

(** The sessions a [quit] command was sent to, in order. *)
Fixpoint quit_sent (evs : list event) : list string :=
  match evs with
  | [] => []
  | EvRun argv _ :: evs' =>
      match quit_of argv with
      | Some session_name => session_name :: quit_sent evs'
      | None => quit_sent evs'
      end
  | _ :: evs' => quit_sent evs'
  end.

(** The sessions whose [quit] command came back with status 0. *)
Fixpoint quitted (evs : list event) : list string :=
  match evs with
  | [] => []
  | EvRun argv (Return (0%Z, _)) :: evs' =>
      match quit_of argv with
      | Some session_name => session_name :: quitted evs'
      | None => quitted evs'
      end
  | _ :: evs' => quitted evs'
  end.

(** The trace ends with a listing that does not mention [session_name]. *)
Definition last_listing_clear (session_name : string) (evs : list event) : Prop :=
  ∃ evs0 cp, evs = evs0 ++ [EvRun listing (Return cp)]
             ∧ str_in session_name cp.2 = false.

(** The names of the stream sessions 1 to [num_streams]. *)
Definition stream_sessions (num_streams : Z) : list string :=
  (λ i, SessionManager.base_session_name +:+ str i) <$> seqZ 1 num_streams.

(** One turn of the loop of [stop_stream_sessions], for the session
    [session_name], from the count [n0]: at most one [quit] is sent, one
    second is slept for a [quit] that came back with status 0, and the
    count goes up by one at most, and only then. *)
Definition session_turn (session_name : string) (n0 : Z) (r : result Z)
    (evs : list event) : Prop :=
  Forall Outcome.is_run_or_sleep evs
  ∧ (quit_sent evs = [] ∨ quit_sent evs = [session_name])
  ∧ (length (quitted evs) ≤ length (quit_sent evs))%nat
  ∧ Trace.sleeps evs = length (quitted evs)
  ∧ match r with
    | Return n => (n0 ≤ n ≤ n0 + Z.of_nat (length (quitted evs)))%Z
    | Raise e => ∀ code, e ≠ CalledProcessError code
    end.
End Screen.

Module Mediamtx.
(** The commands of [stop_mediamtx]. *)
Definition pgrep : list string := ["pgrep"; "-f"; "mediamtx"].
Definition pkill_term : list string := ["pkill"; "-TERM"; "-f"; "mediamtx"].
Definition pkill_kill : list string := ["pkill"; "-9"; "-f"; "mediamtx"].

(** The event is a program that could not be started. *)
Definition not_started (ev : event) : Prop := ∃ argv e, ev = EvRun argv (Raise e).

(** [pgrep] found a process: it came back with status 0. *)
Definition found (ev : option event) : Prop :=
  ∃ stdout, ev = Some (EvRun pgrep (Return (0%Z, stdout))).
End Mediamtx.

(** ** The process table *)

Module Table.
Import ProcessManager.

(** The two maps agree: a PID listed as somebody's child has a command
    line, and a PID with a command line is listed as somebody's child. *)
Definition consistent (maps : gmap Z (list Z) * gmap Z string) : Prop :=
  (∀ ppid pid, pid ∈ get_children maps.1 ppid → is_Some (maps.2 !! pid))
  ∧ (∀ pid, is_Some (maps.2 !! pid) → ∃ ppid, pid ∈ get_children maps.1 ppid).

(** The maps that [_build_process_maps] makes of the answer of [ps]. *)
Definition maps_of (out : result (Z * string)) : gmap Z (list Z) * gmap Z string :=
  match out with
  | Return (0%Z, stdout) =>
      foldl (λ maps line, parse_ps_line line maps) (∅, ∅) (split_on LF stdout)
  | _ => (∅, ∅)
  end.

(** The score of the command line of [pid]. *)
Definition score_of (pid_to_cmd : gmap Z string) (pid : Z) : Z :=
  score_cmdline (default "" (pid_to_cmd !! pid)).

(** [(score, depth)] tuples: [a > b]. *)
Definition outranks (a b : Z * Z) : Prop :=
  (b.1 < a.1)%Z ∨ (a.1 = b.1 ∧ (b.2 < a.2)%Z).

(** The key of a candidate. *)
Definition key (c : candidate) : Z * Z := (c_score c, c_depth c).

(** No candidate of the list outranks the first one. *)
Definition top_first (l : list candidate) : Prop :=
  match l with
  | [] => True
  | c :: _ => ∀ c', c' ∈ l → ¬ outranks (key c') (key c)
  end.

(** The line of the listing is that of a stream session with its status. *)
Definition names_stream (line : string) : bool :=
  str_in "rtsp_stream" line && (str_in "Detached" line || str_in "Attached" line).

(** The lines of stream sessions in the answer of [screen -list]. *)
Definition stream_lines (out : result (Z * string)) : list string :=
  match out with
  | Return (0%Z, stdout) => List.filter names_stream (split_on LF stdout)
  | _ => []
  end.

(** The event is a run of [ps]. *)
Definition is_ps (ev : event) : Prop := ∃ out, ev = EvRun Examples.ps_argv out.

(** The command of [get_screen_child_pid]. *)
Definition ps_children (screen_pid : Z) : list string :=
  ["ps"; "--ppid"; str screen_pid; "-o"; "pid"; "--no-headers"].

(** The first line of what a program printed, the white space around the
    whole taken off. *)
Definition first_line (stdout : string) : string :=
  default "" (head (split_on LF (strip stdout))).

(** The trace ends with a program that raised [e]. *)
Definition ends_raising (e : exn) (evs : list event) : Prop :=
  ∃ evs0 argv, evs = evs0 ++ [EvRun argv (Raise e)].
End Table.

Local Close Scope string_scope.

(** ** Depths of the traversal *)

Module Distance.
Import ProcessManager Tree.

(** The depth on record for [v]: 0 for the root, the entry of the depth
    map for another PID. *)
Definition has_depth (root : Z) (st : depth_state) (v : Z) (d : Z) : Prop :=
  (v = root ∧ d = 0%Z) ∨ (v, d) ∈ depth_map st.

(** What holds of the loop variables of [_collect_descendants_with_depth]
    besides [bfs_inv], with [frontier] the PIDs still to be gone through,
    the current one first: the depths of the frontier are those of one
    level, then those of the next; no depth on record is beyond the next
    level; and a child of a PID that has been gone through is on record
    no more than one level below it. *)
Record dist_inv (m : gmap Z (list Z)) (root : Z) (frontier : list (Z * Z))
    (st : depth_state) : Prop := {
  k_seen : ∀ v, v ∈ seen st ↔ v = root ∨ v ∈ (depth_map st).*1;
  k_nodup : NoDup (depth_map st).*1;
  k_root : root ∉ (depth_map st).*1;
  d_levels : ∃ (lo : Z) (a b : nat),
      (0 ≤ lo)%Z
      ∧ frontier.*2 = replicate a lo ++ replicate b (lo + 1)%Z
      ∧ (∀ v k, (v, k) ∈ depth_map st → (k ≤ lo + 1)%Z)
      ∧ (frontier ≠ [] → 0 < a);
  d_frontier : ∀ u d, (u, d) ∈ frontier → has_depth root st u d;
  d_done : ∀ u du, has_depth root st u du → u ∉ frontier.*1 →
           ∀ c, c ∈ get_children m u →
                ∃ dc, has_depth root st c dc ∧ (dc ≤ du + 1)%Z
}.

(** The loop variables of the two traversals hold the same PIDs. *)
Definition agree (p : plain_state) (d : depth_state) : Prop :=
  descendants p = (depth_map d).*1
  ∧ p_queue p = (queue d).*1
  ∧ p_seen p = seen d
  ∧ ∀ k, k ∈ (depth_map d).*1 → k ∈ seen d.
End Distance.

Local Open Scope string_scope.
Local Open Scope list_scope.

(** ** Environment files *)

Module Env.
(** The string carries no white space at either end. *)
Definition trimmed (s : string) : Prop := strip s = s.

(** The line assigns to [key]: it starts with [key=]. *)
Definition assigns (key line : string) : bool := String.prefix (key +:+ "=") line.

(** The name of the environment file of a stream. *)
Definition env_name (stream_id : Z) : string := ".env.stream" +:+ str stream_id.

(** An environment file that sets both paths, after a comment. *)
Definition env_stream1 : Sim.shelf :=
  [("profiles/sim/.env.stream1",
    ["# stream 1" +:+ String LF "";
     "TEMP_OUTPUT_PATH= /data/temp " +:+ String LF "";
     "FINAL_OUTPUT_PATH=/mnt/archive" +:+ String LF "";
     "TEMP_OUTPUT_PATH=/elsewhere" +:+ String LF ""])].
End Env.

(** ** Finishing the recordings *)

Module Settle.
(** The answers of the size samples, in order. *)
Fixpoint sizes (evs : list event) : list (result Z) :=
  match evs with
  | [] => []
  | EvGetsize _ r :: evs' => r :: sizes evs'
  | _ :: evs' => sizes evs'
  end.

(** The samples that [is_file_stable] needs to answer [True]: one to record
    the size, and [check_count] equal ones after it, one at least. *)
Definition needed (check_count : Z) : nat := S (Z.to_nat (Z.max 1 check_count)).

(** The last [n] samples of [sizes] all read [size]. *)
Definition settled (n : nat) (size : Z) (sizes : list (result Z)) : Prop :=
  ∃ earlier, sizes = earlier ++ replicate n (Return size).

(** What holds of [prev_size] and [same_count] after the samples [sizes]:
    nothing is on record yet, or the last [same_count + 1] samples read
    [prev_size]. *)
Definition on_record (sizes : list (result Z)) (prev_size same_count : Z) : Prop :=
  (0 ≤ same_count)%Z
  ∧ ((sizes = [] ∧ prev_size = (-1)%Z)
     ∨ settled (S (Z.to_nat same_count)) prev_size sizes).

(** The event only looks at a file, or waits. *)
Definition looks_only (ev : event) : Prop :=
  match ev with
  | EvOsPathExists _ _ | EvGetsize _ _ | EvSleep _ => True
  | _ => False
  end.
End Settle.

Module Finalize.
Import Settle Moves.

(** The command that asks who has the file open. *)
Definition lsof (file_path : path) : list string := ["lsof"; path_str file_path].

(** Where [_process_single_file] sends a file: the same directory, the
    name without its first five characters. *)
Definition finalized (file_path : path) : path :=
  (path_parent file_path / slice_from 5 (path_name file_path))%path.

(** What [_process_single_file] does to [file_path], ending in [r]: it lists
    no directory and sleeps one second 15 times at most; and either it
    renames nothing and does not answer [True], or its last two steps are
    an [lsof] that did not come back with status 0 and the rename to
    [finalized], after four samples that read one same size, and it answers
    [True] exactly when that rename succeeded. *)
Definition single_outcome (file_path : path) (r : result bool) (evs : list event)
  : Prop :=
  listed evs = []
  ∧ (Trace.sleeps evs ≤ 15)%nat
  ∧ ((attempted evs = [] ∧ r ≠ Return true)
     ∨ ∃ before out rn size,
         evs = before ++ [EvRun (lsof file_path) out;
                          EvRename file_path (finalized file_path) rn]
         ∧ attempted before = []
         ∧ (0 ≤ size)%Z ∧ settled 4 size (sizes before)
         ∧ (∀ stdout, out ≠ Return (0%Z, stdout))
         ∧ (r = Return true ↔ rn = Return tt)).
End Finalize.

(** ** What the coordinator keeps to *)

Module Guard.

(** The event moves no file: it neither renames nor makes a directory. *)
Definition moves_nothing (ev : event) : Prop :=
  match ev with
  | EvRename _ _ _ | EvMkdir _ _ => False
  | _ => True
  end.



(** The computation ends, whatever it does. *)
Definition ends {World A : Type} (c : M World A) : Prop :=
  Outcome.yields c (λ _ _, True).
End Guard.

Local Close Scope string_scope.

(** * The traversals of the process tree *)

Section traversal_terminates.
Import ProcessManager Tree.
Variable m : gmap Z (list Z).
Variable root_pid : Z.
Local Abbreviation U := (universe m root_pid).

Lemma get_children_listed p c : c ∈ get_children m p → c ∈ listed_children m.
Proof.
  unfold get_children, listed_children. destruct (m !! p) as [cs|] eqn:E; simpl.
  - intros Hc. apply elem_of_union_list. exists (list_to_set cs). split.
    + apply list_elem_of_fmap. exists (p, cs). split; [done|].
      by apply elem_of_map_to_list.
    + by apply elem_of_list_to_set.
  - intros Hc. by apply elem_of_nil in Hc.
Qed.

Lemma children_in_universe p c : c ∈ get_children m p → c ∈ U.
Proof.
  intros Hc. unfold universe. apply elem_of_union. right.
  by eapply get_children_listed.
Qed.

Lemma size_unseen_step (seen : gset Z) c :
  c ∈ U → c ∉ seen → S (size (U ∖ ({[c]} ∪ seen))) = size (U ∖ seen).
Proof.
  intros HU Hs.
  assert ({[c]} ## U ∖ ({[c]} ∪ seen)) as Hd by set_solver.
  pose proof (size_union (C:=gset Z) _ _ Hd) as Hsz.
  rewrite size_singleton in Hsz.
  assert (U ∖ seen = {[c]} ∪ U ∖ ({[c]} ∪ seen)) as Heq.
  { apply set_eq. intros x.
    rewrite elem_of_union, !elem_of_difference, elem_of_union, elem_of_singleton.
    destruct (decide (x = c)); subst; tauto. }
  rewrite Heq. lia.
Qed.

Lemma plain_for_children_measure cs st :
  (∀ c, c ∈ cs → c ∈ U) → p_seen st ⊆ U →
  p_seen (plain_for_children cs st) ⊆ U ∧
  size (U ∖ p_seen (plain_for_children cs st)) + length (p_queue (plain_for_children cs st))
  = size (U ∖ p_seen st) + length (p_queue st).
Proof.
  revert st. induction cs as [|c cs IH]; intros st Hcs Hseen; simpl; [done|].
  assert (∀ c', c' ∈ cs → c' ∈ U) as Hcs' by (intros; apply Hcs; by right).
  assert (c ∈ U) as Hc by (apply Hcs; by left).
  case_decide as Hin; [by apply IH|].
  destruct (IH {| descendants := descendants st ++ [c]; p_queue := p_queue st ++ [c];
                  p_seen := {[c]} ∪ p_seen st |} Hcs') as [H1 H2]; simpl.
  { set_solver. }
  split; [done|]. rewrite H2. simpl. rewrite length_app. simpl.
  pose proof (size_unseen_step (p_seen st) c Hc Hin). lia.
Qed.

Lemma plain_while_terminates fuel st :
  p_seen st ⊆ U → size (U ∖ p_seen st) + length (p_queue st) ≤ fuel →
  is_Some (plain_while fuel m st).
Proof.
  revert st. induction fuel as [|fuel IH]; intros st Hseen Hm.
  - destruct st as [d q s]; simpl in *. destruct q; simpl in *; [eauto | lia].
  - destruct st as [d q s]; simpl in *. destruct q as [|current q]; [eauto|].
    unfold plain_turn; simpl.
    destruct (plain_for_children_measure (get_children m current)
                {| descendants := d; p_queue := q; p_seen := s |}) as [H1 H2]; simpl.
    { intros c Hc. by eapply children_in_universe. }
    { done. }
    apply IH; [done|]. simpl in *. lia.
Qed.

Lemma for_children_measure depth cs st :
  (∀ c, c ∈ cs → c ∈ U) → seen st ⊆ U →
  seen (for_children depth cs st) ⊆ U ∧
  size (U ∖ seen (for_children depth cs st)) + length (queue (for_children depth cs st))
  = size (U ∖ seen st) + length (queue st).
Proof.
  revert st. induction cs as [|c cs IH]; intros st Hcs Hseen; simpl; [done|].
  assert (∀ c', c' ∈ cs → c' ∈ U) as Hcs' by (intros; apply Hcs; by right).
  assert (c ∈ U) as Hc by (apply Hcs; by left).
  case_decide as Hin; [by apply IH|].
  destruct (IH {| depth_map := dict_set c (depth + 1)%Z (depth_map st);
                  queue := queue st ++ [(c, (depth + 1)%Z)];
                  seen := {[c]} ∪ seen st |} Hcs') as [H1 H2]; simpl.
  { set_solver. }
  split; [done|]. rewrite H2. simpl. rewrite length_app. simpl.
  pose proof (size_unseen_step (seen st) c Hc Hin). lia.
Qed.

Lemma while_queue_terminates fuel st :
  seen st ⊆ U → size (U ∖ seen st) + length (queue st) ≤ fuel →
  is_Some (while_queue fuel m st).
Proof.
  revert st. induction fuel as [|fuel IH]; intros st Hseen Hm.
  - destruct st as [d q s]; simpl in *. destruct q; simpl in *; [eauto | lia].
  - destruct st as [d q s]; simpl in *. destruct q as [|[current depth] q]; [eauto|].
    unfold turn; simpl.
    destruct (for_children_measure depth (get_children m current)
                {| depth_map := d; queue := q; seen := s |}) as [H1 H2]; simpl.
    { intros c Hc. by eapply children_in_universe. }
    { done. }
    apply IH; [done|]. simpl in *. lia.
Qed.

Lemma initial_measure : size (U ∖ {[root_pid]}) + 1 ≤ turns m.
Proof.
  unfold turns, universe.
  assert (size (({[root_pid]} ∪ listed_children m) ∖ {[root_pid]})
          ≤ size (listed_children m)); [|lia].
  apply subseteq_size. set_solver.
Qed.

Lemma plain_while_more_fuel fuel fuel' st st' :
  plain_while fuel m st = Some st' → fuel ≤ fuel' → plain_while fuel' m st = Some st'.
Proof.
  revert fuel' st. induction fuel as [|fuel IH]; intros fuel' st Hrun Hle.
  - destruct fuel'; simpl in *; destruct (p_queue st); done.
  - destruct fuel' as [|fuel']; [lia|]. simpl in *.
    destruct (p_queue st); [done|]. apply IH; [done|lia].
Qed.

Lemma while_queue_more_fuel fuel fuel' st st' :
  while_queue fuel m st = Some st' → fuel ≤ fuel' → while_queue fuel' m st = Some st'.
Proof.
  revert fuel' st. induction fuel as [|fuel IH]; intros fuel' st Hrun Hle.
  - destruct fuel'; simpl in *; destruct (queue st); done.
  - destruct fuel' as [|fuel']; [lia|]. simpl in *.
    destruct (queue st); [done|]. apply IH; [done|lia].
Qed.

Lemma while_queue_empties fuel st st' :
  while_queue fuel m st = Some st' → queue st' = [].
Proof.
  revert st. induction fuel as [|fuel IH]; intros st; simpl.
  - destruct (queue st) eqn:E; [|done]. by intros [= <-].
  - destruct (queue st) eqn:E; [by intros [= <-]|]. apply IH.
Qed.
End traversal_terminates.

Section dict.
Import ProcessManager.
Context {V : Type}.
Implicit Types (d : list (Z * V)).

Lemma dict_set_fresh k v d : k ∉ d.*1 → dict_set k v d = d ++ [(k, v)].
Proof.
  induction d as [|[k' v'] d IH]; simpl; [done|].
  intros Hk. apply not_elem_of_cons in Hk as [Hne Hk].
  case_decide; [done|]. by rewrite IH.
Qed.

Lemma dict_get_elem k v d : NoDup d.*1 → (k, v) ∈ d → dict_get k d = Some v.
Proof.
  induction d as [|[k' v'] d IH]; simpl; intros Hnd Hin.
  - by apply elem_of_nil in Hin.
  - apply NoDup_cons in Hnd as [Hk' Hnd].
    apply elem_of_cons in Hin as [[= <- <-]|Hin].
    + by case_decide.
    + case_decide as Heq; [|by apply IH]. subst k'.
      exfalso. apply Hk'. apply list_elem_of_fmap. by exists (k, v).
Qed.

Lemma dict_get_Some k v d : dict_get k d = Some v → (k, v) ∈ d.
Proof.
  induction d as [|[k' v'] d IH]; simpl; [done|].
  case_decide as Heq.
  - intros [= ->]. subst. by left.
  - intros Hg. right. by apply IH.
Qed.
End dict.

Section traversal_correct.
Import ProcessManager Tree.
Variable m : gmap Z (list Z).
Variable root : Z.

Lemma bfs_inv_enqueue u n c st :
  walk m root u n → c ∈ get_children m u → c ∉ seen st →
  bfs_inv m root (Some u) st →
  bfs_inv m root (Some u)
    {| depth_map := dict_set c (Z.of_nat n + 1)%Z (depth_map st);
       queue := queue st ++ [(c, (Z.of_nat n + 1)%Z)];
       seen := {[c]} ∪ seen st |}.
Proof.
  intros Hw Hc Hfresh [Hroot Hseen Hrk Hnd Hmap Hq Hcl].
  assert (c ∉ (depth_map st).*1) as Hkey.
  { intros Hk. apply Hfresh, Hseen. by right. }
  assert (c ≠ root) as Hne by (intros ->; done).
  assert ((Z.of_nat n + 1)%Z = Z.of_nat (S n)) as Hd by lia.
  rewrite (dict_set_fresh _ _ _ Hkey).
  split; simpl.
  - apply elem_of_union. by right.
  - intros v. rewrite elem_of_union, elem_of_singleton, fmap_app, elem_of_app.
    simpl. rewrite list_elem_of_singleton. specialize (Hseen v). tauto.
  - rewrite fmap_app, elem_of_app. simpl. rewrite list_elem_of_singleton.
    intros [?|?]; [done|]. by apply Hne.
  - rewrite fmap_app. apply NoDup_app. split; [done|]. split.
    + intros x Hx Hx'. apply list_elem_of_singleton in Hx'. by subst.
    + apply NoDup_singleton.
  - intros v k Hin. apply elem_of_app in Hin as [Hin|Hin]; [by apply Hmap|].
    apply list_elem_of_singleton in Hin as [= -> ->].
    exists n. split; [done|]. by eapply walk_down.
  - intros v k Hin. apply elem_of_app in Hin as [Hin|Hin]; [by apply Hq|].
    apply list_elem_of_singleton in Hin as [= -> ->].
    exists (S n). split; [done|]. by eapply walk_down.
  - intros x Hx. rewrite fmap_app, elem_of_app. simpl.
    apply elem_of_union in Hx as [Hx|Hx].
    + apply elem_of_singleton in Hx as ->. right. left. right. by left.
    + destruct (Hcl x Hx) as [?|[?|Hch]]; [by left | right; left; by left |].
      right. right. intros c' Hc'. apply elem_of_union. right. by apply Hch.
Qed.

Lemma for_children_inv u n cs st :
  walk m root u n → (∀ c, c ∈ cs → c ∈ get_children m u) →
  bfs_inv m root (Some u) st →
  bfs_inv m root (Some u) (for_children (Z.of_nat n) cs st)
  ∧ seen st ⊆ seen (for_children (Z.of_nat n) cs st)
  ∧ ∀ c, c ∈ cs → c ∈ seen (for_children (Z.of_nat n) cs st).
Proof.
  intros Hw. revert st. induction cs as [|c cs IH]; intros st Hcs Hinv; simpl.
  - split; [done|]. split; [done|]. intros c Hc. by apply elem_of_nil in Hc.
  - assert (∀ c', c' ∈ cs → c' ∈ get_children m u) as Hcs'
      by (intros; apply Hcs; by right).
    assert (c ∈ get_children m u) as Hc by (apply Hcs; by left).
    case_decide as Hin.
    + destruct (IH st Hcs' Hinv) as (H1 & H2 & H3).
      split; [done|]. split; [done|].
      intros c' Hc'. apply elem_of_cons in Hc' as [->|Hc']; [by apply H2 | by apply H3].
    + pose proof (bfs_inv_enqueue u n c st Hw Hc Hin Hinv) as Hinv'.
      destruct (IH _ Hcs' Hinv') as (H1 & H2 & H3). simpl in H2.
      split; [done|]. split.
      * intros x Hx. apply H2. apply elem_of_union. by right.
      * intros c' Hc'. apply elem_of_cons in Hc' as [->|Hc']; [|by apply H3].
        apply H2. apply elem_of_union. left. by apply elem_of_singleton.
Qed.

Lemma turn_inv st :
  queue st ≠ [] → bfs_inv m root None st → bfs_inv m root None (turn m st).
Proof.
  intros Hne Hinv. unfold turn.
  destruct (queue st) as [|[u d] q] eqn:Eq; [done|].
  destruct Hinv as [Hroot Hseen Hrk Hnd Hmap Hq Hcl].
  destruct (Hq u d) as (n & -> & Hw); [rewrite Eq; by left|].
  destruct (for_children_inv u n (get_children m u)
              {| depth_map := depth_map st; queue := q; seen := seen st |} Hw)
    as (Hinv' & _ & Hall); [done| |].
  { split; simpl; try done.
    - intros v k Hin. apply Hq. rewrite Eq. by right.
    - intros x Hx. destruct (Hcl x Hx) as [?|[Hin|?]]; [done| |by right; right].
      rewrite Eq in Hin. simpl in Hin.
      apply elem_of_cons in Hin as [->|Hin]; [by left | right; by left]. }
  destruct Hinv' as [Hroot' Hseen' Hrk' Hnd' Hmap' Hq' Hcl'].
  split; try done.
  intros x Hx. destruct (Hcl' x Hx) as [[= ->]|[?|?]].
  - right. right. done.
  - right. by left.
  - right. by right.
Qed.

Lemma while_queue_inv fuel st st' :
  while_queue fuel m st = Some st' → bfs_inv m root None st → bfs_inv m root None st'.
Proof.
  revert st. induction fuel as [|fuel IH]; intros st; simpl.
  - destruct (queue st); [|done]. by intros [= <-].
  - destruct (queue st) eqn:Eq; [by intros [= <-]|].
    intros Hrun Hinv. apply (IH _ Hrun). apply turn_inv; [|done]. by rewrite Eq.
Qed.

Lemma initial_inv :
  bfs_inv m root None {| depth_map := []; queue := [(root, 0%Z)]; seen := {[root]} |}.
Proof.
  split; simpl.
  - by apply elem_of_singleton.
  - intros v. rewrite elem_of_singleton. split; [by left|].
    intros [?|Hn]; [done|]. by apply elem_of_nil in Hn.
  - apply not_elem_of_nil.
  - apply NoDup_nil_2.
  - intros v k Hin. by apply elem_of_nil in Hin.
  - intros u d Hin. apply list_elem_of_singleton in Hin as [= -> ->].
    exists 0. split; [done|]. constructor.
  - intros u Hu. right. left. apply elem_of_singleton in Hu as ->. by left.
Qed.

Lemma closed_reaches (s : gset Z) :
  root ∈ s → (∀ u, u ∈ s → ∀ c, c ∈ get_children m u → c ∈ s) →
  ∀ v n, walk m root v n → v ∈ s.
Proof.
  intros Hroot Hcl v n Hw. induction Hw as [|v c n Hw IH Hc]; [done|].
  by eapply Hcl.
Qed.

Lemma walk_length_unique :
  tree_shaped m → ∀ v n1 n2, walk m root v n1 → walk m root v n2 → n1 = n2.
Proof.
  intros [Hpar Hcyc] v n1 n2 Hw1. revert n2.
  induction Hw1 as [|v c n Hw1 IH Hc]; intros n2 Hw2.
  - symmetry. by eapply Hcyc.
  - inversion Hw2 as [|v' c' n' Hw2' Hc']; subst.
    + assert (walk m c c (S n)) as Hloop by (by eapply walk_down).
      by apply Hcyc in Hloop.
    + assert (v = v') as <- by (by eapply Hpar).
      f_equal. by apply IH.
Qed.

(** The traversal on any children map: it ends, its keys are the PIDs
    reachable from the root other than the root, none twice, and the value
    of a key is the length of some walk from the root to it. *)
Lemma collect_descendants_with_depth_spec :
  ∃ dm, _collect_descendants_with_depth root m = Some dm
        ∧ NoDup dm.*1
        ∧ (∀ v, v ∈ dm.*1 ↔ v ≠ root ∧ ∃ n, walk m root v n)
        ∧ (∀ v k, (v, k) ∈ dm → ∃ n, k = Z.of_nat (S n) ∧ walk m root v (S n)).
Proof.
  unfold _collect_descendants_with_depth.
  destruct (while_queue_terminates m root (turns m)
              {| depth_map := []; queue := [(root, 0%Z)]; seen := {[root]} |})
    as [st Hrun].
  { simpl. unfold universe. apply elem_of_subseteq. intros x Hx.
    apply elem_of_union. by left. }
  { simpl. pose proof (initial_measure m root). lia. }
  rewrite Hrun. simpl. exists (depth_map st). split; [done|].
  pose proof (while_queue_inv _ _ _ Hrun initial_inv)
    as [Hroot Hseen Hrk Hnd Hmap Hq Hcl].
  pose proof (while_queue_empties _ _ _ _ Hrun) as Hempty.
  split; [done|]. split; [|done].
  intros v. split.
  - intros Hv. split; [by intros ->|].
    apply list_elem_of_fmap in Hv as [[v' k] [-> Hin]].
    destruct (Hmap _ _ Hin) as (n & _ & Hw). by exists (S n).
  - intros [Hne [n Hw]].
    assert (v ∈ seen st) as Hv.
    { eapply closed_reaches; [done| |done].
      intros u Hu. destruct (Hcl u Hu) as [?|[Hin|?]]; [done| |done].
      rewrite Hempty in Hin. by apply elem_of_nil in Hin. }
    apply Hseen in Hv as [?|?]; done.
Qed.
End traversal_correct.

Section plain_traversal.
Import ProcessManager Tree.
Variable m : gmap Z (list Z).
Variable root : Z.

Lemma plain_for_children_inv cs st :
  plain_inv root st → plain_inv root (plain_for_children cs st).
Proof.
  revert st. induction cs as [|c cs IH]; intros st (Hnd & Hroot & Hnr & Hsub);
    simpl; [done|].
  case_decide as Hin; [by apply IH|]. apply IH. repeat split; simpl.
  - apply NoDup_app. split; [done|]. split; [|apply NoDup_singleton].
    intros x Hx Hx'. apply list_elem_of_singleton in Hx' as ->. by apply Hin, Hsub.
  - apply elem_of_union. by right.
  - intros Hx. apply elem_of_app in Hx as [Hx|Hx]; [done|].
    apply list_elem_of_singleton in Hx as ->. done.
  - intros x Hx. apply elem_of_union. apply elem_of_app in Hx as [Hx|Hx].
    + right. by apply Hsub.
    + left. apply list_elem_of_singleton in Hx as ->. by apply elem_of_singleton.
Qed.

Lemma plain_while_inv fuel st st' :
  plain_while fuel m st = Some st' → plain_inv root st → plain_inv root st'.
Proof.
  revert st. induction fuel as [|fuel IH]; intros st; simpl.
  - destruct (p_queue st); [|done]. by intros [= <-].
  - destruct (p_queue st) as [|current q] eqn:Eq; [by intros [= <-]|].
    intros Hrun Hinv. apply (IH _ Hrun). unfold plain_turn. rewrite Eq.
    apply plain_for_children_inv. destruct Hinv as (?&?&?&?). by repeat split.
Qed.

Lemma collect_descendants_spec :
  ∃ ds, _collect_descendants root m = Some ds ∧ NoDup ds ∧ root ∉ ds.
Proof.
  unfold _collect_descendants.
  destruct (plain_while_terminates m root (turns m)
              {| descendants := []; p_queue := [root]; p_seen := {[root]} |})
    as [st Hrun].
  { simpl. unfold universe. apply elem_of_subseteq. intros x Hx.
    apply elem_of_union. by left. }
  { simpl. pose proof (initial_measure m root). lia. }
  rewrite Hrun. simpl. exists (descendants st). split; [done|].
  assert (plain_inv root st) as (Hnd & _ & Hnr & _); [|done].
  eapply plain_while_inv; [done|]. repeat split; simpl.
  - apply NoDup_nil_2.
  - by apply elem_of_singleton.
  - apply not_elem_of_nil.
  - intros x Hx. by apply elem_of_nil in Hx.
Qed.
End plain_traversal.

Section forests.
Import ProcessManager Tree.
Variable m : gmap Z (list Z).

Lemma get_children_listing p c :
  c ∈ get_children m p → ∃ cs, (p, cs) ∈ map_to_list m ∧ c ∈ cs.
Proof.
  unfold get_children. destruct (m !! p) as [cs|] eqn:E; simpl.
  - intros Hc. exists cs. split; [|done]. by apply elem_of_map_to_list.
  - intros Hc. by apply elem_of_nil in Hc.
Qed.

Lemma walk_upwards :
  (∀ p c, c ∈ get_children m p → (p < c)%Z) →
  ∀ u v n, walk m u v n → (u ≤ v)%Z ∧ (0 < n → (u < v)%Z).
Proof.
  intros Hup u v n Hw. induction Hw as [|v c n Hw [IH1 IH2] Hc].
  - split; lia.
  - apply Hup in Hc. split; [lia|]. intros _. lia.
Qed.

Lemma is_forest_tree_shaped : is_forest m = true → tree_shaped m.
Proof.
  unfold is_forest. rewrite forallb_forall. intros Hall.
  assert (∀ p c, c ∈ get_children m p → (p < c)%Z) as Hup.
  { intros p c Hc. apply get_children_listing in Hc as (cs & Hin & Hc).
    apply list_elem_of_In, Hall in Hin. apply andb_true_iff in Hin as [Hlt _].
    rewrite forallb_forall in Hlt. apply Z.ltb_lt, Hlt. by apply list_elem_of_In. }
  split.
  - intros p1 p2 c Hc1 Hc2.
    apply get_children_listing in Hc1 as (cs1 & Hin1 & Hc1).
    apply get_children_listing in Hc2 as (cs2 & Hin2 & Hc2).
    apply list_elem_of_In, Hall in Hin1. apply andb_true_iff in Hin1 as [_ Hone].
    rewrite forallb_forall in Hone. apply list_elem_of_In, Hone in Hin2.
    rewrite forallb_forall in Hin2. apply list_elem_of_In, Hin2 in Hc1.
    apply orb_true_iff in Hc1 as [Hc1|Hc1].
    + rewrite negb_true_iff, bool_decide_eq_false in Hc1. exfalso. exact (Hc1 Hc2).
    + by apply bool_decide_eq_true in Hc1.
  - intros v n Hw. destruct (walk_upwards Hup _ _ _ Hw) as [_ Hlt].
    destruct n; [done|]. assert (v < v)%Z by (apply Hlt; lia). lia.
Qed.
End forests.

Section traversal_claims.
Import ProcessManager Tree.

(** C5: on a cycle-free, tree-shaped children map the traversal returns a
  map whose keys are exactly the PIDs reachable from the root other than
  the root, each once, and whose value at a PID is the number of edges
  from the root to it. *)
Theorem C5_descendants_with_depth_of_tree
  (ppid_to_children : gmap Z (list Z)) (root_pid : Z) :
tree_shaped ppid_to_children →
∃ depth_map,
  _collect_descendants_with_depth root_pid ppid_to_children = Some depth_map
  ∧ NoDup depth_map.*1
  ∧ (∀ pid, pid ∈ depth_map.*1
            ↔ pid ≠ root_pid ∧ ∃ n, walk ppid_to_children root_pid pid n)
  ∧ (∀ pid k, dict_get pid depth_map = Some k
              ↔ pid ≠ root_pid
                ∧ ∃ n, k = Z.of_nat n ∧ walk ppid_to_children root_pid pid n).
Proof.
intros Htree.
destruct (collect_descendants_with_depth_spec ppid_to_children root_pid)
  as (dm & Hrun & Hnd & Hkeys & Hvals).
exists dm. split; [done|]. split; [done|]. split; [done|].
intros pid k. split.
- intros Hget. apply dict_get_Some in Hget.
  destruct (Hvals _ _ Hget) as (n & -> & Hw).
  split; [|by exists (S n)].
  assert (pid ∈ dm.*1) as Hk by (apply list_elem_of_fmap; by exists (pid, Z.of_nat (S n))).
  by apply Hkeys in Hk as [? _].
- intros (Hne & n & -> & Hw).
  assert (pid ∈ dm.*1) as Hk by (apply Hkeys; eauto).
  apply list_elem_of_fmap in Hk as [[pid' k] [Heq Hin]]. simpl in Heq. subst pid'.
  destruct (Hvals _ _ Hin) as (n' & -> & Hw').
  rewrite (walk_length_unique _ _ Htree _ _ _ Hw Hw').
  by apply dict_get_elem.
Qed.

Lemma C5_descendants_with_depth_of_tree_witness :
∃ depth_map,
  _collect_descendants_with_depth 100 small_tree = Some depth_map
  ∧ NoDup depth_map.*1
  ∧ (∀ pid, pid ∈ depth_map.*1 ↔ pid ≠ 100%Z ∧ ∃ n, walk small_tree 100 pid n)
  ∧ (∀ pid k, dict_get pid depth_map = Some k
              ↔ pid ≠ 100%Z ∧ ∃ n, k = Z.of_nat n ∧ walk small_tree 100 pid n).
Proof.
apply (C5_descendants_with_depth_of_tree small_tree 100).
apply is_forest_tree_shaped. vm_compute. reflexivity.
Defined.

(** C8: on every children map, cyclic or with repeated entries, both
  traversals leave their loop: within [turns] turns, with the same result
  however many more turns are allowed, and no PID enters the result (or
  the queue) twice. *)
Theorem C8_traversals_terminate (ppid_to_children : gmap Z (list Z)) (root_pid : Z) :
(∃ depth_map,
   _collect_descendants_with_depth root_pid ppid_to_children = Some depth_map
   ∧ NoDup depth_map.*1 ∧ (root_pid ∉ depth_map.*1)
   ∧ ∀ fuel, turns ppid_to_children ≤ fuel →
       ProcessManager.depth_map <$>
         while_queue fuel ppid_to_children
           {| ProcessManager.depth_map := []; queue := [(root_pid, 0%Z)];
              seen := {[root_pid]} |} = Some depth_map)
∧ (∃ descendants,
     _collect_descendants root_pid ppid_to_children = Some descendants
     ∧ NoDup descendants ∧ (root_pid ∉ descendants)
     ∧ ∀ fuel, turns ppid_to_children ≤ fuel →
         ProcessManager.descendants <$>
           plain_while fuel ppid_to_children
             {| ProcessManager.descendants := []; p_queue := [root_pid];
                p_seen := {[root_pid]} |} = Some descendants).
Proof.
split.
- destruct (collect_descendants_with_depth_spec ppid_to_children root_pid)
    as (dm & Hrun & Hnd & Hkeys & _).
  exists dm. split; [done|]. split; [done|]. split.
  + intros Hin. by apply Hkeys in Hin as [? _].
  + intros fuel Hfuel. unfold _collect_descendants_with_depth in Hrun.
    destruct (while_queue _ _ _) as [st|] eqn:E in Hrun; [|done].
    by rewrite (while_queue_more_fuel _ _ _ _ _ E Hfuel).
- destruct (collect_descendants_spec ppid_to_children root_pid)
    as (ds & Hrun & Hnd & Hnr).
  exists ds. split; [done|]. split; [done|]. split; [done|].
  intros fuel Hfuel. unfold _collect_descendants in Hrun.
  destruct (plain_while _ _ _) as [st|] eqn:E in Hrun; [|done].
  by rewrite (plain_while_more_fuel _ _ _ _ _ E Hfuel).
Qed.
End traversal_claims.

(** * Stopping processes *)

Section kill.
Import ProcessManager Trace.
Context {World : Type} `{OS World}.

Lemma answering_cons_return pid pids outs :
  answering (pid :: pids) (Return tt :: outs) = pid :: answering pids outs.
Proof. unfold answering. cbn [zip zip_with]. by rewrite filter_cons_True. Qed.

Lemma answering_cons_raise pid pids e outs :
  answering (pid :: pids) (Raise e :: outs) = answering pids outs.
Proof. unfold answering. cbn [zip zip_with]. by rewrite filter_cons_False. Qed.

Lemma kill_events_cons sig pid pids out outs :
  kill_events sig (pid :: pids) (out :: outs)
  = EvKill pid sig out :: kill_events sig pids outs.
Proof. reflexivity. Qed.

Lemma signal_all_trace sig pids w tr :
  ∃ outs w', length outs = length pids
    ∧ signal_all sig pids (w, tr) = (Return tt, (w', tr ++ kill_events sig pids outs)).
Proof.
  revert w tr. induction pids as [|pid pids IH]; intros w tr; simpl.
  - exists [], w. by rewrite app_nil_r.
  - unfold bind, try_except, kill, call at 1.
    destruct (os_kill pid sig w) as [out w1] eqn:E.
    destruct (IH w1 (tr ++ [EvKill pid sig out])) as (outs & w' & Hlen & Hrun).
    exists (out :: outs), w'. split; [simpl; lia|].
    unfold kill_events in *. simpl. rewrite <- app_assoc in Hrun. simpl in Hrun.
    destruct out; simpl; exact Hrun.
Qed.

Lemma probe_all_trace pids running w tr :
  ∃ outs w', length outs = length pids
    ∧ probe_all pids running (w, tr)
      = (Return (running ++ answering pids outs), (w', tr ++ kill_events 0 pids outs)).
Proof.
  revert running w tr. induction pids as [|pid pids IH]; intros running w tr; simpl.
  - exists [], w. by rewrite !app_nil_r.
  - unfold bind at 1, try_except, bind, kill, call.
    destruct (os_kill pid 0 w) as [out w1] eqn:E.
    destruct out as [[]|e]; simpl.
    + destruct (IH (running ++ [pid]) w1 (tr ++ [EvKill pid 0 (Return tt)]))
        as (outs & w' & Hlen & Hrun).
      exists (Return tt :: outs), w'. split; [simpl; lia|].
      rewrite Hrun, answering_cons_return, ?kill_events_cons.
      by rewrite <- !app_assoc.
    + destruct (IH running w1 (tr ++ [EvKill pid 0 (Raise e)]))
        as (outs & w' & Hlen & Hrun).
      exists (Raise e :: outs), w'. split; [simpl; lia|].
      rewrite Hrun, answering_cons_raise, ?kill_events_cons.
      by rewrite <- !app_assoc.
Qed.

Lemma kill_events_probe pids pids' outs :
  pids' ⊆ pids → Forall (grace_event pids) (kill_events 0 pids' outs).
Proof.
  revert outs. induction pids' as [|pid pids' IH]; intros [|out outs] Hsub;
    try by constructor.
  rewrite kill_events_cons. constructor.
  - right. exists pid, out. split; [|done]. apply Hsub. by left.
  - apply IH. intros x Hx. apply Hsub. by right.
Qed.

Lemma sleeps_app evs1 evs2 : sleeps (evs1 ++ evs2) = sleeps evs1 + sleeps evs2.
Proof. unfold sleeps. by rewrite filter_app, length_app. Qed.

Lemma sleeps_kill_events sig pids outs : sleeps (kill_events sig pids outs) = 0.
Proof.
  revert outs. induction pids as [|pid pids IH]; intros [|out outs]; try done.
  rewrite kill_events_cons. unfold sleeps in *.
  rewrite filter_cons_False by done. apply IH.
Qed.

Lemma grace_wait_trace secs pids w tr :
  ∃ evs w', grace_wait secs pids (w, tr) = (Return tt, (w', tr ++ evs))
            ∧ Forall (grace_event pids) evs ∧ sleeps evs ≤ secs.
Proof.
  revert w tr. induction secs as [|secs IH]; intros w tr; simpl.
  - exists [], w. rewrite app_nil_r. split; [done|]. split; [constructor|done].
  - unfold bind at 1.
    destruct (probe_all_trace pids [] w tr) as (outs & w1 & _ & ->). simpl.
    destruct (answering pids outs).
    + exists (kill_events 0 pids outs), w1. split; [done|]. split.
      * by apply kill_events_probe.
      * rewrite sleeps_kill_events. lia.
    + unfold bind, sleep.
      destruct (IH (time_sleep 1 w1) ((tr ++ kill_events 0 pids outs) ++ [EvSleep 1]))
        as (evs & w' & -> & Hall & Hsleeps).
      exists (kill_events 0 pids outs ++ [EvSleep 1] ++ evs), w'.
      split; [by rewrite <- !app_assoc|]. split.
      * apply Forall_app. split; [by apply kill_events_probe|].
        apply Forall_app. split; [|done]. constructor; [by left|constructor].
      * rewrite !sleeps_app, sleeps_kill_events.
        change (sleeps [EvSleep 1]) with 1. lia.
Qed.

Lemma answering_nil pids outs :
  length outs = length pids →
  answering pids outs = [] ↔ Forall (λ out, out ≠ Return tt) outs.
Proof.
  revert outs. induction pids as [|pid pids IH]; intros [|out outs] Hlen;
    simpl in *; try lia.
  - split; [constructor | done].
  - destruct out as [[]|e].
    + rewrite answering_cons_return. split; [done|].
      intros Hall. by apply Forall_cons in Hall as [? _].
    + rewrite answering_cons_raise, IH by lia. split.
      * intros ?. by constructor.
      * intros Hall. by apply Forall_cons in Hall as [_ ?].
Qed.

(** C1: the verdict of [kill_processes_by_pid] is [True] exactly when no
    PID of [pids] answers the last round of signal-0 probes; before that
    round every PID that answered the probe after the grace phase has been
    sent [SIGKILL].  The events of a call are, in this order: [SIGTERM] to
    every PID, the grace phase (probes, and at most [grace_period] sleeps),
    a probe of every PID, [SIGKILL] to those that answered it, and the
    last probe of every PID. *)
Theorem C1_kill_processes_by_pid_verdict (pids : list Z) (grace_period : Z)
    (w : World) (tr : list event) :
  ∃ (verdict : bool) (w' : World) (grace : list event)
    (termed after_grace killed final : list (result unit)),
    kill_processes_by_pid pids grace_period (w, tr)
    = (Return verdict,
       (w', tr ++ kill_events SIGTERM pids termed
               ++ grace
               ++ kill_events 0 pids after_grace
               ++ kill_events SIGKILL (answering pids after_grace) killed
               ++ kill_events 0 pids final))
    ∧ (verdict = true ↔ Forall (λ out, out ≠ Return tt) final)
    ∧ length termed = length pids
    ∧ Forall (grace_event pids) grace ∧ sleeps grace ≤ Z.to_nat grace_period
    ∧ length after_grace = length pids
    ∧ length killed = length (answering pids after_grace)
    ∧ length final = length pids.
Proof.
  destruct pids as [|pid0 pids0] eqn:Epids.
  - exists true, w, [], [], [], [], []. simpl. rewrite app_nil_r.
    repeat split; try done; try constructor. unfold sleeps. simpl. lia.
  - rewrite <- Epids. assert (kill_processes_by_pid pids grace_period =
      (let* _ := signal_all SIGTERM pids in
       let* _ := grace_wait (Z.to_nat grace_period) pids in
       let* remaining_pids := probe_all pids [] in
       let* _ := match remaining_pids with
                 | [] => ret tt
                 | _ :: _ => signal_all SIGKILL remaining_pids
                 end in
       let* final_running := probe_all pids [] in
       ret (bool_decide (length final_running = 0)))) as -> by (by subst pids).
    clear Epids pid0 pids0.
    unfold bind at 1.
    destruct (signal_all_trace SIGTERM pids w tr) as (termed & w0 & Hlen0 & ->).
    unfold bind at 1.
    destruct (grace_wait_trace (Z.to_nat grace_period) pids w0
                (tr ++ kill_events SIGTERM pids termed))
      as (grace & w1 & -> & Hgrace & Hsleeps).
    unfold bind at 1.
    destruct (probe_all_trace pids [] w1 ((tr ++ kill_events SIGTERM pids termed) ++ grace))
      as (after_grace & w2 & Hlen2 & ->).
    assert (∃ killed w3, length killed = length (answering pids after_grace)
              ∧ match answering pids after_grace with
                | [] => ret tt
                | _ :: _ => signal_all SIGKILL (answering pids after_grace)
                end (w2, ((tr ++ kill_events SIGTERM pids termed) ++ grace)
                           ++ kill_events 0 pids after_grace)
                = (Return tt, (w3, (((tr ++ kill_events SIGTERM pids termed) ++ grace)
                           ++ kill_events 0 pids after_grace)
                           ++ kill_events SIGKILL (answering pids after_grace) killed)))
      as (killed & w3 & Hlen3 & Hkill).
    { destruct (answering pids after_grace) as [|p ps] eqn:Ea.
      - exists [], w2. split; [done|]. unfold ret. by rewrite app_nil_r.
      - apply signal_all_trace. }
    change ([] ++ answering pids after_grace) with (answering pids after_grace).
    unfold bind at 1. rewrite Hkill.
    unfold bind at 1.
    destruct (probe_all_trace pids [] w3
                ((((tr ++ kill_events SIGTERM pids termed) ++ grace)
                   ++ kill_events 0 pids after_grace)
                   ++ kill_events SIGKILL (answering pids after_grace) killed))
      as (final & w4 & Hlen4 & ->).
    exists (bool_decide (length (answering pids final) = 0)), w4, grace,
      termed, after_grace, killed, final.
    split; [unfold ret; simpl; by rewrite <- !app_assoc|].
    split; [|done].
    rewrite bool_decide_eq_true, length_zero_iff_nil. by apply answering_nil.
Qed.

(** C9: with no PID to stop, [kill_processes_by_pid] returns [True] at
    once: the world is as before and no call was made, so no signal was
    sent, nothing was probed and nothing was killed. *)
Theorem C9_kill_processes_by_pid_empty (grace_period : Z) (w : World) (tr : list event) :
  kill_processes_by_pid [] grace_period (w, tr) = (Return true, (w, tr)).
Proof. reflexivity. Qed.
End kill.

(** * Size stability *)

Section stable.
Import FileProcessor Samples.
Context {World : Type} `{OS World}.

Lemma samples_app evs1 evs2 : samples (evs1 ++ evs2) = samples evs1 + samples evs2.
Proof. unfold samples. by rewrite List.filter_app, length_app. Qed.

(** The loop on a file whose every sample is 1024 bytes: from the state
    before the first sample, and from a state with the size on record. *)
Lemma stable_loop_constant_size file_path check_count turns_left :
  (1 ≤ check_count)%Z →
  ∀ prev_size same_count w tr r w' tr',
    stable_loop turns_left file_path check_count prev_size same_count (w, tr)
    = (r, (w', tr')) →
    ∃ evs, tr' = tr ++ evs
      ∧ ((∀ r0, EvGetsize file_path r0 ∈ evs → r0 = Return 1024%Z) →
         (prev_size = 1024%Z → (0 ≤ same_count < check_count)%Z →
            r = Return (bool_decide (check_count - same_count ≤ Z.of_nat turns_left)%Z)
            ∧ samples evs = Nat.min (Z.to_nat (check_count - same_count)) turns_left)
         ∧ (prev_size = (-1)%Z → same_count = 0%Z →
            r = Return (bool_decide (check_count + 1 ≤ Z.of_nat turns_left)%Z)
            ∧ samples evs = Nat.min (Z.to_nat (check_count + 1)) turns_left)).
Proof.
  intros Hcc. induction turns_left as [|n IH]; intros prev same w tr r w' tr' Hrun.
  - simpl in Hrun. injection Hrun as <- <- <-. exists []. rewrite app_nil_r.
    split; [done|]. intros _. split.
    + intros _ Hs. rewrite bool_decide_eq_false_2 by lia. split; [done|].
      by rewrite Nat.min_0_r.
    + intros _ _. rewrite bool_decide_eq_false_2 by lia. split; [done|].
      by rewrite Nat.min_0_r.
  - simpl in Hrun. unfold bind at 1, try_except, bind, getsize, call in Hrun.
    destruct (os_path_getsize file_path w) as [r1 w1] eqn:E1.
    destruct r1 as [z|e].
    + (* a size was read *)
      destruct (bool_decide (z = prev) && bool_decide (0 ≤ prev)%Z) eqn:Esame.
      * apply andb_true_iff in Esame as [Hz Hp].
        apply bool_decide_eq_true in Hz, Hp. subst prev.
        destruct (bool_decide (check_count ≤ same + 1)%Z) eqn:Edone; simpl in Hrun.
        -- apply bool_decide_eq_true in Edone.
           injection Hrun as <- <- <-. exists [EvGetsize file_path (Return z)].
           split; [done|]. intros Hobs. split.
           ++ intros -> Hs. rewrite bool_decide_eq_true_2 by lia. split; [done|].
              change (samples _) with 1. lia.
           ++ intros ->. lia.
        -- apply bool_decide_eq_false in Edone. unfold sleep in Hrun.
           destruct (IH _ _ _ _ _ _ _ Hrun) as (evs & -> & Hrest).
           exists ([EvGetsize file_path (Return z); EvSleep 1] ++ evs).
           split; [by rewrite <- !app_assoc|]. intros Hobs. split.
           ++ intros -> Hs.
              destruct Hrest as [Hrest _].
              { intros r0 Hr0. apply Hobs. apply elem_of_app. by right. }
              destruct (Hrest eq_refl) as [-> Hsamples]; [lia|].
              split; [f_equal; apply bool_decide_ext; lia|].
              rewrite samples_app, Hsamples. change (samples _) with 1. lia.
           ++ intros ->. lia.
      * simpl in Hrun. unfold sleep in Hrun.
        destruct (IH _ _ _ _ _ _ _ Hrun) as (evs & -> & Hrest).
        exists ([EvGetsize file_path (Return z); EvSleep 1] ++ evs).
        split; [by rewrite <- !app_assoc|]. intros Hobs.
        assert (z = 1024%Z) as ->.
        { assert (Return z = Return 1024%Z) as [= ->]; [|done].
          apply Hobs. apply elem_of_app. left. by left. }
        destruct Hrest as [Hrest _].
        { intros r0 Hr0. apply Hobs. apply elem_of_app. by right. }
        split.
        -- intros -> Hs. rewrite bool_decide_eq_true_2 in Esame by done.
           rewrite bool_decide_eq_true_2 in Esame by lia. done.
        -- intros -> ->. destruct (Hrest eq_refl) as [-> Hsamples]; [lia|].
           split; [f_equal; apply bool_decide_ext; lia|].
           rewrite samples_app, Hsamples. change (samples _) with 1.
           rewrite Z.sub_0_r. lia.
    + (* the size could not be read *)
      exists [EvGetsize file_path (Raise e)].
      assert (tr' = tr ++ [EvGetsize file_path (Raise e)]) as ->.
      { destruct (is_OSError e); simpl in Hrun; by injection Hrun as <- <- <-. }
      split; [done|]. intros Hobs.
      assert (Raise e = Return 1024%Z) as [=]. apply Hobs. by left.
Qed.

(** C3, as amended: with [check_count = 3], on a file that exists and
    whose size is 1024 bytes at every sample, [is_file_stable] returns
    [True] at the 4th sample (the first one only records the size) and not
    before: allowed fewer than 4 samples, it returns [False]. *)
Theorem C3_is_file_stable_fourth_sample (file_path : string) (max_wait : Z)
    (w w' : World) (tr evs : list event) (r : result bool) :
  is_file_stable file_path 3 max_wait (w, tr) = (r, (w', tr ++ evs)) →
  forallb (shows_size 1024) evs = true →
  r = Return (bool_decide (4 ≤ max_wait)%Z)
  ∧ samples evs = Nat.min 4 (Z.to_nat max_wait).
Proof.
  intros Hrun Hobs. rewrite forallb_forall in Hobs.
  assert (∀ r0, EvGetsize file_path r0 ∈ evs → r0 = Return 1024%Z) as Hsizes.
  { intros r0 Hin. apply list_elem_of_In, Hobs in Hin.
    by apply bool_decide_eq_true in Hin. }
  assert (EvOsPathExists file_path false ∉ evs) as Hpresent.
  { intros Hin. by apply list_elem_of_In, Hobs in Hin. }
  clear Hobs. revert Hrun.
  unfold is_file_stable. unfold bind at 1, exists_, ask.
  destruct (os_path_exists file_path w) as [present w0] eqn:E0.
  intros Hrun. destruct present; simpl in Hrun.
  - destruct (stable_loop_constant_size file_path 3 (Z.to_nat max_wait) ltac:(lia)
                _ _ _ _ _ _ _ Hrun) as (evs' & Heq & Hrest).
    rewrite <- app_assoc in Heq. apply app_inv_head in Heq as ->.
    destruct Hrest as [_ Hrest].
    { intros r0 Hr0. apply Hsizes. apply elem_of_app. by right. }
    destruct (Hrest eq_refl eq_refl) as [-> Hsamples].
    split; [f_equal; apply bool_decide_ext; lia|].
    rewrite samples_app, Hsamples. change (samples _) with 0. simpl. lia.
  - injection Hrun as <- <- Heq. apply app_inv_head in Heq as <-.
    exfalso. apply Hpresent. by left.
Qed.
End stable.

Section stable_sim.
Import FileProcessor Samples.

Lemma C3_is_file_stable_fourth_sample_witness :
  Return true = Return (bool_decide (4 ≤ 15)%Z)
  ∧ samples [EvOsPathExists "cam1.mp4" true;
             EvGetsize "cam1.mp4" (Return 1024%Z); EvSleep 1;
             EvGetsize "cam1.mp4" (Return 1024%Z); EvSleep 1;
             EvGetsize "cam1.mp4" (Return 1024%Z); EvSleep 1;
             EvGetsize "cam1.mp4" (Return 1024%Z)]
    = Nat.min 4 (Z.to_nat 15).
Proof.
  apply (C3_is_file_stable_fourth_sample "cam1.mp4" 15 one_file one_file []).
  - vm_compute. reflexivity.
  - vm_compute. reflexivity.
Defined.

(** C3 as the specification has it (true at the 3rd sample) fails: on a
    file that holds at 1024 bytes, a call allowed 3 samples takes them and
    returns [False]; the default call returns [True] only after 4. *)
Lemma C3_third_sample_counterexample :
  (∀ w' evs, is_file_stable "cam1.mp4" 3 3 (one_file, []) = (Return true, (w', evs))
             → False)
  ∧ (is_file_stable "cam1.mp4" 3 3 (one_file, [])).1 = Return false
  ∧ samples (is_file_stable "cam1.mp4" 3 3 (one_file, [])).2.2 = 3
  ∧ (is_file_stable "cam1.mp4" 3 15 (one_file, [])).1 = Return true
  ∧ samples (is_file_stable "cam1.mp4" 3 15 (one_file, [])).2.2 = 4
  ∧ forallb (shows_size 1024) (is_file_stable "cam1.mp4" 3 15 (one_file, [])).2.2 = true.
Proof.
  split; [|by vm_compute]. intros w' evs Hrun.
  assert ((is_file_stable "cam1.mp4" 3 3 (one_file, [])).1 = Return true) as Hr
    by (by rewrite Hrun).
  vm_compute in Hr. discriminate Hr.
Qed.
End stable_sim.

(** * Removing the temporary environment files *)

Section cleanup.
Import StreamStopManager Files.
Context {World : Type} `{OS World}.

Lemma deleted_app evs1 evs2 : deleted (evs1 ++ evs2) = deleted evs1 ++ deleted evs2.
Proof.
  induction evs1 as [|ev evs1 IH]; [done|]. simpl.
  destruct ev; try done. destruct r; [|done]. simpl. by rewrite IH.
Qed.

Lemma found_app evs1 evs2 : found (evs1 ++ evs2) = found evs1 ++ found evs2.
Proof.
  induction evs1 as [|ev evs1 IH]; [done|]. simpl.
  destruct ev; try done. destruct b; [|done]. simpl. by rewrite IH.
Qed.

Lemma touches_only_mono paths paths' ev :
  paths ⊆ paths' → touches_only paths ev → touches_only paths' ev.
Proof. intros Hsub (p & Hp & Hev). exists p. split; [by apply Hsub | done]. Qed.

Lemma cleaned_cons_skip p paths n0 r evs :
  cleaned paths n0 r evs → cleaned (p :: paths) n0 r (EvExists p false :: evs).
Proof.
  intros (Hall & Hsub & Hr). split; [|split].
  - constructor.
    + exists p. split; [by left|]. eauto.
    + eapply Forall_impl; [done|]. intros ev. apply touches_only_mono.
      intros x Hx. by right.
  - simpl. by apply sublist_cons.
  - destruct r; [done|]. destruct Hr as (q & evs0 & ->).
    by exists q, (EvExists p false :: evs0).
Qed.

Lemma cleaned_cons_unlink p paths n0 r evs :
  cleaned paths (n0 + 1) r evs →
  cleaned (p :: paths) n0 r (EvExists p true :: EvUnlink p (Return tt) :: evs).
Proof.
  intros (Hall & Hsub & Hr). split; [|split].
  - constructor; [|constructor].
    + exists p. split; [by left|]. eauto.
    + exists p. split; [by left|]. eauto.
    + eapply Forall_impl; [done|]. intros ev. apply touches_only_mono.
      intros x Hx. by right.
  - simpl. by apply sublist_skip.
  - destruct r.
    + destruct Hr as [-> Heq]. simpl. split; [lia|]. by rewrite Heq.
    + destruct Hr as (q & evs0 & ->).
      by exists q, (EvExists p true :: EvUnlink p (Return tt) :: evs0).
Qed.

Lemma cleaned_raise p paths n0 e :
  cleaned (p :: paths) n0 (Raise e) [EvExists p true; EvUnlink p (Raise e)].
Proof.
  split; [|split].
  - repeat constructor; exists p; (split; [by left|]); eauto.
  - simpl. apply sublist_nil_l.
  - by exists p, [EvExists p true].
Qed.

Lemma cleanup_temp_loop_trace script_dir indices n0 w tr :
  ∃ r w' evs,
    cleanup_temp_loop script_dir indices n0 (w, tr) = (r, (w', tr ++ evs))
    ∧ cleaned ((λ i, script_dir / (".env.temp" +:+ str i))%path <$> indices) n0 r evs.
Proof.
  revert n0 w tr. induction indices as [|i indices IH]; intros n0 w tr.
  - exists (Return n0), w, []. simpl. rewrite app_nil_r. split; [done|].
    split; [constructor|]. split; [done|]. simpl. split; [lia|done].
  - simpl. unfold bind at 1, p_exists, ask.
    destruct (path_exists _ w) as [present w0] eqn:E0. destruct present.
    + unfold bind at 1, bind at 1, unlink, call.
      destruct (path_unlink _ w0) as [r1 w1] eqn:E1. destruct r1 as [[]|e].
      * simpl.
        destruct (IH (n0 + 1)%Z w1
                    ((tr ++ [EvExists (script_dir / (".env.temp" +:+ str i)) true])
                       ++ [EvUnlink (script_dir / (".env.temp" +:+ str i)) (Return tt)]))
          as (r & w' & evs & -> & Hc).
        eexists r, w', (_ :: _ :: evs). rewrite <- !app_assoc. split; [done|].
        by apply cleaned_cons_unlink.
      * eexists (Raise e), w1, _. rewrite <- !app_assoc. split; [done|].
        apply cleaned_raise.
    + simpl. unfold bind at 1, ret at 1.
      destruct (IH n0 w0 (tr ++ [EvExists (script_dir / (".env.temp" +:+ str i)) false]))
        as (r & w' & evs & -> & Hc).
      eexists r, w', (_ :: evs). rewrite <- !app_assoc. split; [done|].
      by apply cleaned_cons_skip.
Qed.

Lemma cleaned_app paths1 paths2 n0 n1 evs1 r evs2 :
  cleaned paths1 n0 (Return n1) evs1 → cleaned paths2 n1 r evs2 →
  cleaned (paths1 ++ paths2) n0 r (evs1 ++ evs2).
Proof.
  intros (Hall1 & Hsub1 & -> & Heq1) (Hall2 & Hsub2 & Hr). split; [|split].
  - apply Forall_app. split.
    + eapply Forall_impl; [done|]. intros ev. apply touches_only_mono.
      intros x Hx. apply elem_of_app. by left.
    + eapply Forall_impl; [done|]. intros ev. apply touches_only_mono.
      intros x Hx. apply elem_of_app. by right.
  - rewrite deleted_app. by apply sublist_app.
  - destruct r.
    + destruct Hr as [-> Heq2]. rewrite deleted_app, found_app, length_app.
      split; [lia|]. by rewrite Heq1, Heq2.
    + destruct Hr as (q & evs0 & ->). exists q, (evs1 ++ evs0).
      by rewrite <- app_assoc.
Qed.

Lemma cleanup_temp_files_trace script_dir w tr :
  ∃ r w' evs,
    cleanup_temp_files script_dir (w, tr) = (r, (w', tr ++ evs))
    ∧ cleaned (env_files script_dir) 0 r evs.
Proof.
  unfold cleanup_temp_files. unfold bind at 1.
  destruct (cleanup_temp_loop_trace script_dir (seqZ 1 6) 0 w tr)
    as (r1 & w1 & evs1 & -> & Hc1).
  change ((λ i, script_dir / (".env.temp" +:+ str i))%path <$> seqZ 1 6)
    with (take 6 (env_files script_dir)) in Hc1.
  destruct r1 as [n1|e].
  - unfold bind at 1, p_exists, ask.
    destruct (path_exists _ w1) as [present w2] eqn:E2. destruct present.
    + unfold bind at 1, unlink, call.
      destruct (path_unlink _ w2) as [r3 w3] eqn:E3. destruct r3 as [[]|e].
      * eexists (Return (n1 + 1)%Z), w3, (evs1 ++ [_; _]).
        rewrite <- !app_assoc. split; [done|].
        apply (cleaned_app (take 6 (env_files script_dir)) [(script_dir / ".env")%path]
                 0 n1); [done|].
        apply (cleaned_cons_unlink _ [] n1 (Return (n1 + 1)%Z) []).
        split; [constructor|]. split; [done|]. simpl. split; [lia|done].
      * eexists (Raise e), w3, (evs1 ++ [_; _]).
        rewrite <- !app_assoc. split; [done|].
        apply (cleaned_app (take 6 (env_files script_dir)) [(script_dir / ".env")%path]
                 0 n1); [done|].
        apply cleaned_raise.
    + eexists (Return n1), w2, (evs1 ++ [_]).
      rewrite <- !app_assoc. split; [done|].
      apply (cleaned_app (take 6 (env_files script_dir)) [(script_dir / ".env")%path]
               0 n1); [done|].
      apply (cleaned_cons_skip _ [] n1 (Return n1) []).
      split; [constructor|]. split; [done|]. simpl. split; [lia|done].
  - exists (Raise e), w1, evs1. split; [done|].
    destruct Hc1 as (Hall & Hsub & Hr). split; [|split]; [| |done].
    + eapply Forall_impl; [done|]. intros ev. apply touches_only_mono.
      apply subseteq_take.
    + etrans; [done|]. apply sublist_take.
Qed.
End cleanup.

Section summary.
Import StreamStopManager Files.
Context {World : Type} `{OS World}.

Lemma bind_bind {A B C} (c : M World A) (k : A → M World B) (h : B → M World C) s :
  bind (bind c k) h s = bind c (λ a, bind (k a) h) s.
Proof. unfold bind. by destruct (c s) as [[a|e] s1]. Qed.

Lemma ret_bind {A B} (a : A) (k : A → M World B) s : bind (ret a) k s = k a s.
Proof. reflexivity. Qed.

Lemma bind_ext {A B} (c : M World A) (k k' : A → M World B) s :
  (∀ a s1, k a s1 = k' a s1) → bind c k s = bind c k' s.
Proof. intros Hk. unfold bind. destruct (c s) as [[a|e] s1]; [apply Hk|done]. Qed.

(** C10: [cleanup_temp_files] looks at and removes nothing but [.env.temp1]
    to [.env.temp6] and [.env] in the script directory, seven different
    paths, each at most once; when it returns, it has removed every one of
    them that existed and returns their number; and [stop_all_streams] is
    some stages, then [cleanup_temp_files], then some more stages, with the
    number that call returned as the [temp_files_removed] of its summary. *)
Theorem C10_cleanup_temp_files_frame (script_dir : path) :
  NoDup (env_files script_dir)
  ∧ (∀ (w : World) (tr : list event),
       ∃ r w' evs,
         cleanup_temp_files script_dir (w, tr) = (r, (w', tr ++ evs))
         ∧ Forall (touches_only (env_files script_dir)) evs
         ∧ deleted evs `sublist_of` env_files script_dir
         ∧ match r with
           | Return n => n = Z.of_nat (length (deleted evs)) ∧ deleted evs = found evs
           | Raise e => ∃ p evs0, evs = evs0 ++ [EvUnlink p (Raise e)]
           end)
  ∧ (∀ get_running_sessions get_rtsp_stream_pids get_stream_config
       process_temp_files final_sweep_seconds stop_file_mover_session
       stop_mediamtx report_log_files num_streams,
       ∃ before after : M World Z,
         ∀ s,
           stop_all_streams get_running_sessions get_rtsp_stream_pids
             get_stream_config process_temp_files final_sweep_seconds
             stop_file_mover_session stop_mediamtx report_log_files
             script_dir num_streams s
           = (let* stopped_count := before in
              let* removed := cleanup_temp_files script_dir in
              let* remaining := after in
              ret {| stopped_sessions := stopped_count;
                     temp_files_removed := removed;
                     remaining_sessions := remaining |}) s).
Proof.
  split; [|split].
  - unfold env_files, path_div.
    change (Path ".env.temp1") with (mkPath [".env.temp1"%string]).
    change (Path ".env.temp2") with (mkPath [".env.temp2"%string]).
    change (Path ".env.temp3") with (mkPath [".env.temp3"%string]).
    change (Path ".env.temp4") with (mkPath [".env.temp4"%string]).
    change (Path ".env.temp5") with (mkPath [".env.temp5"%string]).
    change (Path ".env.temp6") with (mkPath [".env.temp6"%string]).
    change (Path ".env") with (mkPath [".env"%string]).
    cbn [is_absolute parts String.prefix].
    assert (Inj (=) (=) (λ name : string, mkPath (parts script_dir ++ [name])))
      as Hinj.
    { intros name1 name2 [= Heq]. by apply app_inv_head in Heq as [= ->]. }
    apply (NoDup_fmap_2 (λ name : string, mkPath (parts script_dir ++ [name]))
             [".env.temp1"; ".env.temp2"; ".env.temp3"; ".env.temp4";
              ".env.temp5"; ".env.temp6"; ".env"]%string).
    compute_done.
  - intros w tr.
    destruct (cleanup_temp_files_trace script_dir w tr) as (r & w' & evs & Hrun & Hc).
    exists r, w', evs. split; [done|].
    destruct Hc as (Hall & Hsub & Hr). split; [done|]. split; [done|].
    destruct r; [|done]. destruct Hr as [-> ?]. split; [lia|done].
  - intros sessions pids config process seconds mover mediamtx report n.
    exists (let* _ := sessions in
            let* rtsp_pids := pids in
            let* stopped_count :=
              match rtsp_pids with
              | [] => ret 0%Z
              | _ :: _ =>
                  let* success := ProcessManager.kill_processes_by_pid rtsp_pids 5 in
                  if success then ret (Z.of_nat (length rtsp_pids)) else ret 0%Z
              end in
            let* _ :=
              if bool_decide (0 < stopped_count)%Z then
                let* _ := process_all config process (seqZ 1 n) 0 in
                let* _ := sleep 3 in
                let* final_sweep_max := seconds in
                sweep_passes config (Z.to_nat final_sweep_max) n
              else ret tt in
            ret stopped_count),
           (let* remaining_sessions := sessions in
            let* _ := mover in
            let* _ := mediamtx in
            let* _ :=
              try_except
                (let* _ := subprocess_run
                             ["pkill"; "-TERM"; "-f"; "run_daemon.py"]%string false in
                 ret tt)
                (λ _, Some (ret tt)) in
            let* _ := report n in
            ret (streams remaining_sessions)).
    intros s. unfold stop_all_streams. symmetry.
    rewrite bind_bind. apply bind_ext. intros ? s1.
    rewrite bind_bind. apply bind_ext. intros rtsp_pids s2.
    rewrite bind_bind. apply bind_ext. intros stopped_count s3.
    rewrite bind_bind. apply bind_ext. intros ? s4.
    rewrite ret_bind. apply bind_ext. intros removed s5.
    rewrite bind_bind. apply bind_ext. intros remaining s6.
    rewrite bind_bind. apply bind_ext. intros ? s7.
    rewrite bind_bind. apply bind_ext. intros ? s8.
    rewrite bind_bind. apply bind_ext. intros ? s9.
    rewrite bind_bind. apply bind_ext. intros ? s10.
    by rewrite ret_bind.
Qed.
End summary.

Local Open Scope string_scope.
Local Open Scope list_scope.

(** * Where the sweep sends a file *)

Section routing.
Import FileProcessor Stamp.

Lemma is_digit_cases c :
  is_digit c = true →
  c ∈ ["0"; "1"; "2"; "3"; "4"; "5"; "6"; "7"; "8"; "9"]%char.
Proof.
  destruct c as [[] [] [] [] [] [] [] []]; vm_compute; intros Hd;
    try discriminate Hd; set_solver.
Qed.

Lemma int_two_digits a b :
  is_digit a = true → is_digit b = true →
  int (String a (String b "")) = Some (10 * digit_value a + digit_value b)%Z
  ∧ (0 ≤ 10 * digit_value a + digit_value b ≤ 99)%Z.
Proof.
  intros Ha Hb. apply is_digit_cases in Ha, Hb.
  repeat (apply elem_of_cons in Ha as [->|Ha]);
    try (by apply elem_of_nil in Ha);
    repeat (apply elem_of_cons in Hb as [->|Hb]);
    try (by apply elem_of_nil in Hb);
    (split; [vm_compute; reflexivity | vm_compute; split; discriminate]).
Qed.

Lemma string_length_app s1 s2 :
  String.length (s1 +:+ s2) = String.length s1 + String.length s2.
Proof. induction s1 as [|c s1 IH]; simpl; [done|]. by rewrite IH. Qed.

Lemma pattern_match_stamp s date time ext :
  pattern_match s = Some (date, time, ext) →
  ∃ tail, s = "_" +:+ date +:+ "_" +:+ time +:+ "." +:+ ext +:+ tail
          ∧ digits6 date ∧ digits6 time ∧ (ext = "mp4" ∨ ext = "srt")
          ∧ (tail = "" ∨ tail = String LF "").
Proof.
  unfold pattern_match.
  do 18 (destruct s as [|? s]; [discriminate|]).
  destruct (_ && _) eqn:Hcond; [|discriminate].
  intros [= <- <- <-]. exists s.
  repeat (apply andb_true_iff in Hcond as [Hcond ?]).
  repeat match goal with
         | H : bool_decide _ = true |- _ => apply bool_decide_eq_true in H
         | H : _ || _ = true |- _ => apply orb_true_iff in H
         end.
  subst. cbv [string_of_list_ascii String.append].
  split; [done|]. split; [by split|]. split; [by split|].
  split.
  - destruct H0 as [H0|H0]; apply bool_decide_eq_true in H0; tauto.
  - destruct H as [H|H]; apply bool_decide_eq_true in H; tauto.
Qed.

Lemma pattern_match_here date time ext tail :
  digits6 date → digits6 time → ext = "mp4" ∨ ext = "srt" →
  tail = "" ∨ tail = String LF "" →
  pattern_match ("_" +:+ date +:+ "_" +:+ time +:+ "." +:+ ext +:+ tail)
  = Some (date, time, ext).
Proof.
  intros [Hld Hd] [Hlt Ht] Hext Htail.
  do 6 (destruct date as [|? date]; [discriminate Hld|]).
  destruct date; [|discriminate Hld].
  do 6 (destruct time as [|? time]; [discriminate Hlt|]).
  destruct time; [|discriminate Hlt].
  cbn [list_ascii_of_string] in Hd, Ht.
  destruct Hext as [-> | ->]; destruct Htail as [-> | ->];
    cbv [String.append pattern_match string_of_list_ascii];
    rewrite Hd, Ht; reflexivity.
Qed.

Lemma pattern_match_length s groups :
  pattern_match s = Some groups → String.length s = 18 ∨ String.length s = 19.
Proof.
  destruct groups as [[date time] ext]. intros Hm.
  apply pattern_match_stamp in Hm
    as (tail & -> & [Hld _] & [Hlt _] & Hext & Htail).
  rewrite !string_length_app, Hld, Hlt.
  destruct Hext as [-> | ->]; destruct Htail as [-> | ->]; simpl; lia.
Qed.

(** The search finds a stamp at the end of a name, wherever it starts. *)
Lemma pattern_search_stamp pre date time ext :
  digits6 date → digits6 time → ext = "mp4" ∨ ext = "srt" →
  pattern_search (pre +:+ "_" +:+ date +:+ "_" +:+ time +:+ "." +:+ ext)
  = Some (date, time, ext).
Proof.
  intros Hd Ht Hext.
  assert (pattern_match ("_" +:+ date +:+ "_" +:+ time +:+ "." +:+ ext)
          = Some (date, time, ext)) as Hhere.
  { pose proof (pattern_match_here date time ext "" Hd Ht Hext (or_introl eq_refl)) as Hm.
    replace (ext +:+ "") with ext in Hm; [done|].
    destruct Hext as [-> | ->]; done. }
  induction pre as [|c pre IH].
  - change ("" +:+ ?s) with s. destruct date; simpl in *; by rewrite Hhere.
  - change (String c pre +:+ ?s) with (String c (pre +:+ s)).
    cbn [pattern_search]. rewrite IH.
    destruct (pattern_match (String c _)) as [groups|] eqn:Hm; [|done].
    exfalso. destruct groups as [[date' time'] ext'].
    destruct pre as [|c' pre].
    + (* one character before the stamp: the stamp's own [_] is no digit *)
      change ("" +:+ ?s) with s in Hm.
      destruct Hd as [Hld Hd], Ht as [Hlt Ht].
      do 6 (destruct date as [|? date]; [discriminate Hld|]).
      destruct date; [|discriminate Hld].
      do 6 (destruct time as [|? time]; [discriminate Hlt|]).
      destruct time; [|discriminate Hlt].
      destruct Hext as [-> | ->]; cbv [String.append pattern_match] in Hm;
        cbn [forallb] in Hm; change (is_digit "_") with false in Hm;
        rewrite ?andb_false_r, ?andb_false_l in Hm; discriminate Hm.
    + apply pattern_match_length in Hm.
      change (String c' pre +:+ ?s) with (String c' (pre +:+ s)) in Hm.
      cbn [String.length] in Hm.
      rewrite !string_length_app in Hm.
      destruct Hd as [Hld _], Ht as [Hlt _]. rewrite Hld, Hlt in Hm.
      destruct Hext as [-> | ->]; simpl in Hm; lia.
Qed.

Lemma pattern_search_sound name date time ext :
  pattern_search name = Some (date, time, ext) →
  ∃ tail, stamped name date time ext tail ∧ (tail = "" ∨ tail = String LF "").
Proof.
  induction name as [|c name IH]; cbn [pattern_search].
  - destruct (pattern_match "") eqn:Hm; [|done]. discriminate Hm.
  - destruct (pattern_match (String c name)) as [groups|] eqn:Hm.
    + intros [= ->]. apply pattern_match_stamp in Hm as (tail & Hs & Hd & Ht & He & Htl).
      exists tail. split; [|done]. exists "". rewrite Hs. done.
    + intros Hs. destruct (IH Hs) as (tail & (pre & -> & Hrest) & Htl).
      exists tail. split; [|done]. by exists (String c pre).
Qed.

Lemma digits6_two date :
  digits6 date →
  ∃ yy, int (substring 0 2 date) = Some yy ∧ (0 ≤ yy ≤ 99)%Z.
Proof.
  intros [Hl Hd].
  do 6 (destruct date as [|? date]; [discriminate Hl|]).
  cbn [list_ascii_of_string forallb] in Hd.
  apply andb_true_iff in Hd as [Ha Hd]. apply andb_true_iff in Hd as [Hb _].
  destruct (int_two_digits _ _ Ha Hb) as [Hint Hrange].
  eexists. split; [exact Hint | exact Hrange].
Qed.

(** A name with the in-progress prefix is skipped. *)
Lemma sweep_target_dir_temp final name :
  String.prefix "temp_" name = true → sweep_target_dir final name = None.
Proof. intros Hp. unfold sweep_target_dir. by rewrite Hp. Qed.

(** A name that ends in a stamp goes to its dated directory. *)
Lemma sweep_target_dir_stamped final name date time ext :
  String.prefix "temp_" name = false → stamped name date time ext "" →
  ∃ yy, int (substring 0 2 date) = Some yy ∧ (0 ≤ yy ≤ 99)%Z
        ∧ sweep_target_dir final name = Some (Return (dated_dir final date time yy)).
Proof.
  intros Hp (pre & -> & Hd & Ht & Hext).
  destruct (digits6_two date Hd) as (yy & Hint & Hrange).
  exists yy. split; [done|]. split; [done|].
  unfold sweep_target_dir. rewrite Hp.
  replace (ext +:+ "") with ext by (destruct Hext as [-> | ->]; done).
  rewrite pattern_search_stamp by done. rewrite Hint.
  unfold dated_dir. by rewrite Z.add_comm.
Qed.

(** Only such names are not skipped, a final line feed apart. *)
Lemma sweep_target_dir_sound final name r :
  sweep_target_dir final name = Some r →
  String.prefix "temp_" name = false
  ∧ ∃ date time ext tail yy,
      stamped name date time ext tail ∧ (tail = "" ∨ tail = String LF "")
      ∧ int (substring 0 2 date) = Some yy
      ∧ r = Return (dated_dir final date time yy).
Proof.
  unfold sweep_target_dir. destruct (String.prefix "temp_" name); [done|].
  destruct (pattern_search name) as [[[date time] ext]|] eqn:Hs; [|done].
  apply pattern_search_sound in Hs as (tail & Hst & Htl).
  intros [= <-]. split; [done|].
  destruct Hst as (pre & Hname & Hd & Hrest).
  destruct (digits6_two date Hd) as (yy & Hint & _).
  exists date, time, ext, tail, yy. rewrite Hint.
  split; [by exists pre|]. split; [done|]. split; [done|].
  unfold dated_dir. by rewrite Z.add_comm.
Qed.

Lemma sweep_target_dir_example final :
  sweep_target_dir final "cam1_250131_235901.mp4"
  = Some (Return (Path final / "2025" / "01" / "31" / "23")%path)
  ∧ sweep_target_dir final "temp_cam1_250131_235901.mp4" = None.
Proof. split; reflexivity. Qed.
End routing.

(** * The sweep *)

Section sweep.
Import FileProcessor Moves Stamp.
Context {World : Type} `{OS World}.

Lemma renamed_app evs1 evs2 : renamed (evs1 ++ evs2) = renamed evs1 ++ renamed evs2.
Proof.
  induction evs1 as [|ev evs1 IH]; [done|]. simpl.
  destruct ev; try done. destruct r; [|done]. simpl. by rewrite IH.
Qed.

Lemma attempted_app evs1 evs2 :
  attempted (evs1 ++ evs2) = attempted evs1 ++ attempted evs2.
Proof.
  induction evs1 as [|ev evs1 IH]; [done|]. simpl.
  destruct ev; try done. simpl. by rewrite IH.
Qed.

Lemma sweep_event_mono config temp entries entries' ev :
  entries ⊆ entries' → sweep_event config temp entries ev →
  sweep_event config temp entries' ev.
Proof.
  intros Hsub (entry & d & Hin & Hrest). exists entry, d. split; [by apply Hsub|done].
Qed.

Lemma sweep_target_dir_returns final name r :
  sweep_target_dir final name = Some r → ∃ target_dir, r = Return target_dir.
Proof.
  intros Hs. apply sweep_target_dir_sound in Hs as (_ & ? & ? & ? & ? & ? & _ & _ & _ & ->).
  eauto.
Qed.

(** The loop over the entries of the directory. *)
Lemma sweep_loop_trace config temp entries n0 w tr r w' tr' :
  sweep_loop config temp entries n0 (w, tr) = (r, (w', tr')) →
  ∃ evs, tr' = tr ++ evs
    ∧ Forall (sweep_event config temp entries) evs
    ∧ ∀ n, r = Return n →
        n = (n0 + Z.of_nat (length (renamed evs)))%Z
        ∧ ∀ entry target_dir, entry ∈ entries → routed config temp entry target_dir →
            (temp / entry, destination temp entry target_dir)%path ∈ attempted evs.
Proof.
  revert n0 w tr. induction entries as [|entry entries IH]; intros n0 w tr Hrun.
  - injection Hrun as <- <- <-. exists []. rewrite app_nil_r. split; [done|].
    split; [constructor|]. intros n [= <-]. split; [simpl; lia|].
    intros entry d Hin. by apply elem_of_nil in Hin.
  - cbn [sweep_loop] in Hrun.
    destruct (sweep_target_dir (final_output_path config) (path_name (temp / entry)))
      as [res|] eqn:Hroute.
    + destruct (sweep_target_dir_returns _ _ _ Hroute) as [d ->].
      unfold bind at 1, mkdir, call in Hrun.
      destruct (path_mkdir d w) as [r1 w1] eqn:E1. destruct r1 as [[]|e1].
      * unfold bind at 1, try_except, bind, rename, call in Hrun.
        destruct (path_rename (temp / entry) (d / path_name (temp / entry)) w1)
          as [r2 w2] eqn:E2.
        assert (sweep_event config temp (entry :: entries) (EvMkdir d (Return tt)))
          as Hev1.
        { exists entry, d. split; [by left|]. split; [done|]. left. eauto. }
        assert (∀ r2, sweep_event config temp (entry :: entries)
                  (EvRename (temp / entry) (d / path_name (temp / entry)) r2)) as Hev2.
        { intros r0. exists entry, d. split; [by left|]. split; [done|]. right. eauto. }
        destruct r2 as [[]|e2].
        -- simpl in Hrun. apply IH in Hrun as (evs & -> & Hall & Hret).
           exists ([EvMkdir d (Return tt);
                    EvRename (temp / entry) (d / path_name (temp / entry)) (Return tt)]
                     ++ evs).
           split; [by rewrite <- !app_assoc|]. split.
           ++ constructor; [done|]. constructor; [done|].
              eapply Forall_impl; [done|]. intros ev. apply sweep_event_mono.
              intros x Hx. by right.
           ++ intros n Hn. destruct (Hret n Hn) as [-> Hatt]. split; [simpl; lia|].
              intros entry' d' Hin Hr'. simpl.
              apply elem_of_cons in Hin as [->|Hin].
              ** unfold routed in Hr'. rewrite Hroute in Hr'. injection Hr' as <-.
                 by left.
              ** right. by apply Hatt.
        -- destruct (is_OSError e2).
           ++ simpl in Hrun. apply IH in Hrun as (evs & -> & Hall & Hret).
              exists ([EvMkdir d (Return tt);
                       EvRename (temp / entry) (d / path_name (temp / entry)) (Raise e2)]
                        ++ evs).
              split; [by rewrite <- !app_assoc|]. split.
              ** constructor; [done|]. constructor; [done|].
                 eapply Forall_impl; [done|]. intros ev. apply sweep_event_mono.
                 intros x Hx. by right.
              ** intros n Hn. destruct (Hret n Hn) as [-> Hatt]. split; [simpl; lia|].
                 intros entry' d' Hin Hr'. simpl.
                 apply elem_of_cons in Hin as [->|Hin].
                 --- unfold routed in Hr'. rewrite Hroute in Hr'. injection Hr' as <-.
                     by left.
                 --- right. by apply Hatt.
           ++ simpl in Hrun. injection Hrun as <- <- <-.
              exists [EvMkdir d (Return tt);
                      EvRename (temp / entry) (d / path_name (temp / entry)) (Raise e2)].
              split; [by rewrite <- !app_assoc|]. split; [|done].
              constructor; [done|]. constructor; [done|]. constructor.
      * injection Hrun as <- <- <-. exists [EvMkdir d (Raise e1)].
        split; [done|]. split; [|done]. constructor; [|constructor].
        exists entry, d. split; [by left|]. split; [done|]. left. eauto.
    + apply IH in Hrun as (evs & -> & Hall & Hret). exists evs.
      split; [done|]. split.
      * eapply Forall_impl; [done|]. intros ev. apply sweep_event_mono.
        intros x Hx. by right.
      * intros n Hn. destruct (Hret n Hn) as [-> Hatt]. split; [done|].
        intros entry' d' Hin Hr'. apply elem_of_cons in Hin as [->|Hin].
        -- unfold routed in Hr'. by rewrite Hroute in Hr'.
        -- by apply Hatt.
Qed.


(** A whole sweep: the directory is looked for and listed, then come the
    events of the loop; the count returned is that of the renames that
    succeeded; every listed entry the filter lets through has had its
    rename tried, and nothing else has. *)
Lemma final_sweep_move_trace config w tr r w' tr' :
  final_sweep_move config (w, tr) = (r, (w', tr')) →
  ∃ evs, tr' = tr ++ evs
    ∧ Forall (λ ev, listing_event (Path (temp_output_path config)) ev
                    ∨ sweep_event config (Path (temp_output_path config)) (listed evs) ev)
             evs
    ∧ (∀ move, move ∈ attempted evs →
         ∃ entry target_dir,
           entry ∈ listed evs
           ∧ routed config (Path (temp_output_path config)) entry target_dir
           ∧ move = ((Path (temp_output_path config) / entry)%path,
                     destination (Path (temp_output_path config)) entry target_dir))
    ∧ ∀ n, r = Return n →
        n = Z.of_nat (length (renamed evs))
        ∧ ∀ entry target_dir,
            entry ∈ listed evs →
            routed config (Path (temp_output_path config)) entry target_dir →
            ((Path (temp_output_path config) / entry)%path,
             destination (Path (temp_output_path config)) entry target_dir)
            ∈ attempted evs.
Proof.
  unfold final_sweep_move. set (temp := Path (temp_output_path config)).
  unfold bind at 1, p_exists, ask.
  destruct (path_exists temp w) as [present w0] eqn:E0. destruct present; simpl.
  - unfold bind at 1, glob, ask.
    destruct (path_glob temp "*" w0) as [entries w1] eqn:E1.
    intros Hrun. apply sweep_loop_trace in Hrun as (evs & -> & Hall & Hret).
    exists ([EvExists temp true; EvGlob temp "*" entries] ++ evs).
    assert (listed evs = []) as Hl.
    { clear Hret. induction Hall as [|ev evs Hev Hall IH]; [done|].
      destruct Hev as (? & ? & _ & _ & [[? ->]|[? ->]]); done. }
    assert (listed ([EvExists temp true; EvGlob temp "*" entries] ++ evs) = entries)
      as -> by (simpl; by rewrite Hl, app_nil_r).
    split; [by rewrite <- !app_assoc|]. split; [|split].
    + constructor; [left; left; eauto|]. constructor; [left; right; eauto|].
      eapply Forall_impl; [done|]. intros ev ?. by right.
    + simpl. intros move Hmove. clear Hret.
      induction Hall as [|ev evs Hev Hall IH]; [by apply elem_of_nil in Hmove|].
      destruct Hev as (entry & d & Hin & Hr & [[? ->]|[? ->]]); simpl in *.
      * apply IH; [|done]. clear IH. revert Hl. done.
      * apply elem_of_cons in Hmove as [->|Hmove]; [by exists entry, d|].
        by apply IH.
    + intros n Hn. destruct (Hret n Hn) as [-> Hatt]. split; [simpl; lia|].
      intros entry d Hin Hr. simpl. by apply Hatt.
  - intros [= <- <- <-]. exists [EvExists temp false]. split; [done|]. split; [|split].
    + constructor; [|constructor]. left. left. eauto.
    + intros move Hmove. by apply elem_of_nil in Hmove.
    + intros n [= <-]. split; [done|]. intros entry d Hin. by apply elem_of_nil in Hin.
Qed.
End sweep.

Section names.
Import Moves.

Lemma split_on_absent sep s :
  sep ∉ list_ascii_of_string s → split_on sep s = [s].
Proof.
  induction s as [|c s IH]; [done|]. cbn [list_ascii_of_string split_on].
  intros Hsep. apply not_elem_of_cons in Hsep as [Hne Hsep].
  rewrite decide_False by done. by rewrite IH.
Qed.

Lemma Path_simple_name entry : simple_name entry → Path entry = mkPath [entry].
Proof.
  intros (Hslash & Hne & Hdot). unfold Path. rewrite split_on_absent by done.
  rewrite filter_cons_True by done. rewrite filter_nil.
  destruct entry as [|c entry]; [done|].
  assert (c ≠ "/"%char) as Hc.
  { intros ->. apply Hslash. cbn [list_ascii_of_string]. by left. }
  destruct c as [[] [] [] [] [] [] [] []]; try done.
Qed.

Lemma path_name_simple temp entry :
  simple_name entry → path_name (temp / entry) = entry.
Proof.
  intros Hs. unfold path_div, path_name. rewrite (Path_simple_name _ Hs).
  destruct Hs as (Hslash & Hne & _).
  destruct entry as [|c entry]; [done|].
  assert (c ≠ "/"%char) as Hc.
  { intros ->. apply Hslash. cbn [list_ascii_of_string]. by left. }
  assert (String.prefix "/" (String c entry) = false) as Hp.
  { cbn [String.prefix]. destruct (ascii_dec _ _) as [Heq|]; [|done]. by subst. }
  unfold is_absolute. cbn [parts]. rewrite Hp. cbn [parts].
  rewrite last_snoc. by rewrite Hp.
Qed.
End names.

Section sweep_claims.
Import FileProcessor Moves Stamp.
Context {World : Type} `{OS World}.

(** C4, as amended: a sweep that returns has tried to rename every listed
    entry whose name does not start with [temp_] and ends in
    [_DDDDDD_TTTTTT.mp4] or [.srt] to
    [final_output_path/(2000+YY)/MM/DD/HH/<same name>]; the file is there
    when that rename succeeded, and stays in the temp directory (uncounted)
    when it raised [OSError]; the count returned is that of the renames
    that succeeded; no other entry is renamed: not one whose name starts
    with [temp_], not one without the stamp. [cam1_250131_235901.mp4] goes
    to [final_root/2025/01/31/23], [temp_cam1_250131_235901.mp4]
    nowhere. *)
Theorem C4_final_sweep_move_routes (config : StreamConfig) (w w' : World)
    (tr evs : list event) (n : Z) :
  let temp_path := Path (temp_output_path config) in
  let final := final_output_path config in
  final_sweep_move config (w, tr) = (Return n, (w', tr ++ evs)) →
  (∀ entry date time ext,
     entry ∈ listed evs → simple_name entry →
     String.prefix "temp_" entry = false → stamped entry date time ext "" →
     ∃ yy, int (substring 0 2 date) = Some yy
           ∧ ((temp_path / entry)%path, (dated_dir final date time yy / entry)%path)
             ∈ attempted evs)
  ∧ (∀ src dst,
       (src, dst) ∈ attempted evs →
       ∃ entry date time ext tail yy,
         entry ∈ listed evs ∧ src = (temp_path / entry)%path
         ∧ String.prefix "temp_" (path_name src) = false
         ∧ stamped (path_name src) date time ext tail
         ∧ (tail = "" ∨ tail = String LF "")
         ∧ int (substring 0 2 date) = Some yy
         ∧ dst = (dated_dir final date time yy / path_name src)%path)
  ∧ n = Z.of_nat (length (renamed evs))
  ∧ Forall (λ ev, listing_event temp_path ev
                  ∨ sweep_event config temp_path (listed evs) ev) evs
  ∧ ("cam1_250131_235901.mp4" ∈ listed evs →
       ((temp_path / "cam1_250131_235901.mp4")%path,
        (Path final / "2025" / "01" / "31" / "23" / "cam1_250131_235901.mp4")%path)
       ∈ attempted evs)
  ∧ ((temp_path / "temp_cam1_250131_235901.mp4")%path ∉ (attempted evs).*1).
Proof.
  intros temp_path final Hrun.
  apply final_sweep_move_trace in Hrun as (evs' & Heq & Hall & Honly & Hret).
  apply app_inv_head in Heq as <-.
  destruct (Hret n eq_refl) as [Hn Hatt].
  assert (∀ src dst,
       (src, dst) ∈ attempted evs →
       ∃ entry date time ext tail yy,
         entry ∈ listed evs ∧ src = (temp_path / entry)%path
         ∧ String.prefix "temp_" (path_name src) = false
         ∧ stamped (path_name src) date time ext tail
         ∧ (tail = "" ∨ tail = String LF "")
         ∧ int (substring 0 2 date) = Some yy
         ∧ dst = (dated_dir final date time yy / path_name src)%path) as Hsound.
  { intros src dst Hmove.
    destruct (Honly _ Hmove) as (entry & d & Hin & Hr & [= -> ->]).
    apply sweep_target_dir_sound in Hr
      as (Hp & date & time & ext & tail & yy & Hst & Htl & Hint & [= ->]).
    by exists entry, date, time, ext, tail, yy. }
  split; [|split; [done|split; [done|split; [done|split]]]].
  - intros entry date time ext Hin Hsimple Hp Hst.
    destruct (sweep_target_dir_stamped final entry date time ext Hp Hst)
      as (yy & Hint & _ & Hroute).
    exists yy. split; [done|].
    assert (routed config temp_path entry (dated_dir final date time yy)) as Hr.
    { unfold routed. by rewrite path_name_simple. }
    specialize (Hatt _ _ Hin Hr). unfold destination in Hatt.
    by rewrite path_name_simple in Hatt.
  - intros Hin.
    assert (simple_name "cam1_250131_235901.mp4") as Hsimple.
    { split; [|done]. compute_done. }
    assert (routed config temp_path "cam1_250131_235901.mp4"
              (Path final / "2025" / "01" / "31" / "23")) as Hr.
    { unfold routed. rewrite path_name_simple by done.
      apply sweep_target_dir_example. }
    specialize (Hatt _ _ Hin Hr). unfold destination in Hatt.
    by rewrite path_name_simple in Hatt.
  - intros Hsrc. apply list_elem_of_fmap in Hsrc as [[src dst] [Heq Hmove]].
    cbn [fst] in Heq. subst src.
    destruct (Hsound _ _ Hmove) as (entry & ? & ? & ? & ? & ? & _ & Hsrc & Hp & _).
    rewrite path_name_simple in Hp; [done|].
    split; [|done]. compute_done.
Qed.

End sweep_claims.

(** * Runs on the small operating system *)

Section sims.
Import FileProcessor ProcessManager Moves Stamp Examples.

Lemma C4_final_sweep_move_routes_witness :
  ∃ evs,
    (final_sweep_move stream1 (recording, [])).2.2 = evs
    ∧ ((Path "./output/temp/" / "cam1_250131_235901.mp4")%path,
       (Path "/mnt/nas/cam" / "2025" / "01" / "31" / "23"
        / "cam1_250131_235901.mp4")%path) ∈ attempted evs
    ∧ ((Path "./output/temp/" / "temp_cam1_250131_235901.mp4")%path
       ∉ (attempted evs).*1)
    ∧ 1%Z = Z.of_nat (length (renamed evs)).
Proof.
  eexists. split; [reflexivity|].
  destruct (C4_final_sweep_move_routes stream1 recording
              (final_sweep_move stream1 (recording, [])).2.1 []
              (final_sweep_move stream1 (recording, [])).2.2 1)
    as (_ & _ & Hn & _ & Hcam & Htemp).
  - vm_compute. reflexivity.
  - split; [|split]; [|exact Htemp|exact Hn].
    apply Hcam. compute_done.
Defined.

(** C4 as stated fails where [rename] is refused (the archive on another
    file system, as with the default paths): the finished recording is
    listed, is not moved and not counted, and stays in the temp
    directory. *)
Lemma C4_rename_refused_counterexample :
  (final_sweep_move stream1 (recording_other_device, [])).1 = Return 0%Z
  ∧ "cam1_250131_235901.mp4"
    ∈ listed (final_sweep_move stream1 (recording_other_device, [])).2.2
  ∧ renamed (final_sweep_move stream1 (recording_other_device, [])).2.2 = []
  ∧ Path "output/temp/cam1_250131_235901.mp4"
    ∈ Sim.files (final_sweep_move stream1 (recording_other_device, [])).2.1
  ∧ Path "/mnt/nas/cam/2025/01/31/23/cam1_250131_235901.mp4"
    ∉ Sim.files (final_sweep_move stream1 (recording_other_device, [])).2.1.
Proof.
  split; [by vm_compute|]. split; [compute_done|].
  split; [by vm_compute|]. split; compute_done.
Qed.


End sims.

Section process_table.
Import ProcessManager Examples.

(** The part of C6 that the code keeps: a [ps] that exits with an error
    leaves both maps empty. *)
Lemma build_process_maps_ps_error {World : Type} `{OS World}
    (w w1 : World) (tr : list event) (code : Z) (out : string) :
  spawn ps_argv w = (Return (code, out), w1) → code ≠ 0%Z →
  _build_process_maps (w, tr)
  = (Return (∅, ∅), (w1, tr ++ [EvRun ps_argv (Return (code, out))])).
Proof.
  intros Hspawn Hcode. unfold _build_process_maps, try_except, bind, subprocess_run,
    bind, call. fold ps_argv. rewrite Hspawn. cbn [fst andb].
  by rewrite bool_decide_eq_false_2.
Qed.

(** C6, where the code departs from it: without a [ps] to start,
    [_build_process_maps] does not return empty maps, it raises
    [FileNotFoundError]. *)
Theorem C6_build_process_maps_without_ps {World : Type} `{OS World}
    (w w1 : World) (tr : list event) :
  spawn ps_argv w = (Raise FileNotFoundError, w1) →
  _build_process_maps (w, tr)
  = (Raise FileNotFoundError, (w1, tr ++ [EvRun ps_argv (Raise FileNotFoundError)])).
Proof.
  intros Hspawn. unfold _build_process_maps, try_except, bind, subprocess_run,
    bind, call. fold ps_argv. by rewrite Hspawn.
Qed.

Lemma C6_build_process_maps_without_ps_witness :
  _build_process_maps (no_ps, [])
  = (Raise FileNotFoundError, (no_ps, [] ++ [EvRun ps_argv (Raise FileNotFoundError)])).
Proof.
  apply (C6_build_process_maps_without_ps no_ps no_ps []). reflexivity.
Defined.

(** C2, where the code departs from it: under the screen session 100 runs
    a worker, 101, and under the worker a shell, 102.  No command line
    scores above zero, the deepest descendant is 102, and the PID selected
    is 101: the candidates are ordered by score first, and the shell's
    penalty puts it last. *)
Theorem C2_select_target_not_deepest :
  (_select_target_child_pid 100 (worker_with_shell, [])).1 = Return (Some 101%Z)
  ∧ (let* maps := _build_process_maps in
     ret (_collect_descendants_with_depth 100 maps.1,
          (λ pid, score_cmdline (default "" (maps.2 !! pid))) <$> [101; 102]%Z))
      (worker_with_shell, [])
    = (Return (Some [(101, 1); (102, 2)]%Z, [0; -100]%Z),
       (worker_with_shell, [EvRun ps_argv (Return (0%Z, ps_lines))])).
Proof. split; vm_compute; reflexivity. Qed.
End process_table.

(** * Rules for what a computation yields *)

Section outcome_rules.
Import Outcome.
Context {World : Type} `{OS World}.

Lemma yields_mono {A} (c : M World A) (Q Q' : result A → list event → Prop) :
  yields c Q → (∀ r evs, Q r evs → Q' r evs) → yields c Q'.
Proof.
  intros Hc HQ w tr. destruct (Hc w tr) as (r & w' & evs & Hrun & Hq).
  exists r, w', evs. split; [done|]. by apply HQ.
Qed.

Lemma yields_ret {A} (a : A) (Q : result A → list event → Prop) :
  Q (Return a) [] → yields (World:=World) (ret a) Q.
Proof. intros HQ w tr. exists (Return a), w, []. by rewrite app_nil_r. Qed.

Lemma yields_raise {A} (e : exn) (Q : result A → list event → Prop) :
  Q (Raise e) [] → yields (World:=World) (raise e) Q.
Proof. intros HQ w tr. exists (Raise e), w, []. by rewrite app_nil_r. Qed.

Lemma yields_bind {A B} (c : M World A) (k : A → M World B)
    (Q1 : result A → list event → Prop) (Q : result B → list event → Prop) :
  yields c Q1 →
  (∀ a evs1, Q1 (Return a) evs1 → yields (k a) (λ r evs2, Q r (evs1 ++ evs2))) →
  (∀ e evs1, Q1 (Raise e) evs1 → Q (Raise e) evs1) →
  yields (bind c k) Q.
Proof.
  intros Hc Hk He w tr. destruct (Hc w tr) as (r1 & w1 & evs1 & Hrun1 & Hq1).
  unfold bind. rewrite Hrun1. destruct r1 as [a|e].
  - destruct (Hk a evs1 Hq1 w1 (tr ++ evs1)) as (r & w' & evs2 & Hrun2 & Hq).
    exists r, w', (evs1 ++ evs2). by rewrite app_assoc.
  - exists (Raise e), w1, evs1. split; [done|]. by apply He.
Qed.

Lemma yields_try {A} (c : M World A) (handler : exn → option (M World A))
    (Q1 Q : result A → list event → Prop) :
  yields c Q1 →
  (∀ a evs, Q1 (Return a) evs → Q (Return a) evs) →
  (∀ e evs1, Q1 (Raise e) evs1 →
     match handler e with
     | Some h => yields h (λ r evs2, Q r (evs1 ++ evs2))
     | None => Q (Raise e) evs1
     end) →
  yields (try_except c handler) Q.
Proof.
  intros Hc Hr He w tr. destruct (Hc w tr) as (r1 & w1 & evs1 & Hrun1 & Hq1).
  unfold try_except. rewrite Hrun1. destruct r1 as [a|e].
  - exists (Return a), w1, evs1. split; [done|]. by apply Hr.
  - specialize (He e evs1 Hq1). destruct (handler e) as [h|].
    + destruct (He w1 (tr ++ evs1)) as (r & w' & evs2 & Hrun2 & Hq).
      exists r, w', (evs1 ++ evs2). by rewrite app_assoc.
    + by exists (Raise e), w1, evs1.
Qed.

Lemma yields_bind_wp {A B} (c : M World A) (k : A → M World B)
    (Q : result B → list event → Prop) :
  yields c (λ r evs1,
    match r with
    | Return a => yields (k a) (λ r evs2, Q r (evs1 ++ evs2))
    | Raise e => Q (Raise e) evs1
    end) →
  yields (bind c k) Q.
Proof. intros Hc. eapply yields_bind; [exact Hc| |]; by intros. Qed.

Lemma yields_try_wp {A} (c : M World A) (handler : exn → option (M World A))
    (Q : result A → list event → Prop) :
  yields c (λ r evs1,
    match r with
    | Return a => Q (Return a) evs1
    | Raise e =>
        match handler e with
        | Some h => yields h (λ r evs2, Q r (evs1 ++ evs2))
        | None => Q (Raise e) evs1
        end
    end) →
  yields (try_except c handler) Q.
Proof. intros Hc. eapply yields_try; [exact Hc| |]; by intros. Qed.

Lemma yields_call {A} (op : World → result A * World) (ev : result A → event) :
  yields (call op ev) (λ r evs, evs = [ev r]).
Proof.
  intros w tr. unfold call. destruct (op w) as [r w'] eqn:E.
  by exists r, w', [ev r].
Qed.

Lemma yields_ask {A} (op : World → A * World) (ev : A → event) :
  yields (ask op ev) (λ r evs, ∃ a, r = Return a ∧ evs = [ev a]).
Proof.
  intros w tr. unfold ask. destruct (op w) as [a w'] eqn:E.
  exists (Return a), w', [ev a]. split; [done|]. by exists a.
Qed.

Lemma yields_sleep secs :
  yields (sleep secs) (λ r evs, r = Return tt ∧ evs = [EvSleep secs]).
Proof. intros w tr. by exists (Return tt), (time_sleep secs w), [EvSleep secs]. Qed.

Lemma yields_run argv check :
  yields (subprocess_run argv check)
    (λ r evs, ∃ out, evs = [EvRun argv out] ∧ r = run_outcome check out).
Proof.
  unfold subprocess_run. eapply yields_bind; [apply yields_call| |].
  - intros cp evs1 ->. simpl.
    destruct (check && negb (bool_decide (cp.1 = 0%Z))) eqn:E.
    + apply yields_raise. exists (Return cp). rewrite ?app_nil_r. simpl.
      by rewrite E.
    + apply yields_ret. exists (Return cp). rewrite ?app_nil_r. simpl.
      by rewrite E.
  - intros e evs1 ->. by exists (Raise e).
Qed.
End outcome_rules.

Section read_rules.
Import Outcome.
Context {World : Type} `{Host World}.

Lemma yields_read file :
  yields (read file) (λ r evs, (∃ lines, r = Return lines) ∧ evs = []).
Proof.
  intros w tr. unfold read. destruct (read_lines file w) as [lines w'] eqn:E.
  exists (Return lines), w', []. rewrite app_nil_r. split; [done|].
  split; [by exists lines|done].
Qed.


End read_rules.

(** * Sessions and MediaMTX *)

(** Every event of a literal trace is a run or a sleep. *)
Ltac runs_and_sleeps :=
  repeat (apply Forall_cons_2;
          [first [left; by eexists _, _ | right; by eexists]|]);
  apply Forall_nil_2.

Section sessions.
Import StreamStopManager SessionManager Outcome Screen Trace.
Context {World : Type} `{OS World}.

Lemma lines_with_nonneg name output : (0 ≤ lines_with name output)%Z.
Proof. unfold lines_with. lia. Qed.

Lemma get_running_sessions_spec :
  yields (World:=World) get_running_sessions (λ r evs,
    ∃ out, evs = [EvRun listing out]
      ∧ match r with
        | Return s =>
            total s = (streams s + mover s)%Z ∧ (0 ≤ streams s)%Z ∧ (0 ≤ mover s)%Z
            ∧ (∀ stdout, out = Return (0%Z, stdout) →
                 streams s = lines_with "rtsp_stream" stdout
                 ∧ mover s = lines_with "rtsp_file_mover" stdout)
            ∧ ((∀ stdout, out ≠ Return (0%Z, stdout)) → s = mkSessions 0 0 0)
        | Raise e =>
            out = Raise e ∧ e ≠ FileNotFoundError ∧ ∀ code, e ≠ CalledProcessError code
        end).
Proof.
  unfold get_running_sessions. apply yields_try_wp, yields_bind_wp.
  eapply yields_mono; [apply yields_run|]. intros r evs (out & -> & ->).
  destruct out as [[code stdout]|e]; simpl.
  - case_bool_decide as Hcode; simpl.
    + subst code. apply yields_ret. exists (Return (0%Z, stdout)).
      split; [done|]. simpl. split_and!; try apply lines_with_nonneg; [done| |].
      * by intros ? [= <-].
      * intros Hne. by destruct (Hne stdout).
    + destruct (decide (code = 1%Z)); apply yields_ret;
        (exists (Return (code, stdout)); split; [done|]; simpl;
         split_and!; try done; by intros ? [= ? ?]).
  - destruct e as [| | | |code| |]; simpl.
    5: { destruct (decide (code = 1%Z)); apply yields_ret;
           (eexists; split; [done|]; simpl; by split_and!). }
    all: try (apply yields_ret; eexists; split; [done|]; simpl; by split_and!).
    all: eexists; by split_and!.
Qed.

(** X1: [get_running_sessions] makes one call, [screen -list]. When that
    exits with status 0 it counts the lines that mention each kind of
    session, and [total] is the sum of the two counts; when it exits with
    another status, or cannot be started, it reports no session at all,
    whatever was printed. No [CalledProcessError] or [FileNotFoundError]
    escapes. *)
Theorem get_running_sessions_tally :
  yields (World:=World) get_running_sessions (λ r evs,
    ∃ out, evs = [EvRun listing out]
      ∧ match r with
        | Return s =>
            total s = (streams s + mover s)%Z ∧ (0 ≤ streams s)%Z ∧ (0 ≤ mover s)%Z
            ∧ (∀ stdout, out = Return (0%Z, stdout) →
                 streams s = lines_with "rtsp_stream" stdout
                 ∧ mover s = lines_with "rtsp_file_mover" stdout)
            ∧ ((∀ stdout, out ≠ Return (0%Z, stdout)) → s = mkSessions 0 0 0)
        | Raise e =>
            out = Raise e ∧ e ≠ FileNotFoundError ∧ ∀ code, e ≠ CalledProcessError code
        end).
Proof. exact get_running_sessions_spec. Qed.

Lemma quit_of_quit session_name : quit_of (quit session_name) = Some session_name.
Proof. unfold quit_of, quit. by rewrite decide_True. Qed.

Lemma quit_sent_app evs1 evs2 : quit_sent (evs1 ++ evs2) = quit_sent evs1 ++ quit_sent evs2.
Proof.
  induction evs1 as [|ev evs1 IH]; [done|]. destruct ev; simpl; try done.
  destruct (quit_of argv); simpl; by rewrite IH.
Qed.

Lemma quitted_app evs1 evs2 : quitted (evs1 ++ evs2) = quitted evs1 ++ quitted evs2.
Proof.
  induction evs1 as [|ev evs1 IH]; [done|]. destruct ev; simpl; try done.
  destruct r as [[[| |] ?]|]; simpl; try done.
  destruct (quit_of argv); simpl; by rewrite IH.
Qed.

Lemma session_turn_listing n0 session_name out r :
  match r with
  | Return n => n = n0
  | Raise e => ∀ code, e ≠ CalledProcessError code
  end →
  session_turn session_name n0 r [EvRun listing out].
Proof.
  intros Hr. split_and!.
  - runs_and_sleeps.
  - by left.
  - simpl. destruct out as [[[| |] ?]|]; simpl; lia.
  - destruct out as [[[| |] ?]|]; done.
  - destruct r; [|done]. subst. lia.
Qed.

Lemma session_turn_refused n0 session_name cp out r :
  (∀ stdout, out ≠ Return (0%Z, stdout)) →
  match r with
  | Return n => n = n0
  | Raise e => ∀ code, e ≠ CalledProcessError code
  end →
  session_turn session_name n0 r
    [EvRun listing (Return cp); EvRun (quit session_name) out].
Proof.
  intros Hout Hr.
  assert (quitted [EvRun listing (Return cp); EvRun (quit session_name) out] = [])
    as Hq.
  { destruct cp as [[| |] ?]; destruct out as [[[| |] ?]|]; cbn [quitted]; rewrite ?quit_of_quit;
      try done; by edestruct Hout. }
  unfold session_turn. rewrite Hq. split_and!.
  - runs_and_sleeps.
  - right. destruct cp as [[| |] ?]; cbn [quit_sent]; by rewrite quit_of_quit.
  - simpl. lia.
  - done.
  - destruct r; [|done]. subst. simpl. lia.
Qed.

Lemma session_turn_quitted n0 session_name cp stdout out r :
  match r with
  | Return n => (n0 ≤ n ≤ n0 + 1)%Z
  | Raise e => ∀ code, e ≠ CalledProcessError code
  end →
  session_turn session_name n0 r
    [EvRun listing (Return cp); EvRun (quit session_name) (Return (0%Z, stdout));
     EvSleep 1; EvRun listing out].
Proof.
  intros Hr.
  assert (quitted [EvRun listing (Return cp);
                   EvRun (quit session_name) (Return (0%Z, stdout));
                   EvSleep 1; EvRun listing out] = [session_name]) as Hq.
  { destruct cp as [[| |] ?]; destruct out as [[[| |] ?]|]; cbn [quitted];
      by rewrite quit_of_quit. }
  unfold session_turn. rewrite Hq. split_and!.
  - runs_and_sleeps.
  - right. cbn [quit_sent]. by rewrite quit_of_quit.
  - cbn [quit_sent]. rewrite quit_of_quit. simpl. lia.
  - done.
  - destruct r; [|done]. simpl. lia.
Qed.

Lemma stop_sessions_loop_spec indices n0 :
  yields (World:=World) (stop_sessions_loop indices n0) (λ r evs,
    Forall is_run_or_sleep evs
    ∧ quit_sent evs `sublist_of` ((λ i, base_session_name +:+ str i) <$> indices)
    ∧ (length (quitted evs) ≤ length (quit_sent evs))%nat
    ∧ sleeps evs = length (quitted evs)
    ∧ match r with
      | Return n => (n0 ≤ n ≤ n0 + Z.of_nat (length (quitted evs)))%Z
      | Raise e => ∀ code, e ≠ CalledProcessError code
      end).
Proof.
  revert n0. induction indices as [|i rest IH]; intros n0; simpl.
  { apply yields_ret. split_and!; simpl; try done; lia. }
  set (session_name := base_session_name +:+ str i).
  eapply yields_bind with (Q1 := session_turn session_name n0).
  - (* the turn *)
    apply yields_try_wp, yields_bind_wp.
    eapply yields_mono; [apply yields_run|]. intros r evs (out & -> & ->).
    destruct out as [cp|e]; simpl.
    2: { destruct e; simpl; try done; try apply yields_ret;
           by apply session_turn_listing. }
    destruct (str_in session_name cp.2) eqn:Ein; simpl.
    2: { apply yields_ret. by apply session_turn_listing. }
    apply yields_bind_wp.
    eapply yields_mono; [apply yields_run|]. intros r evs (out & -> & ->).
    assert (∀ r, (match r with
                  | Return n => n = n0
                  | Raise e => ∀ code, e ≠ CalledProcessError code
                  end) →
                 (∀ stdout, out ≠ Return (0%Z, stdout)) →
                 session_turn session_name n0 r
                   (EvRun ["screen"; "-list"] (Return cp)
                    :: [EvRun ["screen"; "-S"; session_name; "-X"; "quit"] out]))
      as Hrefused.
    { intros r Hr Hout. by apply session_turn_refused. }
    destruct out as [[code stdout]|e]; simpl.
    2: { destruct e; simpl; try apply yields_ret; rewrite ?app_nil_r;
           by apply Hrefused. }
    case_bool_decide as Hcode; simpl.
    2: { apply yields_ret. rewrite ?app_nil_r. apply Hrefused; [done|].
         by intros ? [= ? ?]. }
    subst code. clear Hrefused.
    apply yields_bind_wp. eapply yields_mono; [apply yields_sleep|].
    intros r evs [-> ->]. apply yields_bind_wp.
    eapply yields_mono; [apply yields_run|]. intros r evs (out & -> & ->).
    assert (∀ r, (match r with
                  | Return n => (n0 ≤ n ≤ n0 + 1)%Z
                  | Raise e => ∀ code, e ≠ CalledProcessError code
                  end) →
                 session_turn session_name n0 r
                   (EvRun ["screen"; "-list"] (Return cp)
                    :: [EvRun ["screen"; "-S"; session_name; "-X"; "quit"]
                          (Return (0%Z, stdout))]
                       ++ [EvSleep 1] ++ [EvRun ["screen"; "-list"] out]))
      as Hquitted.
    { intros r Hr. by apply session_turn_quitted. }
    destruct out as [cp3|e]; simpl.
    2: { destruct e; simpl; try apply yields_ret; rewrite ?app_nil_r;
           apply Hquitted; try done; lia. }
    destruct (str_in session_name cp3.2); simpl; apply yields_ret;
      rewrite ?app_nil_r; apply Hquitted; lia.
  - (* the turns that follow *)
    intros n evs1 (Hev1 & Hsent1 & Hle1 & Hsl1 & Hn).
    eapply yields_mono; [apply (IH n)|].
    intros r evs2 (Hev2 & Hsent2 & Hle2 & Hsl2 & Hr).
    rewrite quit_sent_app, quitted_app, sleeps_app, !length_app. split_and!.
    + by apply Forall_app.
    + destruct Hsent1 as [->| ->]; simpl.
      * by apply sublist_cons.
      * by apply sublist_skip.
    + lia.
    + lia.
    + destruct r; [lia|done].
  - intros e evs1 (Hev1 & Hsent1 & Hle1 & Hsl1 & He). split_and!; try done.
    destruct Hsent1 as [->| ->]; [apply sublist_nil_l|]. simpl.
    apply sublist_skip, sublist_nil_l.
Qed.

(** X2: [stop_stream_sessions] sends [quit] to stream sessions 1 to
    [num_streams] only, to each at most once and in order, and sleeps one
    second after each [quit] that came back with status 0. The count it
    returns is at most the number of those [quit]s, so between 0 and
    [num_streams]; a [CalledProcessError] never escapes. *)
Theorem stop_stream_sessions_count (num_streams : Z) :
  yields (World:=World) (stop_stream_sessions num_streams) (λ r evs,
    Forall is_run_or_sleep evs
    ∧ quit_sent evs `sublist_of` stream_sessions num_streams
    ∧ sleeps evs = length (quitted evs)
    ∧ match r with
      | Return n =>
          (0 ≤ n ≤ Z.of_nat (length (quitted evs)))%Z ∧ (n ≤ Z.max 0 num_streams)%Z
      | Raise e => ∀ code, e ≠ CalledProcessError code
      end).
Proof.
  eapply yields_mono; [apply (stop_sessions_loop_spec (seqZ 1 num_streams) 0)|].
  intros r evs (Hev & Hsent & Hle & Hsl & Hr). split_and!; try done.
  destruct r as [n|]; [|done].
  apply sublist_length in Hsent. rewrite length_fmap, length_seqZ in Hsent. lia.
Qed.

Lemma last_listing_clear_last session_name evs ev :
  last evs = Some ev →
  last_listing_clear session_name evs
  ↔ ∃ cp, ev = EvRun listing (Return cp) ∧ str_in session_name cp.2 = false.
Proof.
  intros [evs0 ->]%last_Some. split.
  - intros (evs1 & cp & Heq & Hclear). apply app_inj_tail in Heq as [_ ->].
    by exists cp.
  - intros (cp & -> & Hclear). by exists evs0, cp.
Qed.

Lemma stop_file_mover_session_spec :
  yields (World:=World) stop_file_mover_session (λ r evs,
    Forall is_run_or_sleep evs
    ∧ (r = Return true ↔ last_listing_clear file_mover_session evs)
    ∧ (quit_sent evs = []
       ∨ quit_sent evs = [file_mover_session]
         ∧ ∃ cp evs', evs = EvRun listing (Return cp) :: evs'
                      ∧ str_in file_mover_session cp.2 = true)
    ∧ ∀ e, r = Raise e → e ≠ FileNotFoundError ∧ ∀ code, e ≠ CalledProcessError code).
Proof.
  match goal with |- yields _ ?P => set (Q := P) end.
  assert (∀ out r,
            match out with
            | Return cp => r = Return (negb (str_in file_mover_session cp.2))
            | Raise e =>
                match r with
                | Return b => b = false
                | Raise e' => e' ≠ FileNotFoundError ∧ ∀ code, e' ≠ CalledProcessError code
                end
            end →
            Q r [EvRun ["screen"; "-list"] out]) as Hlist.
  { intros out r Hr. split_and!; [runs_and_sleeps| |by left|].
    - rewrite last_listing_clear_last by done. split.
      + intros ->. destruct out as [cp|]; [|done]. exists cp. split; [done|].
        injection Hr as Hr. by apply negb_true_iff.
      + intros (cp & [= ->] & Hclear). by rewrite Hr, Hclear.
    - intros e ->. by destruct out. }
  assert (∀ cp out r,
            str_in file_mover_session cp.2 = true →
            (∀ stdout, out ≠ Return (0%Z, stdout)) →
            match r with
            | Return b => b = false
            | Raise e' => e' ≠ FileNotFoundError ∧ ∀ code, e' ≠ CalledProcessError code
            end →
            Q r [EvRun ["screen"; "-list"] (Return cp);
                 EvRun ["screen"; "-S"; file_mover_session; "-X"; "quit"] out])
    as Hrefused.
  { intros cp out r Hin Hout Hr. split_and!; [runs_and_sleeps| | |].
    - rewrite last_listing_clear_last by done. split.
      + intros ->. done.
      + by intros (? & [=] & _).
    - right. split; [|by eexists cp, _].
      cbn [quit_sent]. fold (quit file_mover_session). by rewrite quit_of_quit.
    - intros e ->. done. }
  assert (∀ cp stdout out r,
            str_in file_mover_session cp.2 = true →
            match out with
            | Return cp => r = Return (negb (str_in file_mover_session cp.2))
            | Raise e =>
                match r with
                | Return b => b = false
                | Raise e' => e' ≠ FileNotFoundError ∧ ∀ code, e' ≠ CalledProcessError code
                end
            end →
            Q r [EvRun ["screen"; "-list"] (Return cp);
                 EvRun ["screen"; "-S"; file_mover_session; "-X"; "quit"]
                   (Return (0%Z, stdout));
                 EvSleep 1; EvRun ["screen"; "-list"] out])
    as Hquitted.
  { intros cp stdout out r Hin Hr. split_and!; [runs_and_sleeps| | |].
    - rewrite last_listing_clear_last by done. split.
      + intros ->. destruct out as [cp3|]; [|done]. exists cp3. split; [done|].
        injection Hr as Hr. by apply negb_true_iff.
      + intros (cp3 & [= ->] & Hclear). by rewrite Hr, Hclear.
    - right. split; [|by eexists cp, _].
      cbn [quit_sent]. fold (quit file_mover_session). by rewrite quit_of_quit.
    - intros e ->. by destruct out. }
  clearbody Q.
  unfold stop_file_mover_session. apply yields_try_wp, yields_bind_wp.
  eapply yields_mono; [apply yields_run|]. intros r evs (out & -> & ->).
  destruct out as [cp|e]; simpl.
  2: { destruct e; simpl; try apply yields_ret; rewrite ?app_nil_r;
         by apply Hlist. }
  destruct (str_in file_mover_session cp.2) eqn:Ein; simpl.
  2: { apply yields_ret. apply Hlist. by rewrite Ein. }
  apply yields_bind_wp.
  eapply yields_mono; [apply yields_run|]. intros r evs (out & -> & ->).
  destruct out as [[code stdout]|e]; simpl.
  2: { destruct e; simpl; try apply yields_ret; rewrite ?app_nil_r;
         by apply Hrefused. }
  case_bool_decide as Hcode; simpl.
  2: { apply yields_ret. rewrite ?app_nil_r. apply Hrefused; try done.
       by intros ? [= ? ?]. }
  subst code. apply yields_bind_wp. eapply yields_mono; [apply yields_sleep|].
  intros r evs [-> ->]. apply yields_bind_wp.
  eapply yields_mono; [apply yields_run|]. intros r evs (out & -> & ->).
  destruct out as [cp3|e]; simpl.
  2: { destruct e; simpl; try apply yields_ret; rewrite ?app_nil_r;
         by apply Hquitted. }
  apply yields_ret. by apply Hquitted.
Qed.

(** X3: [stop_file_mover_session] returns [True] exactly when the last
    thing it did was to list the sessions and the listing did not mention
    the file mover. It sends [quit] at most once, to that session, and only
    after a listing that mentions it. No [CalledProcessError] or
    [FileNotFoundError] escapes. *)
Theorem stop_file_mover_session_verdict :
  yields (World:=World) stop_file_mover_session (λ r evs,
    Forall is_run_or_sleep evs
    ∧ (r = Return true ↔ last_listing_clear file_mover_session evs)
    ∧ (quit_sent evs = []
       ∨ quit_sent evs = [file_mover_session]
         ∧ ∃ cp evs', evs = EvRun listing (Return cp) :: evs'
                      ∧ str_in file_mover_session cp.2 = true)
    ∧ ∀ e, r = Raise e → e ≠ FileNotFoundError ∧ ∀ code, e ≠ CalledProcessError code).
Proof. exact stop_file_mover_session_spec. Qed.
End sessions.

Section mediamtx.
Import MediaMTXManager Outcome Mediamtx.
Context {World : Type} `{OS World}.

Lemma stop_mediamtx_spec :
  yields (World:=World) stop_mediamtx (λ r evs,
    (∃ o1 o2 o3 o4,
       evs `prefix_of` [EvRun pgrep o1; EvRun pkill_term o2; EvSleep 3;
                        EvRun pgrep o3; EvRun pkill_kill o4])
    ∧ (1 < length evs → found (evs !! 0))
    ∧ (4 < length evs → found (evs !! 3))
    ∧ (r = Return true ↔ Forall (λ ev, ¬ not_started ev) evs)
    ∧ ∀ e, r = Raise e → is_Exception e = false).
Proof.
  match goal with |- yields _ ?P => set (Q := P) end.
  set (verdict := λ (out : result (Z * string)) (r : result bool),
         match out with
         | Return _ => r = Return true
         | Raise e => r = if is_Exception e then Return false else Raise e
         end).
  assert (∀ evs0 argv out r o1 o2 o3 o4,
            evs0 ++ [EvRun argv out]
              `prefix_of` [EvRun pgrep o1; EvRun pkill_term o2; EvSleep 3;
                           EvRun pgrep o3; EvRun pkill_kill o4] →
            (1 < length (evs0 ++ [EvRun argv out]) →
             found ((evs0 ++ [EvRun argv out]) !! 0)) →
            (4 < length (evs0 ++ [EvRun argv out]) →
             found ((evs0 ++ [EvRun argv out]) !! 3)) →
            Forall (λ ev, ¬ not_started ev) evs0 →
            verdict out r →
            Q r (evs0 ++ [EvRun argv out])) as Hshape.
  { intros evs0 argv out r o1 o2 o3 o4 Hpre H1 H4 Hstarted Hr.
    split_and!; [by exists o1, o2, o3, o4|done|done| |].
    - rewrite Forall_app, Forall_singleton. split.
      + intros ->. split; [done|]. intros (? & e & [= _ ->]). simpl in Hr.
        by destruct (is_Exception e).
      + intros [_ Hout]. destruct out as [cp|e]; [done|].
        destruct Hout. by eexists _, _.
    - intros e ->. destruct out as [cp|e']; [done|]. simpl in Hr.
      destruct (is_Exception e') eqn:E; [done|]. by injection Hr as ->. }
  clearbody Q.
  pose (o := Raise OSError : result (Z * string)).
  assert (∀ evs, Forall (λ ev, ¬ not_started ev) evs ↔
                 Forall (λ ev, ∀ argv e, ev ≠ EvRun argv (Raise e)) evs) as Hstarted.
  { intros evs. apply Forall_proper; [|done]. intros ev. split.
    - intros Hev argv e ->. apply Hev. by eexists _, _.
    - intros Hev (argv & e & ->). by eapply Hev. }
  unfold stop_mediamtx. apply yields_try_wp, yields_bind_wp.
  eapply yields_mono; [apply yields_run|]. intros r evs (o1 & -> & ->).
  destruct o1 as [[code1 out1]|e]; simpl.
  2: { (* pgrep cannot be started *)
    destruct (is_Exception e) eqn:E; [apply yields_ret|]; rewrite ?app_nil_r.
    all: apply (Hshape [] _ _ _ (Raise e) o o o);
      [by eexists|simpl; lia|simpl; lia|done|simpl; by rewrite E]. }
  case_bool_decide as Hcode1; simpl.
  2: { (* no process *)
    apply yields_ret.
    apply (Hshape [] _ _ _ (Return (code1, out1)) o o o);
      [by eexists|simpl; lia|simpl; lia|done|done]. }
  subst code1. apply yields_bind_wp.
  eapply yields_mono; [apply yields_run|]. intros r evs (o2 & -> & ->).
  destruct o2 as [cp2|e]; simpl.
  2: { (* pkill -TERM cannot be started *)
    destruct (is_Exception e) eqn:E; [apply yields_ret|]; rewrite ?app_nil_r.
    all: apply (Hshape [_] _ _ _ (Return (0%Z, out1)) (Raise e) o o);
      [by eexists|intros _; by eexists|simpl; lia
      |apply Hstarted; by repeat constructor|simpl; by rewrite E]. }
  apply yields_bind_wp. eapply yields_mono; [apply yields_sleep|].
  intros r evs [-> ->]. apply yields_bind_wp.
  eapply yields_mono; [apply yields_run|]. intros r evs (o3 & -> & ->).
  destruct o3 as [[code3 out3]|e]; simpl.
  2: { (* the second pgrep cannot be started *)
    destruct (is_Exception e) eqn:E; [apply yields_ret|]; rewrite ?app_nil_r.
    all: apply (Hshape [_; _; _] _ _ _ (Return (0%Z, out1)) (Return cp2) (Raise e) o);
      [by eexists|intros _; by eexists|simpl; lia
      |apply Hstarted; by repeat constructor|simpl; by rewrite E]. }
  case_bool_decide as Hcode3; simpl.
  2: { (* the process is gone *)
    apply yields_bind_wp, yields_ret. apply yields_ret. rewrite ?app_nil_r.
    apply (Hshape [_; _; _] _ _ _ (Return (0%Z, out1)) (Return cp2)
             (Return (code3, out3)) o);
      [by eexists|intros _; by eexists|simpl; lia
      |apply Hstarted; by repeat constructor|done]. }
  subst code3. apply yields_bind_wp, yields_bind_wp.
  eapply yields_mono; [apply yields_run|]. intros r evs (o4 & -> & ->).
  destruct o4 as [cp4|e]; simpl.
  2: { (* pkill -9 cannot be started *)
    destruct (is_Exception e) eqn:E; [apply yields_ret|]; rewrite ?app_nil_r.
    all: apply (Hshape [_; _; _; _] _ _ _ (Return (0%Z, out1)) (Return cp2)
                  (Return (0%Z, out3)) (Raise e));
      [by eexists|intros _; by eexists|intros _; by eexists
      |apply Hstarted; by repeat constructor|simpl; by rewrite E]. }
  apply yields_ret, yields_ret. rewrite ?app_nil_r.
  apply (Hshape [_; _; _; _] _ _ _ (Return (0%Z, out1)) (Return cp2)
           (Return (0%Z, out3)) (Return cp4));
    [by eexists|intros _; by eexists|intros _; by eexists
    |apply Hstarted; by repeat constructor|done].
Qed.

(** X4: [stop_mediamtx] runs a prefix of: [pgrep], [pkill -TERM], a sleep
    of 3 seconds, [pgrep], [pkill -9]. It goes past the first [pgrep], and
    so signals, only if that found a process, and sends [-9] only if the
    second [pgrep] still found one. It returns [True] exactly when every
    program could be started, whatever their statuses: after [pkill -9]
    nothing is checked. No exception of Python escapes. *)
Theorem stop_mediamtx_verdict :
  yields (World:=World) stop_mediamtx (λ r evs,
    (∃ o1 o2 o3 o4,
       evs `prefix_of` [EvRun pgrep o1; EvRun pkill_term o2; EvSleep 3;
                        EvRun pgrep o3; EvRun pkill_kill o4])
    ∧ (1 < length evs → found (evs !! 0))
    ∧ (4 < length evs → found (evs !! 3))
    ∧ (r = Return true ↔ Forall (λ ev, ¬ not_started ev) evs)
    ∧ ∀ e, r = Raise e → is_Exception e = false).
Proof. exact stop_mediamtx_spec. Qed.

End mediamtx.

(** * Finding the processes of the streams *)

Section process_maps.
Import ProcessManager Table Outcome Examples.
Context {World : Type} `{OS World}.

Lemma parse_ps_line_consistent line maps :
  consistent maps → consistent (parse_ps_line line maps).
Proof.
  intros [Hcmd Hchild]. unfold parse_ps_line. destruct maps as [children cmds].
  simpl in *. case_decide; [done|].
  destruct (split_none 2 "" (strip line)) as [|p0 [|p1 rest]]; try done.
  destruct (int p0) as [pid_val|]; [|done].
  destruct (int p1) as [ppid_val|]; [|done].
  split; simpl.
  - intros ppid pid. unfold get_children at 1.
    destruct (decide (ppid = ppid_val)) as [->|Hne].
    + rewrite lookup_insert_eq. simpl. rewrite elem_of_app, list_elem_of_singleton.
      intros [Hin| ->].
      * destruct (decide (pid = pid_val)) as [->|Hp];
          [by rewrite lookup_insert_eq|].
        rewrite lookup_insert_ne by done. by eapply Hcmd.
      * by rewrite lookup_insert_eq.
    + rewrite lookup_insert_ne by done. intros Hin.
      destruct (decide (pid = pid_val)) as [->|Hp];
        [by rewrite lookup_insert_eq|].
      rewrite lookup_insert_ne by done. by eapply Hcmd.
  - intros pid. destruct (decide (pid = pid_val)) as [->|Hp].
    + intros _. exists ppid_val. unfold get_children at 1.
      rewrite lookup_insert_eq. simpl. apply elem_of_app. right. by left.
    + rewrite lookup_insert_ne by done. intros [ppid Hin]%Hchild.
      exists ppid. unfold get_children at 1.
      destruct (decide (ppid = ppid_val)) as [->|Hne].
      * rewrite lookup_insert_eq. simpl. apply elem_of_app. by left.
      * by rewrite lookup_insert_ne.
Qed.

Lemma maps_of_consistent out : consistent (maps_of out).
Proof.
  assert (consistent (∅, ∅)) as Hempty.
  { split; simpl.
    - intros ppid pid. unfold get_children. rewrite lookup_empty. simpl.
      by intros ?%elem_of_nil.
    - intros pid. rewrite lookup_empty. by intros [? ?]. }
  unfold maps_of. destruct out as [[[| |] stdout]|]; try done.
  generalize (split_on LF stdout). intros lines.
  revert Hempty. generalize ((∅, ∅) : gmap Z (list Z) * gmap Z string).
  induction lines as [|line lines IH]; intros maps Hmaps; simpl; [done|].
  by apply IH, parse_ps_line_consistent.
Qed.

Lemma build_process_maps_spec :
  yields (World:=World) _build_process_maps (λ r evs,
    ∃ out, evs = [EvRun ps_argv out]
      ∧ match r with
        | Return maps => maps = maps_of out
        | Raise e => out = Raise e ∧ ∀ code, e ≠ CalledProcessError code
        end).
Proof.
  unfold _build_process_maps. apply yields_try_wp, yields_bind_wp.
  eapply yields_mono; [apply yields_run|]. intros r evs (out & -> & ->).
  destruct out as [[code stdout]|e]; simpl.
  - case_bool_decide as Hcode; simpl.
    + subst code. apply yields_ret. by eexists.
    + apply yields_ret. eexists. split; [done|]. by destruct code.
  - destruct e; simpl; try (eexists; by split_and!).
    apply yields_ret. by eexists.
Qed.

(** X5: [_build_process_maps] makes one call, [ps]. The two maps it
    returns agree: every PID listed as a child has a command line, so the
    default of [pid_to_cmd.get(pid, '')] is never used for a descendant,
    and every PID with a command line is listed under a parent. Both maps
    are empty unless [ps] exited with status 0. *)
Theorem build_process_maps_consistent :
  yields (World:=World) _build_process_maps (λ r evs,
    ∃ out, evs = [EvRun ps_argv out]
      ∧ match r with
        | Return maps =>
            consistent maps
            ∧ ((∀ stdout, out ≠ Return (0%Z, stdout)) → maps = (∅, ∅))
        | Raise e => out = Raise e ∧ ∀ code, e ≠ CalledProcessError code
        end).
Proof.
  eapply yields_mono; [apply build_process_maps_spec|].
  intros r evs (out & -> & Hr). exists out. split; [done|].
  destruct r as [maps|e]; [|done]. subst maps. split.
  - apply maps_of_consistent.
  - intros Hout. destruct out as [[[| |] stdout]|]; try done. by destruct (Hout stdout).
Qed.
End process_maps.

Section selection.
Import ProcessManager Table Tree Outcome Examples.
Context {World : Type} `{OS World}.

Lemma key_gtb_outranks a b : key_gtb a b = true ↔ outranks (key a) (key b).
Proof.
  unfold key_gtb, outranks, key. simpl.
  rewrite orb_true_iff, andb_true_iff, !Z.ltb_lt, Z.eqb_eq. done.
Qed.

Lemma insert_desc_elem x y l : y ∈ insert_desc x l ↔ y = x ∨ y ∈ l.
Proof.
  induction l as [|z l IH]; simpl.
  - rewrite list_elem_of_singleton, elem_of_nil. tauto.
  - destruct (key_gtb z x); rewrite !elem_of_cons, ?IH; tauto.
Qed.

Lemma sort_desc_elem y l : y ∈ sort_desc l ↔ y ∈ l.
Proof.
  induction l as [|x l IH]; simpl; [done|].
  by rewrite insert_desc_elem, IH, elem_of_cons.
Qed.

Lemma insert_desc_top x l : top_first l → top_first (insert_desc x l).
Proof.
  destruct l as [|y l]; simpl.
  - intros _ c' ->%list_elem_of_singleton. unfold outranks. lia.
  - intros Htop. destruct (key_gtb y x) eqn:E.
    + apply key_gtb_outranks in E. intros c'.
      rewrite elem_of_cons, insert_desc_elem.
      intros [->|[->|Hin]].
      * unfold outranks. lia.
      * unfold outranks in *. lia.
      * apply Htop. by right.
    + assert (¬ outranks (key y) (key x)) as Hyx.
      { intros Hout%key_gtb_outranks. congruence. }
      intros c'. rewrite elem_of_cons. intros [->|Hin].
      * unfold outranks. lia.
      * specialize (Htop c' Hin). unfold outranks in *. lia.
Qed.

Lemma sort_desc_top l : top_first (sort_desc l).
Proof. induction l as [|x l IH]; simpl; [done|]. by apply insert_desc_top. Qed.

(** The loop over the sorted candidates returns the first one, if it
    returns at all: were the first score not positive, none would be. *)
Lemma find_positive_is_head c l c' :
  top_first (c :: l) →
  List.find (λ c, (0 <? c_score c)%Z) (c :: l) = Some c' → c' = c.
Proof.
  intros Htop. simpl. destruct (0 <? c_score c)%Z eqn:E; [by intros [= ->]|].
  apply Z.ltb_ge in E. intros Hfind. apply find_some in Hfind as [Hin Hpos].
  apply Z.ltb_lt in Hpos. apply list_elem_of_In in Hin.
  exfalso. apply (Htop c'); [by right|]. unfold outranks, key. simpl. lia.
Qed.

Lemma select_target_spec (screen_pid : Z) :
  yields (World:=World) (_select_target_child_pid screen_pid) (λ r evs,
    ∃ out, evs = [EvRun ps_argv out]
      ∧ match r with
        | Return target =>
            ∃ depth_map,
              _collect_descendants_with_depth screen_pid (maps_of out).1
              = Some depth_map
              ∧ match target with
                | Some pid =>
                    pid ≠ screen_pid
                    ∧ (∃ n, walk (maps_of out).1 screen_pid pid n)
                    ∧ ∃ depth, (pid, depth) ∈ depth_map
                        ∧ ∀ pid' depth', (pid', depth') ∈ depth_map →
                            ¬ outranks (score_of (maps_of out).2 pid', depth')
                                       (score_of (maps_of out).2 pid, depth)
                | None => ∀ pid n, walk (maps_of out).1 screen_pid pid n →
                                   pid = screen_pid
                end
        | Raise e => out = Raise e ∧ ∀ code, e ≠ CalledProcessError code
        end).
Proof.
  unfold _select_target_child_pid.
  eapply yields_bind; [apply build_process_maps_spec| |].
  2: { intros e evs1 (out & -> & Hout). by exists out. }
  intros maps evs1 (out & -> & ->).
  destruct (maps_of out) as [ppid_to_children pid_to_cmd] eqn:Emaps. simpl.
  destruct (collect_descendants_with_depth_spec ppid_to_children screen_pid)
    as (dm & Hdm & Hnd & Hkeys & Hdepth).
  rewrite Hdm. destruct dm as [|entry dm].
  { apply yields_ret. exists out. split; [done|]. exists []. rewrite Emaps.
    split; [done|]. simpl. intros pid n Hwalk. destruct (decide (pid = screen_pid)) as [|Hne]; [done|].
    assert (pid ∈ ([] : list (Z * Z)).*1) as Hin by (apply Hkeys; eauto).
    by apply elem_of_nil in Hin. }
  set (make := λ '(pid, depth),
         let cmd := default "" (pid_to_cmd !! pid) in
         Candidate pid (score_cmdline cmd) depth cmd).
  set (candidates := sort_desc (make <$> entry :: dm)).
  assert (∀ c, c ∈ candidates ↔ ∃ pid depth, (pid, depth) ∈ entry :: dm
                                  ∧ c = make (pid, depth)) as Hcand.
  { intros c. unfold candidates. rewrite sort_desc_elem, list_elem_of_fmap.
    split.
    - intros ([pid depth] & -> & Hin). by exists pid, depth.
    - intros (pid & depth & Hin & ->). by exists (pid, depth). }
  pose proof (sort_desc_top (make <$> entry :: dm)) as Htop.
  fold candidates in Htop.
  assert (∃ c l, candidates = c :: l) as (c & l & Ecand).
  { destruct candidates as [|c l] eqn:E; [|by eauto].
    assert (make entry ∈ ([] : list candidate)) as Hin.
    { apply Hcand. destruct entry as [pid depth]. exists pid, depth.
      split; [by left|done]. }
    by apply elem_of_nil in Hin. }
  assert (yields (World:=World) (ret (Some (c_pid c)))
            (λ r evs2, ∃ out0, [EvRun ps_argv out] ++ evs2 = [EvRun ps_argv out0]
               ∧ match r with
                 | Return target =>
                     ∃ depth_map,
                       _collect_descendants_with_depth screen_pid (maps_of out0).1
                       = Some depth_map
                       ∧ match target with
                         | Some pid =>
                             pid ≠ screen_pid
                             ∧ (∃ n, walk (maps_of out0).1 screen_pid pid n)
                             ∧ ∃ depth, (pid, depth) ∈ depth_map
                                 ∧ ∀ pid' depth', (pid', depth') ∈ depth_map →
                                     ¬ outranks (score_of (maps_of out0).2 pid', depth')
                                                (score_of (maps_of out0).2 pid, depth)
                         | None => ∀ pid n, walk (maps_of out0).1 screen_pid pid n →
                                            pid = screen_pid
                         end
                 | Raise e => out0 = Raise e ∧ ∀ code, e ≠ CalledProcessError code
                 end)) as Hret.
  { apply yields_ret. exists out. split; [done|]. exists (entry :: dm).
    rewrite Emaps. split; [done|]. simpl.
    assert (c ∈ candidates) as Hc by (rewrite Ecand; by left).
    apply Hcand in Hc as (pid & depth & Hin & ->). simpl.
    assert (pid ∈ (entry :: dm).*1) as Hkey.
    { apply list_elem_of_fmap. by exists (pid, depth). }
    apply Hkeys in Hkey as [Hne Hwalk]. split_and!; [done|done|].
    exists depth. split; [done|]. intros pid' depth' Hin'.
    assert (make (pid', depth') ∈ candidates) as Hin2.
    { apply Hcand. by exists pid', depth'. }
    rewrite Ecand in Htop, Hin2. exact (Htop _ Hin2). }
  change (match entry :: dm with [] => ret None | _ :: _ => ?k end) with k.
  fold make. fold candidates.
  destruct (List.find (λ c, (0 <? c_score c)%Z) candidates) as [c'|] eqn:Efind.
  - rewrite Ecand in Efind, Htop.
    apply find_positive_is_head in Efind; [|done]. by subst c'.
  - by rewrite Ecand.
Qed.

(** X6: [_select_target_child_pid] makes one call, [ps], and raises only
    what that call raised, if not [CalledProcessError]. The PID it returns
    is a descendant of the screen PID in the process table, other than the
    screen PID itself, and one that no descendant outranks in
    [(score, depth)] order, scores first: also when no score is positive.
    It returns [None] only when the screen PID has no descendant. *)
Theorem select_target_is_top_descendant (screen_pid : Z) :
  yields (World:=World) (_select_target_child_pid screen_pid) (λ r evs,
    ∃ out, evs = [EvRun ps_argv out]
      ∧ match r with
        | Return target =>
            ∃ depth_map,
              _collect_descendants_with_depth screen_pid (maps_of out).1
              = Some depth_map
              ∧ match target with
                | Some pid =>
                    pid ≠ screen_pid
                    ∧ (∃ n, walk (maps_of out).1 screen_pid pid n)
                    ∧ ∃ depth, (pid, depth) ∈ depth_map
                        ∧ ∀ pid' depth', (pid', depth') ∈ depth_map →
                            ¬ outranks (score_of (maps_of out).2 pid', depth')
                                       (score_of (maps_of out).2 pid, depth)
                | None => ∀ pid n, walk (maps_of out).1 screen_pid pid n →
                                   pid = screen_pid
                end
        | Raise e => out = Raise e ∧ ∀ code, e ≠ CalledProcessError code
        end).
Proof. exact (select_target_spec screen_pid). Qed.
End selection.

Section scores.
Import ProcessManager Table.

Lemma prefix_app_l (a b s : string) :
  String.prefix (a +:+ b) s = true → String.prefix a s = true.
Proof.
  revert s. induction a as [|c a IH]; intros s; [by destruct s|].
  change (String c a +:+ b) with (String c (a +:+ b)).
  destruct s as [|c' s]; simpl; [done|]. destruct (Ascii.ascii_dec c c'); [|done].
  apply IH.
Qed.

Lemma str_in_app_l (a b hay : string) :
  str_in (a +:+ b) hay = true → str_in a hay = true.
Proof.
  induction hay as [|c hay IH]; cbn [str_in].
  - rewrite !orb_false_r. apply prefix_app_l.
  - rewrite !orb_true_iff. intros [Hp|Hin]; [left; by eapply prefix_app_l|].
    right. by apply IH.
Qed.

(** X7: the score of a command line lies between -500 and 210; it is
    positive only if the command line mentions [run.py], [python] or the
    word [uv]; and the test for [python3] never changes it, every command
    line that mentions [python3] mentioning [python]. *)
Theorem score_cmdline_range (cmd : string) :
  (-500 ≤ score_cmdline cmd ≤ 210)%Z
  ∧ ((0 < score_cmdline cmd)%Z →
     str_in "run.py" cmd = true ∨ str_in "python" cmd = true
     ∨ str_in " uv " (" " +:+ cmd +:+ " ") = true)
  ∧ (str_in "python" cmd || str_in "python3" cmd) = str_in "python" cmd.
Proof.
  assert ((str_in "python" cmd || str_in "python3" cmd) = str_in "python" cmd)
    as Hpython.
  { destruct (str_in "python" cmd) eqn:E; [done|]. simpl.
    destruct (str_in "python3" cmd) eqn:E3; [|done].
    apply (str_in_app_l "python" "3") in E3. congruence. }
  split; [|split; [|done]].
  - unfold score_cmdline. rewrite Hpython. cbn [foldl].
    repeat match goal with
           | |- context [if ?b then _ else _] => destruct b
           end; lia.
  - unfold score_cmdline. rewrite Hpython. cbn [foldl].
    destruct (str_in "run.py" cmd); [by left|].
    destruct (str_in "python" cmd); [right; by left|].
    destruct (str_in " uv " (" " +:+ cmd +:+ " ")); [right; by right|].
    repeat match goal with
           | |- context [if ?b then _ else _] => destruct b
           end; lia.
Qed.
End scores.

Section stream_pids.
Import ProcessManager Table Outcome Examples.
Context {World : Type} `{OS World}.

(** One line of the listing: at most one [ps], and only for the line of a
    stream session; at most one PID more, which is not 0. *)
Lemma rtsp_line_spec line child_pids :
  yields (World:=World) (rtsp_line line child_pids) (λ r evs,
    Forall is_ps evs
    ∧ (length evs ≤ length (List.filter names_stream [line]))%nat
    ∧ match r with
      | Return (GoOn pids) | Return (LeftTry pids) =>
          pids = child_pids
          ∨ ∃ pid, pid ≠ 0%Z ∧ pids = child_pids ++ [pid] ∧ length evs = 1
      | Raise e => is_Exception e = false ∧ ends_raising e evs
      end).
Proof.
  unfold rtsp_line. cbn [List.filter]. fold (names_stream line).
  destruct (names_stream line); simpl.
  2: { apply yields_ret. split_and!; [done|simpl; lia|by left]. }
  destruct (split_on "." line) as [|p0 [|p1 rest]];
    try (apply yields_ret; split_and!; [done|simpl; lia|by left]).
  apply yields_try_wp, yields_try_wp.
  destruct (int (strip p0)) as [screen_pid|].
  2: { apply yields_raise. simpl. apply yields_ret.
       split_and!; [done|simpl; lia|by left]. }
  apply yields_bind_wp.
  eapply yields_mono; [apply select_target_spec|].
  intros r evs (out & -> & Hr).
  assert (Forall is_ps [EvRun ps_argv out]) as Hps.
  { apply Forall_singleton. by exists out. }
  destruct r as [[target|]|e].
  - destruct (decide (target = 0%Z)); apply yields_ret; rewrite ?app_nil_r;
      (split_and!; [done|simpl; lia|]); [by left|].
    right. by exists target.
  - apply yields_ret. rewrite ?app_nil_r. split_and!; [done|simpl; lia|by left].
  - destruct Hr as [-> Hcode].
    assert (ends_raising e [EvRun ps_argv (Raise e)]) as Hends
      by (by exists [], ps_argv).
    destruct e as [| | | |code| |]; simpl; try (by destruct (Hcode code));
      try apply yields_ret; rewrite ?app_nil_r;
      (split; [done|split; [simpl; lia|]]); try (by left); done.
Qed.

Lemma ends_raising_app e evs1 evs2 : ends_raising e evs2 → ends_raising e (evs1 ++ evs2).
Proof.
  intros (evs0 & argv & ->). exists (evs1 ++ evs0), argv. by rewrite app_assoc.
Qed.

Lemma rtsp_lines_spec lines child_pids :
  yields (World:=World) (rtsp_lines lines child_pids) (λ r evs,
    Forall is_ps evs
    ∧ (length evs ≤ length (List.filter names_stream lines))%nat
    ∧ match r with
      | Return pids =>
          ∃ more, pids = child_pids ++ more ∧ (0%Z ∉ more)
                  ∧ (length more ≤ length evs)%nat
      | Raise e => is_Exception e = false ∧ ends_raising e evs
      end).
Proof.
  revert child_pids. induction lines as [|line lines IH]; intros child_pids;
    cbn [rtsp_lines].
  { apply yields_ret. split_and!; [done|simpl; lia|].
    exists []. rewrite app_nil_r. split_and!; [done|apply not_elem_of_nil|done]. }
  assert (length (List.filter names_stream (line :: lines))
          = length (List.filter names_stream [line])
            + length (List.filter names_stream lines)) as Hlen.
  { change (line :: lines) with ([line] ++ lines).
    by rewrite List.filter_app, length_app. }
  rewrite Hlen. clear Hlen.
  eapply yields_bind; [apply rtsp_line_spec| |].
  2: { intros e evs1 (Hps & Hlen & He). split; [done|]. split; [lia|done]. }
  intros step evs1 (Hps1 & Hlen1 & Hstep).
  assert (∃ pids more1, (step = GoOn pids ∨ step = LeftTry pids)
                        ∧ pids = child_pids ++ more1 ∧ (0%Z ∉ more1)
                        ∧ (length more1 ≤ length evs1)%nat)
    as (pids & more1 & Hshape & -> & Hzero1 & Hmore1).
  { assert (∀ pids, (pids = child_pids
                     ∨ ∃ pid, pid ≠ 0%Z ∧ pids = child_pids ++ [pid]
                              ∧ length evs1 = 1) →
                    ∃ more1, pids = child_pids ++ more1 ∧ (0%Z ∉ more1)
                             ∧ (length more1 ≤ length evs1)%nat) as Hmore.
    { intros pids [->|(pid & Hpid & -> & Hone)].
      - exists []. rewrite app_nil_r. split_and!; [done|apply not_elem_of_nil|simpl; lia].
      - exists [pid]. split_and!; [done| |simpl; lia].
        intros Hin%list_elem_of_singleton. by subst pid. }
    destruct step as [pids|pids]; destruct (Hmore pids Hstep) as (more1 & ?);
      exists pids, more1; split; auto. }
  destruct Hshape as [-> | ->].
  - eapply yields_mono; [apply IH|].
    intros r evs2 (Hps2 & Hlen2 & Hr). rewrite length_app.
    split; [by apply Forall_app|]. split; [lia|].
    destruct r as [pids|e].
    + destruct Hr as (more2 & -> & Hzero2 & Hmore2). exists (more1 ++ more2).
      rewrite length_app, app_assoc. split_and!; [done| |lia].
      rewrite elem_of_app. tauto.
    + destruct Hr as [He Hends]. split; [done|]. by apply ends_raising_app.
  - apply yields_ret. rewrite app_nil_r. split_and!; [done|lia|].
    by exists more1.
Qed.

Lemma get_rtsp_stream_pids_spec :
  yields (World:=World) get_rtsp_stream_pids (λ r evs,
    ∃ out evs', evs = EvRun ["screen"; "-list"] out :: evs'
      ∧ Forall is_ps evs'
      ∧ (length evs' ≤ length (stream_lines out))%nat
      ∧ match r with
        | Return pids => (0%Z ∉ pids) ∧ (length pids ≤ length evs')%nat
        | Raise e => is_Exception e = false ∧ ends_raising e evs
        end).
Proof.
  unfold get_rtsp_stream_pids. apply yields_bind_wp, yields_try_wp, yields_bind_wp.
  eapply yields_mono; [apply yields_run|]. intros r evs (out & -> & ->).
  assert (∀ e, ends_raising e [EvRun ["screen"; "-list"] (Raise e)]) as Hends.
  { intros e. by exists [], ["screen"; "-list"]. }
  assert (stream_lines out = [] →
          yields (World:=World) (ret [])
            (λ r evs2, ∃ out0 evs',
               [EvRun ["screen"; "-list"] out] ++ evs2
               = EvRun ["screen"; "-list"] out0 :: evs'
               ∧ Forall is_ps evs'
               ∧ (length evs' ≤ length (stream_lines out0))%nat
               ∧ match r with
                 | Return pids => (0%Z ∉ pids) ∧ (length pids ≤ length evs')%nat
                 | Raise e =>
                     is_Exception e = false
                     ∧ ends_raising e ([EvRun ["screen"; "-list"] out] ++ evs2)
                 end)) as Hnone.
  { intros Hlines. apply yields_ret. exists out, []. rewrite Hlines.
    split_and!; [done|done|done|apply not_elem_of_nil|done]. }
  destruct out as [[code stdout]|e]; simpl.
  2: { destruct (is_Exception e) eqn:E; simpl.
       - apply yields_ret. rewrite ?app_nil_r. by apply Hnone.
       - exists (Raise e), []. by split_and!. }
  case_bool_decide as Hcode; simpl.
  2: { apply yields_ret. rewrite ?app_nil_r. apply Hnone. by destruct code. }
  subst code. apply yields_ret. rewrite ?app_nil_r.
  eapply yields_mono; [apply rtsp_lines_spec|].
  intros r evs2 (Hps & Hlen & Hr). exists (Return (0%Z, stdout)), evs2.
  split_and!; [done|done|done|]. destruct r as [pids|e].
  - destruct Hr as (more & -> & Hzero & Hmore). done.
  - destruct Hr as [He Hends2]. split; [done|].
    by apply (ends_raising_app _ [_]).
Qed.

(** X8: [get_rtsp_stream_pids] lists the sessions once, then runs [ps], at
    most once for each line of a stream session in a listing that came
    back with status 0, and not at all otherwise. It returns at most one
    PID for each [ps] it ran, and never PID 0. No exception of Python
    escapes it, and the traversal of the process table always ends. *)
Theorem get_rtsp_stream_pids_total :
  yields (World:=World) get_rtsp_stream_pids (λ r evs,
    ∃ out evs', evs = EvRun ["screen"; "-list"] out :: evs'
      ∧ Forall is_ps evs'
      ∧ (length evs' ≤ length (stream_lines out))%nat
      ∧ match r with
        | Return pids => (0%Z ∉ pids) ∧ (length pids ≤ length evs')%nat
        | Raise e => is_Exception e = false ∧ ends_raising e evs
        end).
Proof. exact get_rtsp_stream_pids_spec. Qed.

(** X9: [get_screen_child_pid] makes one call, [ps --ppid] with the screen
    PID, and lets no exception of Python escape, a missing [ps] included.
    It returns a PID only when [ps] exited with status 0 and printed
    something other than white space, and the PID is then the integer on
    the first line. *)
Theorem get_screen_child_pid_first_line (screen_pid : Z) :
  yields (World:=World) (get_screen_child_pid screen_pid) (λ r evs,
    ∃ out, evs = [EvRun (ps_children screen_pid) out]
      ∧ match r with
        | Return (Some child_pid) =>
            ∃ stdout, out = Return (0%Z, stdout) ∧ strip stdout ≠ ""
                      ∧ int (first_line stdout) = Some child_pid
        | Return None => True
        | Raise e => is_Exception e = false ∧ out = Raise e
        end).
Proof.
  unfold get_screen_child_pid. apply yields_try_wp, yields_bind_wp.
  eapply yields_mono; [apply yields_run|]. intros r evs (out & -> & ->).
  fold (ps_children screen_pid).
  destruct out as [[code stdout]|e]; simpl.
  - case_bool_decide as Hcode; simpl; [|apply yields_ret; by eexists].
    subst code. destruct (strip stdout) as [|c rest] eqn:Estrip.
    + apply yields_ret. by eexists.
    + destruct (int _) as [child_pid|] eqn:Eint.
      * apply yields_ret. eexists. split; [done|]. exists stdout.
        split; [done|]. rewrite Estrip. split; [done|].
        unfold first_line. by rewrite Estrip.
      * apply yields_raise. simpl. apply yields_ret. by eexists.
  - destruct (is_Exception e) eqn:E; [apply yields_ret|]; by eexists.
Qed.
End stream_pids.

Local Close Scope string_scope.

(** * The two traversals on any process table *)

Section agreement.
Import ProcessManager Tree Distance.
Variable m : gmap Z (list Z).

Lemma for_children_agree depth cs p d :
  agree p d → agree (plain_for_children cs p) (for_children depth cs d).
Proof.
  revert p d. induction cs as [|c cs IH]; intros p d Hag; simpl; [done|].
  destruct Hag as (Hd & Hq & Hs & Hk). rewrite Hs.
  case_decide as Hin; [by apply IH|]. apply IH. repeat split; simpl.
  - rewrite dict_set_fresh by (intros Hc; by apply Hin, Hk).
    by rewrite fmap_app, Hd.
  - by rewrite fmap_app, Hq.
  - intros k. rewrite dict_set_fresh by (intros Hc; by apply Hin, Hk).
    rewrite fmap_app, elem_of_app, elem_of_union. simpl.
    rewrite list_elem_of_singleton, elem_of_singleton. intros [?|?]; auto.
Qed.

Lemma while_agree fuel p d :
  agree p d →
  match plain_while fuel m p, while_queue fuel m d with
  | Some p', Some d' => agree p' d'
  | None, None => True
  | _, _ => False
  end.
Proof.
  revert p d. induction fuel as [|fuel IH]; intros p d Hag; simpl.
  - pose proof Hag as (Hd & Hq & Hs & Hk). rewrite Hq.
    destruct (queue d); simpl; done.
  - pose proof Hag as (Hd & Hq & Hs & Hk). rewrite Hq.
    destruct (queue d) as [|[current depth] q] eqn:Eq; simpl; [done|].
    apply IH. unfold plain_turn, turn. rewrite Hq, Eq. simpl.
    apply for_children_agree. by repeat split.
Qed.

Lemma collect_descendants_keys (root_pid : Z) :
  _collect_descendants root_pid m
  = (λ depth_map : list (Z * Z), depth_map.*1)
      <$> _collect_descendants_with_depth root_pid m.
Proof.
  unfold _collect_descendants, _collect_descendants_with_depth.
  pose proof (while_agree (turns m)
                {| descendants := []; p_queue := [root_pid]; p_seen := {[root_pid]} |}
                {| depth_map := []; queue := [(root_pid, 0%Z)]; seen := {[root_pid]} |})
    as Hrun.
  destruct (plain_while _ _ _) as [p'|], (while_queue _ _ _) as [d'|];
    simpl; try done.
  - destruct Hrun as (Hd & _); [|by rewrite Hd].
    repeat split; simpl; try done. intros k Hk. by apply elem_of_nil in Hk.
  - destruct Hrun. repeat split; simpl; try done.
    intros k Hk. by apply elem_of_nil in Hk.
  - destruct Hrun. repeat split; simpl; try done.
    intros k Hk. by apply elem_of_nil in Hk.
Qed.

(** X10: the two traversals agree on every children map and every root:
    [_collect_descendants] returns the keys of the dictionary that
    [_collect_descendants_with_depth] returns, in the order in which they
    were inserted. *)
Theorem collect_descendants_agree (root_pid : Z) :
  _collect_descendants root_pid m
  = (λ depth_map : list (Z * Z), depth_map.*1)
      <$> _collect_descendants_with_depth root_pid m.
Proof. exact (collect_descendants_keys root_pid). Qed.

(** X11: on every children map, with cycles or PIDs under several parents
    too, [_collect_descendants] returns the PIDs that a walk from the root
    reaches, the root itself left out, each of them once. *)
Theorem collect_descendants_reachable (root_pid : Z) :
  ∃ descendants,
    _collect_descendants root_pid m = Some descendants
    ∧ NoDup descendants
    ∧ ∀ pid, pid ∈ descendants ↔ pid ≠ root_pid ∧ ∃ n, walk m root_pid pid n.
Proof.
  destruct (collect_descendants_with_depth_spec m root_pid)
    as (dm & Hrun & Hnd & Hkeys & _).
  exists dm.*1. rewrite collect_descendants_keys, Hrun. by split_and!.
Qed.
End agreement.

Section distance.
Import ProcessManager Tree Distance.
Variable m : gmap Z (list Z).
Variable root : Z.

Lemma has_depth_unique frontier st v d1 d2 :
  dist_inv m root frontier st →
  has_depth root st v d1 → has_depth root st v d2 → d1 = d2.
Proof.
  intros [_ Hnd Hroot _ _ _] [[-> ->]|Hin1] [[? ->]|Hin2]; try done.
  - destruct Hroot. apply list_elem_of_fmap. by exists (root, d2).
  - subst v. destruct Hroot. apply list_elem_of_fmap. by exists (root, d1).
  - apply (dict_get_elem _ _ _ Hnd) in Hin1, Hin2. congruence.
Qed.

(** The depths of a frontier that starts with the current PID. *)
Lemma levels_head (u : Z) (d : Z) (q : list (Z * Z)) lo a b :
  ((u, d) :: q).*2 = replicate a lo ++ replicate b (lo + 1)%Z → 0 < a → d = lo.
Proof. destruct a as [|a]; [lia|]. simpl. by intros [= -> _]. Qed.

Lemma dist_inv_enqueue u d c st :
  c ∉ seen st →
  dist_inv m root ((u, d) :: queue st) st →
  dist_inv m root
    ((u, d) :: queue st ++ [(c, (d + 1)%Z)])
    {| depth_map := dict_set c (d + 1)%Z (depth_map st);
       queue := queue st ++ [(c, (d + 1)%Z)];
       seen := {[c]} ∪ seen st |}.
Proof.
  intros Hfresh Hinv. pose proof Hinv as [Hseen Hnd Hroot Hlev Hfr Hdone].
  assert (c ∉ (depth_map st).*1) as Hkey.
  { intros Hk. apply Hfresh, Hseen. by right. }
  assert (c ≠ root) as Hne.
  { intros ->. apply Hfresh, Hseen. by left. }
  rewrite (dict_set_fresh _ _ _ Hkey).
  assert (∀ v k, has_depth root st v k →
                 has_depth root
                   {| depth_map := depth_map st ++ [(c, (d + 1)%Z)];
                      queue := queue st ++ [(c, (d + 1)%Z)];
                      seen := {[c]} ∪ seen st |} v k) as Hmono.
  { intros v k [?|Hin]; [by left|]. right. simpl. apply elem_of_app. by left. }
  destruct Hlev as (lo & a & b & Hlo & Hshape & Hmax & Ha).
  specialize (Ha ltac:(done)).
  pose proof (levels_head _ _ _ _ _ _ Hshape Ha) as ->.
  split; cbn [depth_map queue seen].
  - intros v. rewrite elem_of_union, elem_of_singleton, fmap_app, elem_of_app.
    simpl. rewrite list_elem_of_singleton. specialize (Hseen v). tauto.
  - rewrite fmap_app. apply NoDup_app. split; [done|]. split.
    + intros x Hx Hx'. apply list_elem_of_singleton in Hx'. by subst x.
    + apply NoDup_singleton.
  - rewrite fmap_app, elem_of_app. simpl. rewrite list_elem_of_singleton.
    intros [?|?]; [done|]. by apply Hne.
  - exists lo, a, (S b). split; [done|]. split; [|split; [|done]].
    + change ((u, lo) :: queue st ++ [(c, (lo + 1)%Z)])
        with (((u, lo) :: queue st) ++ [(c, (lo + 1)%Z)]).
      rewrite fmap_app, Hshape, <- app_assoc. f_equal. simpl.
      by rewrite <- replicate_cons_app.
    + intros v k [Hin|Hin]%elem_of_app; [by eapply Hmax|].
      apply list_elem_of_singleton in Hin as [= -> ->]. lia.
  - intros u' d' Hin.
    change ((u, lo) :: queue st ++ [(c, (lo + 1)%Z)])
      with (((u, lo) :: queue st) ++ [(c, (lo + 1)%Z)]) in Hin.
    apply elem_of_app in Hin as [Hin|Hin]; [by apply Hmono, Hfr|].
    apply list_elem_of_singleton in Hin as [= -> ->]. right. simpl.
    apply elem_of_app. right. by left.
  - intros u' du Hdepth Hout c' Hc'.
    assert (u' ≠ c) as Hu'.
    { intros ->. apply Hout.
      change ((u, lo) :: queue st ++ [(c, (lo + 1)%Z)])
        with (((u, lo) :: queue st) ++ [(c, (lo + 1)%Z)]).
      rewrite fmap_app, elem_of_app. right. by left. }
    assert (has_depth root st u' du) as Hold.
    { destruct Hdepth as [?|Hin]; [by left|]. right. simpl in Hin.
      apply elem_of_app in Hin as [?|Hin]; [done|].
      by apply list_elem_of_singleton in Hin as [= -> ->]. }
    destruct (Hdone u' du Hold) with (c := c') as (dc & Hdc & Hle); [|done|].
    { intros Hin. apply Hout.
      change ((u, lo) :: queue st ++ [(c, (lo + 1)%Z)])
        with (((u, lo) :: queue st) ++ [(c, (lo + 1)%Z)]).
      rewrite fmap_app, elem_of_app. by left. }
    exists dc. split; [by apply Hmono|done].
Qed.

Lemma for_children_dist u d cs st :
  dist_inv m root ((u, d) :: queue st) st →
  dist_inv m root ((u, d) :: queue (for_children d cs st)) (for_children d cs st)
  ∧ (∀ v k, has_depth root st v k → has_depth root (for_children d cs st) v k)
  ∧ ∀ c, c ∈ cs → ∃ dc, has_depth root (for_children d cs st) c dc ∧ (dc ≤ d + 1)%Z.
Proof.
  revert st. induction cs as [|c cs IH]; intros st Hinv; simpl.
  - split; [done|]. split; [done|]. intros c Hc. by apply elem_of_nil in Hc.
  - case_decide as Hin.
    + destruct (IH st Hinv) as (Hinv' & Hmono & Hcs).
      split; [done|]. split; [done|].
      intros c' [->|Hc']%elem_of_cons; [|by apply Hcs].
      pose proof Hinv as [Hseen _ _ (lo & a & b & Hlo & Hshape & Hmax & Ha) _ _].
      specialize (Ha ltac:(done)).
      pose proof (levels_head _ _ _ _ _ _ Hshape Ha) as ->.
      apply Hseen in Hin as [->|Hkey].
      * exists 0%Z. split; [apply Hmono; by left|lia].
      * apply list_elem_of_fmap in Hkey as ([c' k] & -> & Hk). exists k.
        split; [apply Hmono; by right|]. by eapply Hmax.
    + pose proof (dist_inv_enqueue u d c st Hin Hinv) as Hinv1.
      destruct (IH {| depth_map := dict_set c (d + 1)%Z (depth_map st);
                      queue := queue st ++ [(c, (d + 1)%Z)];
                      seen := {[c]} ∪ seen st |} Hinv1) as (Hinv' & Hmono & Hcs).
      split; [done|]. split.
      * intros v k Hv. apply Hmono. destruct Hv as [?|Hv]; [by left|].
        right. simpl. rewrite dict_set_fresh.
        -- apply elem_of_app. by left.
        -- intros Hk. apply Hin. destruct Hinv as [Hseen _ _ _ _ _].
           apply Hseen. by right.
      * intros c' [->|Hc']%elem_of_cons; [|by apply Hcs].
        exists (d + 1)%Z. split; [|lia]. apply Hmono. right. simpl.
        rewrite dict_set_fresh.
        -- apply elem_of_app. right. by left.
        -- intros Hk. apply Hin. destruct Hinv as [Hseen _ _ _ _ _].
           apply Hseen. by right.
Qed.

Lemma turn_dist st :
  dist_inv m root (queue st) st →
  dist_inv m root (queue (turn m st)) (turn m st).
Proof.
  intros Hinv. unfold turn. destruct (queue st) as [|[u d] q] eqn:Eq; [by rewrite Eq|].
  set (st0 := {| depth_map := depth_map st; queue := q; seen := seen st |}).
  assert (dist_inv m root ((u, d) :: queue st0) st0) as Hinv0.
  { by destruct Hinv. }
  destruct (for_children_dist u d (get_children m u) st0 Hinv0)
    as (Hinv' & Hmono & Hcs).
  set (st' := for_children d (get_children m u) st0) in *.
  pose proof Hinv' as [Hseen Hnd Hroot Hlev Hfr Hdone].
  split; try done.
  - destruct Hlev as (lo & a & b & Hlo & Hshape & Hmax & Ha).
    specialize (Ha ltac:(done)). destruct a as [|a]; [lia|].
    simpl in Hshape. injection Hshape as -> Hshape.
    destruct a as [|a].
    + exists (lo + 1)%Z, b, 0. split; [lia|]. split; [|split].
      * rewrite app_nil_r. exact Hshape.
      * intros v k Hin. specialize (Hmax v k Hin). lia.
      * intros Hne. destruct b; [|lia]. simpl in Hshape.
        by apply (fmap_nil_inv snd) in Hshape.
    + exists lo, (S a), b. split; [done|]. split; [exact Hshape|].
      split; [done|lia].
  - intros u' d' Hin. apply Hfr. by right.
  - intros u' du Hdepth Hout c Hc.
    destruct (decide (u' = u)) as [->|Hne].
    + assert (has_depth root st' u d) as Hu by (apply Hfr; by left).
      rewrite (has_depth_unique _ _ _ _ _ Hinv' Hdepth Hu). by apply Hcs.
    + apply (Hdone u' du Hdepth); [|done].
      rewrite fmap_cons, elem_of_cons. simpl. tauto.
Qed.

Lemma while_queue_dist fuel st st' :
  while_queue fuel m st = Some st' →
  dist_inv m root (queue st) st → dist_inv m root [] st'.
Proof.
  revert st. induction fuel as [|fuel IH]; intros st; simpl.
  - destruct (queue st) eqn:Eq; [|done]. by intros [= <-].
  - destruct (queue st) eqn:Eq; [by intros [= <-]|].
    intros Hrun Hinv. apply (IH _ Hrun). apply turn_dist. by rewrite Eq.
Qed.

Lemma initial_dist :
  dist_inv m root [(root, 0%Z)]
    {| depth_map := []; queue := [(root, 0%Z)]; seen := {[root]} |}.
Proof.
  split; simpl.
  - intros v. rewrite elem_of_singleton. split; [by left|].
    intros [?|Hn]; [done|]. by apply elem_of_nil in Hn.
  - apply NoDup_nil_2.
  - apply not_elem_of_nil.
  - exists 0%Z, 1, 0. split; [done|]. split; [done|]. split; [|lia].
    intros v k Hin. by apply elem_of_nil in Hin.
  - intros u d Hin. apply list_elem_of_singleton in Hin as [= -> ->]. by left.
  - intros u du [[-> ->]|Hin] Hout; [|by apply elem_of_nil in Hin].
    destruct Hout. by left.
Qed.

(** Once the frontier is empty, no walk from the root is shorter than the
    depth on record for where it ends. *)
Lemma walk_not_shorter st v n :
  dist_inv m root [] st → walk m root v n →
  ∃ dv, has_depth root st v dv ∧ (dv ≤ Z.of_nat n)%Z.
Proof.
  intros [_ _ _ _ _ Hdone] Hwalk. induction Hwalk as [|u c n Hwalk IH Hc].
  - exists 0%Z. split; [by left|lia].
  - destruct IH as (du & Hu & Hle).
    destruct (Hdone u du Hu) with (c := c) as (dc & Hdc & Hle');
      [apply not_elem_of_nil|done|].
    exists dc. split; [done|lia].
Qed.

(** X12: on every children map, with cycles or PIDs under several parents
    too, the depth that [_collect_descendants_with_depth] records for a
    PID is the length of a shortest walk from the root to it. *)
Theorem depth_is_shortest_walk :
  ∃ depth_map,
    _collect_descendants_with_depth root m = Some depth_map
    ∧ ∀ pid depth, (pid, depth) ∈ depth_map →
        ∃ n, depth = Z.of_nat n ∧ walk m root pid n
             ∧ ∀ n', walk m root pid n' → n ≤ n'.
Proof.
  destruct (collect_descendants_with_depth_spec m root)
    as (dm & Hrun & Hnd & Hkeys & Hwalks).
  exists dm. split; [done|]. intros pid depth Hin.
  destruct (Hwalks pid depth Hin) as (n & -> & Hwalk).
  exists (S n). split; [done|]. split; [done|]. intros n' Hwalk'.
  unfold _collect_descendants_with_depth in Hrun.
  destruct (while_queue _ _ _) as [st|] eqn:Ewhile; [|done].
  injection Hrun as <-.
  pose proof (while_queue_dist _ _ _ Ewhile initial_dist) as Hinv.
  destruct (walk_not_shorter st pid n' Hinv Hwalk') as (dv & Hdv & Hle).
  assert (has_depth root st pid (Z.of_nat (S n))) as Hrec by (by right).
  rewrite (has_depth_unique _ _ _ _ _ Hinv Hdv Hrec) in Hle. lia.
Qed.
End distance.

Local Open Scope string_scope.
Local Open Scope list_scope.

(** * Reading the configuration *)

Section strings.
Import FileProcessor Env.

Lemma lstrip_head s :
  match lstrip s with
  | EmptyString => True
  | String c _ => is_space c = false
  end.
Proof.
  induction s as [|c s IH]; simpl; [done|].
  destruct (is_space c) eqn:E; [done|]. simpl. done.
Qed.

Lemma lstrip_fixed s :
  match s with
  | EmptyString => True
  | String c _ => is_space c = false
  end → lstrip s = s.
Proof. destruct s as [|c s]; simpl; [done|]. by intros ->. Qed.

Lemma rstrip_head c s :
  is_space c = false → ∃ t, rstrip (String c s) = String c t.
Proof. intros Hc. simpl. destruct (rstrip s); rewrite ?Hc; by eexists. Qed.

Lemma rstrip_rstrip s : rstrip (rstrip s) = rstrip s.
Proof.
  induction s as [|c s IH]; simpl; [done|].
  destruct (rstrip s) as [|c' t] eqn:E.
  - destruct (is_space c) eqn:Ec; simpl; [done|]. by rewrite Ec.
  - change (rstrip (String c (String c' t))) with
      (match rstrip (String c' t) with
       | EmptyString => if is_space c then EmptyString else String c EmptyString
       | t' => String c t'
       end).
    by rewrite IH.
Qed.

Lemma strip_trimmed s : trimmed (strip s).
Proof.
  unfold trimmed, strip.
  assert (lstrip (rstrip (lstrip s)) = rstrip (lstrip s)) as ->.
  { apply lstrip_fixed. pose proof (lstrip_head s) as Hhead.
    destruct (lstrip s) as [|c t]; [done|].
    destruct (rstrip_head c t Hhead) as [t' ->]. done. }
  apply rstrip_rstrip.
Qed.

Lemma prefix_app (a b : string) : String.prefix a (a +:+ b) = true.
Proof.
  induction a as [|c a IH]; [by destruct b|].
  change (String c a +:+ b) with (String c (a +:+ b)). simpl.
  by destruct (Ascii.ascii_dec c c).
Qed.

Lemma app_assoc_string (a b c : string) : (a +:+ b) +:+ c = a +:+ (b +:+ c).
Proof.
  induction a as [|x a IH]; [done|].
  change (String x a +:+ b) with (String x (a +:+ b)).
  change (String x (a +:+ b) +:+ c) with (String x ((a +:+ b) +:+ c)).
  change (String x a +:+ (b +:+ c)) with (String x (a +:+ (b +:+ c))).
  by rewrite IH.
Qed.

Lemma split_once_absent (sep : ascii) (key rest : string) :
  sep ∉ list_ascii_of_string key →
  split_once sep (key +:+ String sep rest) = [key; rest].
Proof.
  induction key as [|c key IH]; intros Hsep.
  - change ("" +:+ String sep rest) with (String sep rest). simpl.
    by rewrite decide_True.
  - change (String c key +:+ String sep rest)
      with (String c (key +:+ String sep rest)).
    simpl in *. rewrite decide_False.
    + rewrite IH; [done|]. intros Hin. apply Hsep. by right.
    + intros ->. apply Hsep. by left.
Qed.

(** The value of the first line that assigns to [key]: what follows
    [key=] on it, stripped. *)
Lemma scan_env_first key rest before after :
  "="%char ∉ list_ascii_of_string key →
  Forall (λ line, assigns key line = false) before →
  scan_env key (before ++ (key +:+ "=" +:+ rest) :: after) = Some (strip rest).
Proof.
  intros Hkey Hbefore.
  assert (String.prefix (key +:+ "=") (key +:+ "=" +:+ rest) = true) as Hprefix.
  { rewrite <- app_assoc_string. apply prefix_app. }
  assert (split_once "=" (key +:+ "=" +:+ rest) = [key; rest]) as Hsplit.
  { by apply (split_once_absent "=" key rest). }
  induction Hbefore as [|line before Hline _ IH]; simpl.
  - by rewrite Hprefix, Hsplit.
  - unfold assigns in Hline. by rewrite Hline.
Qed.

Lemma scan_env_trimmed key lines value :
  scan_env key lines = Some value → trimmed value.
Proof.
  induction lines as [|line lines IH]; simpl; [done|].
  destruct (String.prefix _ _); [|done].
  destruct (split_once "=" line) as [|? [|v ?]]; try done.
  intros [= <-]. apply strip_trimmed.
Qed.
End strings.

Section environment.
Import FileProcessor Env Outcome.
Context {World : Type} `{Host World}.

(** X13: [get_env_value] returns the value of the first line of the file
    that starts with [key=]: what follows the [=] sign on that line,
    without the white space around it, line end included. Later lines that
    assign to the same key are not read. *)
Theorem get_env_value_first_assignment (key rest : string)
    (before after : list string) (failure : option exn) (env_file : string)
    (w w' : World) (tr : list event) :
  "="%char ∉ list_ascii_of_string key →
  Forall (λ line, assigns key line = false) before →
  read_lines env_file w = ((before ++ (key +:+ "=" +:+ rest) :: after, failure), w') →
  get_env_value key env_file (w, tr) = (Return (Some (strip rest)), (w', tr)).
Proof.
  intros Hkey Hbefore Hread. unfold get_env_value, bind, read. rewrite Hread.
  simpl. unfold ret. by rewrite scan_env_first.
Qed.

Lemma get_env_value_spec key env_file :
  yields (World:=World) (get_env_value key env_file) (λ r evs,
    evs = [] ∧ ∃ value, r = Return value ∧ ∀ v, value = Some v → trimmed v).
Proof.
  unfold get_env_value. apply yields_bind_wp.
  eapply yields_mono; [apply yields_read|].
  intros r evs [[[lines failure] ->] ->]. apply yields_ret.
  split; [done|]. eexists. split; [done|].
  intros v Hv. by eapply scan_env_trimmed.
Qed.

(** X14: [get_env_value] never raises, whatever becomes of the file while
    it is read, and the value it returns carries no white space at either
    end. *)
Theorem get_env_value_trimmed (key env_file : string) :
  yields (World:=World) (get_env_value key env_file) (λ r evs,
    evs = [] ∧ ∃ value, r = Return value ∧ ∀ v, value = Some v → trimmed v).
Proof. exact (get_env_value_spec key env_file). Qed.
End environment.

Section configuration.
Import FileProcessor Env Outcome.
Context {World : Type} `{OS World} `{Host World}.

Lemma get_stream_config_spec (script_dir profile : string) (i : Z) :
  let base := (Path script_dir / "profiles" / profile / env_name i)%path in
  let alt := (Path script_dir / env_name i)%path in
  yields (World:=World) (get_stream_config script_dir profile i) (λ r evs,
    ∃ config present again,
      r = Return config
      ∧ evs = [EvExists base present;
               EvExists (if present then base else alt) again]
      ∧ stream_id config = i
      ∧ env_file config = path_str (if present then base else alt)
      ∧ trimmed (temp_output_path config) ∧ temp_output_path config ≠ ""
      ∧ trimmed (final_output_path config) ∧ final_output_path config ≠ ""
      ∧ (again = false →
         temp_output_path config = "./output/temp/"
         ∧ final_output_path config = "/mnt/nas/cam")).
Proof.
  intros base alt. unfold get_stream_config. fold (env_name i). fold base alt.
  apply yields_bind_wp. eapply yields_mono; [apply yields_ask|].
  intros r evs (present & -> & ->).
  set (chosen := if present then base else alt).
  apply yields_bind_wp. eapply yields_mono; [apply yields_ask|].
  intros r evs (again & -> & ->).
  assert (∀ value fallback, trimmed fallback → fallback ≠ "" →
            (∀ v, value = Some v → trimmed v) →
            trimmed (if truthy value then default "" value else fallback)
            ∧ (if truthy value then default "" value else fallback) ≠ "")
    as Hpick.
  { intros [[|c v]|] fallback Hf Hne Hv; simpl; try done.
    split; [by apply Hv|done]. }
  destruct again.
  - apply yields_bind_wp, yields_bind_wp.
    eapply yields_mono; [apply get_env_value_spec|].
    intros r evs (-> & temp_path & -> & Htemp).
    apply yields_bind_wp. eapply yields_mono; [apply get_env_value_spec|].
    intros r evs (-> & final_path & -> & Hfinal).
    apply yields_ret, yields_ret.
    destruct (Hpick temp_path "./output/temp/") as [Ht1 Ht2]; [done|done|done|].
    destruct (Hpick final_path "/mnt/nas/cam") as [Hf1 Hf2]; [done|done|done|].
    eexists _, present, true. by split_and!.
  - apply yields_bind_wp, yields_ret, yields_ret.
    eexists _, present, false. by split_and!.
Qed.

(** X15: when [get_stream_config] returns, it has looked for the
    environment file of the stream under [profiles/<profile>] first and
    under the script directory if that is not there, and has looked at the
    chosen file once more before reading it. The configuration carries
    the stream's number and the path of the chosen file; its two paths
    are never empty and carry no white space at either end; they are the
    defaults when the chosen file is not there. *)
Theorem get_stream_config_paths (script_dir profile : string) (i : Z) :
  let base := (Path script_dir / "profiles" / profile / env_name i)%path in
  let alt := (Path script_dir / env_name i)%path in
  yields (World:=World) (get_stream_config script_dir profile i) (λ r evs,
    ∀ config, r = Return config →
      ∃ present again,
        evs = [EvExists base present;
               EvExists (if present then base else alt) again]
        ∧ stream_id config = i
        ∧ env_file config = path_str (if present then base else alt)
        ∧ trimmed (temp_output_path config) ∧ temp_output_path config ≠ ""
        ∧ trimmed (final_output_path config) ∧ final_output_path config ≠ ""
        ∧ (again = false →
           temp_output_path config = "./output/temp/"
           ∧ final_output_path config = "/mnt/nas/cam")).
Proof.
  intros base alt. eapply yields_mono; [apply get_stream_config_spec|].
  intros r evs (config & present & again & -> & Hrest) config' [= <-].
  by exists present, again.
Qed.
End configuration.

Section environment_sim.
Import FileProcessor Env.

Lemma get_env_value_first_assignment_witness :
  get_env_value "TEMP_OUTPUT_PATH" "profiles/sim/.env.stream1" (env_stream1, [])
  = (Return (Some "/data/temp"), (env_stream1, [])).
Proof.
  apply (get_env_value_first_assignment (World:=Sim.shelf)
           "TEMP_OUTPUT_PATH" (" /data/temp " +:+ String LF "")
           ["# stream 1" +:+ String LF ""]
           ["FINAL_OUTPUT_PATH=/mnt/archive" +:+ String LF "";
            "TEMP_OUTPUT_PATH=/elsewhere" +:+ String LF ""]
           None "profiles/sim/.env.stream1" env_stream1 env_stream1 []).
  - compute_done.
  - compute_done.
  - reflexivity.
Defined.
End environment_sim.

(** * Finishing the recordings *)

Section settle.
Import FileProcessor Settle Outcome Trace.
Context {World : Type} `{OS World}.

Lemma sizes_app evs1 evs2 : sizes (evs1 ++ evs2) = sizes evs1 ++ sizes evs2.
Proof.
  induction evs1 as [|ev evs1 IH]; [done|]. destruct ev; simpl; try done.
  by rewrite IH.
Qed.

Lemma sleeps_getsize file r : sleeps [EvGetsize file r] = 0.
Proof. done. Qed.

Lemma settled_more n n' size sizes :
  (n ≤ n')%nat → settled n' size sizes → settled n size sizes.
Proof.
  intros Hle [earlier ->]. exists (earlier ++ replicate (n' - n) (Return size)).
  rewrite <- app_assoc, <- replicate_add. f_equal. f_equal. lia.
Qed.

Lemma settled_snoc n size sizes :
  settled n size sizes → settled (S n) size (sizes ++ [Return size]).
Proof.
  intros [earlier ->]. exists earlier. rewrite <- app_assoc. f_equal.
  by rewrite replicate_S_end.
Qed.

Lemma stable_loop_sound turns_left file_path check_count prev_size same_count history :
  on_record history prev_size same_count →
  yields (World:=World)
    (stable_loop turns_left file_path check_count prev_size same_count)
    (λ r evs,
       Forall looks_only evs
       ∧ (length (sizes evs) ≤ turns_left)%nat
       ∧ (sleeps evs ≤ length (sizes evs))%nat
       ∧ (r = Return true →
          ∃ size, (0 ≤ size)%Z
                  ∧ settled (needed check_count) size (history ++ sizes evs))
       ∧ ∀ e, r = Raise e → is_OSError e = false
                            ∧ last (sizes evs) = Some (Raise e)).
Proof.
  revert prev_size same_count history.
  induction turns_left as [|n IH]; intros prev same history Hrec; simpl.
  { apply yields_ret. by split_and!. }
  assert (∀ r, Forall looks_only [EvGetsize file_path r]) as Hlooks.
  { intros r. by apply Forall_singleton. }
  apply yields_bind_wp, yields_try_wp, yields_bind_wp.
  eapply yields_mono; [apply yields_call|]. intros r evs ->.
  destruct r as [current|e].
  2: { (* the size cannot be read *)
    destruct (is_OSError e) eqn:E.
    - apply yields_ret, yields_ret. simpl. rewrite sleeps_getsize.
      split_and!; [done|lia|lia|done|done].
    - simpl. rewrite sleeps_getsize. split_and!; [done|lia|lia|done|].
      by intros ? [= <-]. }
  assert (∀ prev' same',
            on_record (history ++ [Return current]) prev' same' →
            yields (World:=World)
              (let* _ := sleep 1 in
               stable_loop n file_path check_count prev' same')
              (λ r evs2,
                 Forall looks_only
                   (([EvGetsize file_path (Return current)] ++ []) ++ evs2)
                 ∧ (length (sizes (([EvGetsize file_path (Return current)] ++ [])
                                 ++ evs2)) ≤ S n)%nat
                 ∧ (sleeps (([EvGetsize file_path (Return current)] ++ []) ++ evs2)
                    ≤ length (sizes (([EvGetsize file_path (Return current)] ++ [])
                                     ++ evs2)))%nat
                 ∧ (r = Return true →
                    ∃ size, (0 ≤ size)%Z
                      ∧ settled (needed check_count) size
                          (history
                           ++ sizes (([EvGetsize file_path (Return current)] ++ [])
                                     ++ evs2)))
                 ∧ ∀ e, r = Raise e →
                     is_OSError e = false
                     ∧ last (sizes (([EvGetsize file_path (Return current)] ++ [])
                                    ++ evs2)) = Some (Raise e))) as Hnext.
  { intros prev' same' Hrec'. apply yields_bind_wp.
    eapply yields_mono; [apply yields_sleep|]. intros r evs [-> ->].
    eapply yields_mono; [apply (IH prev' same' _ Hrec')|].
    intros r evs2 (Hev & Hlen & Hsl & Htrue & Hraise).
    rewrite !sizes_app, !sleeps_app, !length_app. simpl.
    change (sleeps [EvGetsize file_path (Return current)]) with 0.
    change (sleeps [EvSleep 1]) with 1. split_and!; [|lia|lia| |].
    - by repeat constructor.
    - intros Hr. destruct (Htrue Hr) as (size & Hsize & Hset). exists size.
      split; [done|]. by rewrite <- app_assoc in Hset.
    - intros e He. destruct (Hraise e He) as [Hos Hlast]. split; [done|].
      destruct (sizes evs2); [done|]. done. }
  destruct (bool_decide (current = prev) && bool_decide (0 ≤ prev)%Z) eqn:Esame.
  - apply andb_true_iff in Esame as [->%bool_decide_eq_true Hprev%bool_decide_eq_true].
    destruct Hrec as [Hsame [[_ ->]|Hset]]; [lia|].
    apply settled_snoc in Hset.
    case_bool_decide as Hdone.
    + (* enough equal samples *)
      apply yields_ret, yields_ret. simpl. rewrite sleeps_getsize.
      split_and!; [done|lia|lia| |done].
      intros _. exists prev. split; [done|].
      eapply settled_more; [|done]. unfold needed. lia.
    + apply yields_ret. apply Hnext. split; [lia|]. right.
      replace (S (Z.to_nat (same + 1))) with (S (S (Z.to_nat same))) by lia. done.
  - apply yields_ret. apply Hnext. split; [lia|]. right. by exists history.
Qed.

Lemma is_file_stable_spec file_path check_count max_wait :
  yields (World:=World) (is_file_stable file_path check_count max_wait) (λ r evs,
    Forall looks_only evs
    ∧ (length (sizes evs) ≤ Z.to_nat max_wait)%nat
    ∧ (sleeps evs ≤ length (sizes evs))%nat
    ∧ (r = Return true →
       ∃ size, (0 ≤ size)%Z ∧ settled (needed check_count) size (sizes evs))
    ∧ ∀ e, r = Raise e → is_OSError e = false ∧ last (sizes evs) = Some (Raise e)).
Proof.
  unfold is_file_stable. apply yields_bind_wp.
  eapply yields_mono; [apply yields_ask|]. intros r evs (present & -> & ->).
  destruct present; simpl.
  - eapply yields_mono; [apply (stable_loop_sound _ _ _ _ _ [])|].
    + split; [done|]. by left.
    + intros r evs2 (Hev & Hlen & Hsl & Htrue & Hraise).
      split_and!; try done. by constructor.
  - apply yields_ret. simpl. split_and!; [by repeat constructor|lia|done|done|done].
Qed.

(** X16: [is_file_stable] only looks at the file and waits: it takes at
    most [max_wait] samples of the size and sleeps one second between two
    samples. It returns [True] only when the last [check_count + 1]
    samples (two at least) read one same size: so never when [max_wait]
    is no more than [check_count]. It raises only what [os.path.getsize]
    raised, if that is not an [OSError]. *)
Theorem is_file_stable_sound (file_path : string) (check_count max_wait : Z) :
  yields (World:=World) (is_file_stable file_path check_count max_wait) (λ r evs,
    Forall looks_only evs
    ∧ (length (sizes evs) ≤ Z.to_nat max_wait)%nat
    ∧ (sleeps evs ≤ length (sizes evs))%nat
    ∧ (r = Return true →
       ∃ size, (0 ≤ size)%Z ∧ settled (needed check_count) size (sizes evs))
    ∧ ((max_wait ≤ Z.max 1 check_count)%Z → r ≠ Return true)
    ∧ ∀ e, r = Raise e → is_OSError e = false ∧ last (sizes evs) = Some (Raise e)).
Proof.
  eapply yields_mono; [apply is_file_stable_spec|].
  intros r evs (Hev & Hlen & Hsl & Htrue & Hraise). split_and!; try done.
  intros Hwait Hr. destruct (Htrue Hr) as (size & _ & earlier & Heq).
  apply (f_equal length) in Heq. rewrite length_app, length_replicate in Heq.
  unfold needed in Heq. lia.
Qed.
End settle.

Section finalize.
Import FileProcessor Settle Finalize Moves Outcome Trace.
Context {World : Type} `{OS World}.

Lemma looks_only_moves evs :
  Forall looks_only evs → attempted evs = [] ∧ renamed evs = [] ∧ listed evs = [].
Proof.
  induction 1 as [|ev evs Hev _ IH]; [done|]. by destruct ev.
Qed.

Lemma listed_app evs1 evs2 : listed (evs1 ++ evs2) = listed evs1 ++ listed evs2.
Proof.
  induction evs1 as [|ev evs1 IH]; [done|]. destruct ev; simpl; try done.
  by rewrite IH, app_assoc.
Qed.

Lemma is_file_in_use_spec file_path :
  yields (World:=World) (is_file_in_use file_path) (λ r evs,
    ∃ out, evs = [EvRun ["lsof"; file_path] out]
      ∧ (r = Return false → ∀ stdout, out ≠ Return (0%Z, stdout))).
Proof.
  unfold is_file_in_use. apply yields_try_wp, yields_bind_wp.
  eapply yields_mono; [apply yields_run|]. intros r evs (out & -> & ->).
  destruct out as [[code stdout]|e]; simpl.
  - apply yields_ret. eexists. split; [done|]. intros [= Hcode] stdout' [= -> _].
    by rewrite bool_decide_eq_true_2 in Hcode.
  - destruct e; simpl; try apply yields_ret; eexists; (split; [done|]); done.
Qed.

Lemma process_single_file_spec file_path config :
  yields (World:=World) (_process_single_file file_path config)
    (single_outcome file_path).
Proof.
  unfold _process_single_file. cbv zeta. fold (finalized file_path).
  apply yields_bind_wp.
  eapply yields_mono; [apply is_file_stable_spec|].
  intros r evs1 (Hlooks & Hlen & Hsl & Htrue & Hraise).
  destruct (looks_only_moves _ Hlooks) as (Hatt1 & Hren1 & Hlist1).
  change (Z.to_nat 15) with 15%nat in Hlen.
  assert (sleeps evs1 ≤ 15)%nat as Hsl1 by (etrans; [exact Hsl|exact Hlen]).
  destruct r as [[|]|e]; cbn [negb].
  3: { split_and!; [done|done|]. by left. }
  2: { apply yields_ret. rewrite app_nil_r. split_and!; [done|done|]. by left. }
  destruct (Htrue eq_refl) as (size & Hsize & Hset).
  apply yields_bind_wp. eapply yields_mono; [apply is_file_in_use_spec|].
  intros r evs2 (out & -> & Hout). fold (lsof file_path) in *.
  assert (sleeps [EvRun (lsof file_path) out] = 0) as Hsl2 by done.
  assert (∀ r', r' ≠ Return true →
                single_outcome file_path r' (evs1 ++ [EvRun (lsof file_path) out]))
    as Hskip.
  { intros r' Hr'. split_and!.
    - by rewrite listed_app, Hlist1.
    - rewrite sleeps_app. lia.
    - left. by rewrite attempted_app, Hatt1. }
  destruct r as [[|]|e]; [apply yields_ret; rewrite app_nil_r| |]; try by apply Hskip.
  assert (∀ rn r', (r' = Return true ↔ rn = Return tt) →
            single_outcome file_path r'
              (evs1 ++ [EvRun (lsof file_path) out]
               ++ [EvRename file_path (finalized file_path) rn] ++ [])) as Hmove.
  { intros rn r' Hr'. split_and!.
    - by rewrite !listed_app, Hlist1.
    - rewrite !sleeps_app, Hsl2.
      assert (sleeps [EvRename file_path (finalized file_path) rn] = 0) as ->
        by done.
      change (sleeps []) with 0. lia.
    - right. exists evs1, out, rn, size.
      split_and!; try done; try (by apply Hout); apply Hr'. }
  apply yields_try_wp, yields_bind_wp.
  eapply yields_mono; [apply yields_call|]. intros r evs ->.
  destruct r as [[]|e].
  - apply yields_ret. by apply Hmove.
  - destruct (is_OSError e); [apply yields_ret|]; apply Hmove; done.
Qed.

Lemma attempted_renamed evs : attempted evs = [] → renamed evs = [].
Proof.
  induction evs as [|ev evs IH]; [done|]. destruct ev; simpl; try done.
Qed.

(** What a call of [_process_single_file] adds to the renames. *)
Lemma single_outcome_renamed file_path r evs :
  single_outcome file_path r evs →
  (r = Return true ∧ attempted evs = [(file_path, finalized file_path)]
   ∧ renamed evs = [(file_path, finalized file_path)])
  ∨ (r ≠ Return true ∧ renamed evs = []
     ∧ (attempted evs = [] ∨ attempted evs = [(file_path, finalized file_path)])).
Proof.
  intros (_ & _ & [[Hatt Hr]|(before & out & rn & size & -> & Hatt & _ & _ & _ & Hr)]).
  - right. split; [done|]. split; [by apply attempted_renamed|by left].
  - rewrite attempted_app, renamed_app, Hatt, (attempted_renamed _ Hatt). simpl.
    destruct rn as [[]|e].
    + left. split; [by apply Hr|done].
    + right. split; [|split; [done|by right]]. intros Hr'. by apply Hr in Hr'.
Qed.

(** X17: [_process_single_file] renames a file only after four samples in
    a row have read one same size and [lsof], asked last, has not come
    back with status 0 (a missing [lsof] counts as nobody holding the
    file). The rename, if any, is the last step and sends the file to its
    own directory, under its name less the first five characters. The
    call returns [True] exactly when that rename succeeded, and sleeps
    one second 15 times at most. *)
Theorem process_single_file_safe (file_path : path) (config : StreamConfig) :
  yields (World:=World) (_process_single_file file_path config) (λ r evs,
    (sleeps evs ≤ 15)%nat
    ∧ (r = Return true ↔ renamed evs = [(file_path, finalized file_path)])
    ∧ (attempted evs = []
       ∨ ∃ before out rn size,
           evs = before ++ [EvRun (lsof file_path) out;
                            EvRename file_path (finalized file_path) rn]
           ∧ attempted before = []
           ∧ (0 ≤ size)%Z ∧ settled 4 size (sizes before)
           ∧ ∀ stdout, out ≠ Return (0%Z, stdout))).
Proof.
  eapply yields_mono; [apply process_single_file_spec|].
  intros r evs Hout. pose proof (single_outcome_renamed _ _ _ Hout) as Hren.
  destruct Hout as (_ & Hsl & Hcases). split; [done|]. split.
  - destruct Hren as [(-> & _ & ->)|(Hr & -> & _)]; [done|]. split; [done|].
    intros [=].
  - destruct Hcases as [[Hatt _]|(before & out & rn & size & ? & ? & ? & ? & ? & _)];
      [by left|]. right. by exists before, out, rn, size.
Qed.

Lemma process_files_spec config temp entries n0 :
  yields (World:=World) (process_files config temp entries n0) (λ r evs,
    listed evs = []
    ∧ (sleeps evs ≤ 15 * length entries)%nat
    ∧ (∀ move, move ∈ attempted evs →
         ∃ entry, entry ∈ entries
                  ∧ move = ((temp / entry)%path, finalized (temp / entry)%path))
    ∧ ∀ n, r = Return n → n = (n0 + Z.of_nat (length (renamed evs)))%Z).
Proof.
  revert n0. induction entries as [|entry entries IH]; intros n0; cbn [process_files].
  { apply yields_ret. split_and!; try done.
    - intros move Hmove. by apply elem_of_nil in Hmove.
    - intros n [= <-]. simpl. lia. }
  eapply yields_bind; [apply process_single_file_spec| |].
  - intros done evs1 Hout.
    pose proof (single_outcome_renamed _ _ _ Hout) as Hren.
    destruct Hout as (Hlist1 & Hsl1 & _).
    eapply yields_mono; [apply IH|].
    intros r evs2 (Hlist2 & Hsl2 & Hatt2 & Hn).
    rewrite listed_app, sleeps_app, attempted_app, renamed_app, length_app.
    split_and!.
    + by rewrite Hlist1, Hlist2.
    + simpl. lia.
    + intros move [Hmove|Hmove]%elem_of_app.
      * exists entry. split; [by left|].
        destruct Hren as [(_ & Hatt & _)|(_ & _ & [Hatt|Hatt])];
          rewrite Hatt in Hmove;
          try (by apply elem_of_nil in Hmove);
          by apply list_elem_of_singleton in Hmove.
      * destruct (Hatt2 move Hmove) as (entry' & Hin & ->).
        exists entry'. split; [by right|done].
    + intros n Hr. rewrite (Hn n Hr).
      destruct Hren as [([= ->] & _ & ->)|(Hdone & -> & _)]; simpl; [lia|].
      destruct done; [done|lia].
  - intros e evs1 Hout.
    pose proof (single_outcome_renamed _ _ _ Hout) as Hren.
    destruct Hout as (Hlist1 & Hsl1 & _). split_and!; try done.
    + simpl. lia.
    + intros move Hmove. exists entry. split; [by left|].
      destruct Hren as [([=] & _)|(_ & _ & [Hatt|Hatt])];
        rewrite Hatt in Hmove;
        try (by apply elem_of_nil in Hmove);
        by apply list_elem_of_singleton in Hmove.
Qed.

Lemma process_temp_files_spec (config : StreamConfig) :
  let temp_path := Path (temp_output_path config) in
  yields (World:=World) (process_temp_files config) (λ r evs,
    (∃ present rest, evs = EvExists temp_path present :: rest
                     ∧ (present = false → rest = [] ∧ r = Return 0%Z))
    ∧ (∀ move, move ∈ attempted evs →
         ∃ entry, entry ∈ listed evs
                  ∧ move = ((temp_path / entry)%path,
                            finalized (temp_path / entry)%path))
    ∧ (sleeps evs ≤ 15 * length (listed evs))%nat
    ∧ ∀ n, r = Return n → n = Z.of_nat (length (renamed evs))).
Proof.
  intros temp_path. unfold process_temp_files. fold temp_path.
  apply yields_bind_wp. eapply yields_mono; [apply yields_ask|].
  intros r evs (present & -> & ->). destruct present; cbn [negb].
  2: { apply yields_ret. split_and!.
       - by eexists false, [].
       - intros move Hmove. by apply elem_of_nil in Hmove.
       - done.
       - by intros n [= <-]. }
  apply yields_bind_wp. eapply yields_mono; [apply yields_ask|].
  intros r evs (mp4_files & -> & ->).
  eapply yields_bind; [apply process_files_spec| |].
  - intros n1 evs1 (Hlist1 & Hsl1 & Hatt1 & Hn1).
    specialize (Hn1 n1 eq_refl).
    apply yields_bind_wp. eapply yields_mono; [apply yields_ask|].
    intros r evs (srt_files & -> & ->).
    eapply yields_mono; [apply process_files_spec|].
    intros r evs2 (Hlist2 & Hsl2 & Hatt2 & Hn2).
    assert (listed ([EvExists temp_path true]
                    ++ [EvGlob temp_path "temp_*.mp4" mp4_files] ++ evs1
                    ++ [EvGlob temp_path "temp_*.srt" srt_files] ++ evs2)
            = mp4_files ++ srt_files) as Hlisted.
    { rewrite !listed_app, Hlist1, Hlist2. cbn [listed app].
      by rewrite !app_nil_r. }
    rewrite Hlisted. split_and!.
    + eexists true, _. split; [done|]. done.
    + rewrite !attempted_app. cbn [attempted app].
      intros move [Hmove|Hmove]%elem_of_app.
      * destruct (Hatt1 move Hmove) as (entry & Hin & ->). exists entry.
        split; [|done]. apply elem_of_app. by left.
      * destruct (Hatt2 move Hmove) as (entry & Hin & ->). exists entry.
        split; [|done]. apply elem_of_app. by right.
    + rewrite !sleeps_app, length_app.
      change (sleeps [EvExists temp_path true]) with 0.
      change (sleeps [EvGlob temp_path "temp_*.mp4" mp4_files]) with 0.
      change (sleeps [EvGlob temp_path "temp_*.srt" srt_files]) with 0. lia.
    + intros n Hr. rewrite (Hn2 n Hr), Hn1, !renamed_app, !length_app.
      cbn [renamed length]. lia.
  - intros e evs1 (Hlist1 & Hsl1 & Hatt1 & Hn1).
    assert (listed ([EvExists temp_path true]
                    ++ [EvGlob temp_path "temp_*.mp4" mp4_files] ++ evs1)
            = mp4_files) as Hlisted.
    { rewrite !listed_app, Hlist1. cbn [listed app]. by rewrite !app_nil_r. }
    rewrite Hlisted. split_and!.
    + eexists true, _. split; [done|]. done.
    + rewrite !attempted_app. cbn [attempted app].
      intros move Hmove. by apply Hatt1.
    + rewrite !sleeps_app.
      change (sleeps [EvExists temp_path true]) with 0.
      change (sleeps [EvGlob temp_path "temp_*.mp4" mp4_files]) with 0. lia.
    + intros n [=].
Qed.

(** X18: [process_temp_files] returns 0 without listing anything when the
    temp directory is not there. Otherwise it lists the [temp_*.mp4]
    entries, then the [temp_*.srt] ones, and tries to rename listed
    entries only, each within the temp directory to its name less the
    first five characters. It returns the number of renames that
    succeeded, and sleeps one second no more than 15 times for each listed
    entry. *)
Theorem process_temp_files_counts (config : StreamConfig) :
  let temp_path := Path (temp_output_path config) in
  yields (World:=World) (process_temp_files config) (λ r evs,
    (∃ present rest, evs = EvExists temp_path present :: rest
                     ∧ (present = false → rest = [] ∧ r = Return 0%Z))
    ∧ (∀ move, move ∈ attempted evs →
         ∃ entry, entry ∈ listed evs
                  ∧ move = ((temp_path / entry)%path,
                            finalized (temp_path / entry)%path))
    ∧ (sleeps evs ≤ 15 * length (listed evs))%nat
    ∧ ∀ n, r = Return n → n = Z.of_nat (length (renamed evs))).
Proof. exact (process_temp_files_spec config). Qed.
End finalize.

Section handover.
Import FileProcessor Finalize Moves Stamp Outcome.
Context {World : Type} `{OS World}.

Lemma path_parent_div (p : path) (entry : string) :
  simple_name entry → path_parent (p / entry) = p.
Proof.
  intros Hs. unfold path_div. rewrite (Path_simple_name _ Hs).
  destruct Hs as (Hslash & Hne & _).
  destruct entry as [|c entry]; [done|].
  assert (String.prefix "/" (String c entry) = false) as Hp.
  { cbn [String.prefix]. destruct (ascii_dec _ _) as [Heq|]; [|done].
    subst c. destruct Hslash. cbn [list_ascii_of_string]. by left. }
  unfold is_absolute. cbn [parts]. rewrite Hp. cbn [parts].
  unfold path_parent. cbn [parts]. destruct p as [[|x l]]; cbn [parts app].
  - by rewrite Hp.
  - destruct l as [|y l]; [done|]. f_equal.
    exact (removelast_last (x :: y :: l) (String c entry)).
Qed.

Lemma simple_name_temp name : simple_name name → simple_name ("temp_" +:+ name).
Proof.
  intros (Hslash & Hne & Hdot). split; [|done].
  change ("temp_" +:+ name)
    with (String "t" (String "e" (String "m" (String "p" (String "_" name))))).
  cbn [list_ascii_of_string]. rewrite !not_elem_of_cons. by split_and!.
Qed.

(** X19: [process_temp_files] and [final_sweep_move] fit together. A
    recording [temp_<name>] whose [<name>] ends in a stamp is renamed by
    the first to [<name>] in the same temp directory, and that is a name
    the second does not skip: it sends it to the directory dated by the
    stamp. *)
Theorem finalized_then_swept (temp_path : path)
    (final_output_path name date time ext : string) :
  simple_name name → String.prefix "temp_" name = false →
  stamped name date time ext "" →
  finalized (temp_path / ("temp_" +:+ name)) = (temp_path / name)%path
  ∧ ∃ yy, int (substring 0 2 date) = Some yy
      ∧ sweep_target_dir final_output_path
          (path_name (finalized (temp_path / ("temp_" +:+ name))))
        = Some (Return (dated_dir final_output_path date time yy)).
Proof.
  intros Hs Hp Hst.
  assert (finalized (temp_path / ("temp_" +:+ name)) = (temp_path / name)%path)
    as Hfin.
  { unfold finalized.
    rewrite path_parent_div, path_name_simple by (by apply simple_name_temp).
    done. }
  split; [done|]. rewrite Hfin, path_name_simple by done.
  destruct (sweep_target_dir_stamped final_output_path name date time ext Hp Hst)
    as (yy & Hint & _ & Hroute).
  by exists yy.
Qed.

Lemma finalized_then_swept_witness :
  finalized (Path "./output/temp/" / "temp_cam1_250131_235901.mp4")
  = (Path "./output/temp/" / "cam1_250131_235901.mp4")%path
  ∧ ∃ yy, int "25" = Some yy
      ∧ sweep_target_dir "/mnt/nas/cam"
          (path_name (finalized (Path "./output/temp/" / "temp_cam1_250131_235901.mp4")))
        = Some (Return (dated_dir "/mnt/nas/cam" "250131" "235901" yy)).
Proof.
  apply (finalized_then_swept (Path "./output/temp/") "/mnt/nas/cam"
           "cam1_250131_235901.mp4" "250131" "235901" "mp4").
  - split; [compute_done|]. split; compute_done.
  - reflexivity.
  - exists "cam1". split; [reflexivity|]. split; [by split|].
    split; [by split|]. by left.
Defined.

Lemma sweep_loop_raises config temp entries n0 :
  yields (World:=World) (sweep_loop config temp entries n0) (λ r evs,
    ∀ e, r = Raise e →
      (∃ evs0 target_dir, evs = evs0 ++ [EvMkdir target_dir (Raise e)])
      ∨ (∃ evs0 src dst, evs = evs0 ++ [EvRename src dst (Raise e)]
                         ∧ is_OSError e = false)).
Proof.
  revert n0. induction entries as [|entry entries IH]; intros n0; cbn [sweep_loop].
  { apply yields_ret. by intros e [=]. }
  destruct (sweep_target_dir _ _) as [res|] eqn:Hroute; [|apply IH].
  destruct (sweep_target_dir_returns _ _ _ Hroute) as [target_dir ->].
  assert (∀ evs1 n,
            yields (World:=World) (sweep_loop config temp entries n)
              (λ r evs2, ∀ e, r = Raise e →
                 (∃ evs0 target_dir, evs1 ++ evs2 = evs0 ++ [EvMkdir target_dir (Raise e)])
                 ∨ (∃ evs0 src dst, evs1 ++ evs2 = evs0 ++ [EvRename src dst (Raise e)]
                                    ∧ is_OSError e = false))) as Hrest.
  { intros evs1 n. eapply yields_mono; [apply IH|]. intros r evs2 Hr e He.
    destruct (Hr e He) as [(evs0 & d & ->)|(evs0 & src & dst & -> & Hos)].
    - left. exists (evs1 ++ evs0), d. by rewrite app_assoc.
    - right. exists (evs1 ++ evs0), src, dst. by rewrite app_assoc. }
  apply yields_bind_wp. eapply yields_mono; [apply yields_call|].
  intros r evs ->. destruct r as [[]|e].
  2: { intros e' [= <-]. left. by exists [], target_dir. }
  apply yields_bind_wp, yields_try_wp, yields_bind_wp.
  eapply yields_mono; [apply yields_call|]. intros r evs ->.
  destruct r as [[]|e].
  - apply yields_ret. rewrite app_nil_r. apply (Hrest [_; _]).
  - destruct (is_OSError e) eqn:E.
    + apply yields_ret. rewrite app_nil_r. apply (Hrest [_; _]).
    + intros e' [= <-]. right. by eexists [_], _, _.
Qed.

Lemma final_sweep_move_spec (config : StreamConfig) :
  yields (World:=World) (final_sweep_move config) (λ r evs,
    ∀ e, r = Raise e →
      (∃ evs0 target_dir, evs = evs0 ++ [EvMkdir target_dir (Raise e)])
      ∨ (∃ evs0 src dst, evs = evs0 ++ [EvRename src dst (Raise e)]
                         ∧ is_OSError e = false)).
Proof.
  unfold final_sweep_move. apply yields_bind_wp.
  eapply yields_mono; [apply yields_ask|]. intros r evs (present & -> & ->).
  destruct present; cbn [negb]; [|apply yields_ret; by intros e [=]].
  apply yields_bind_wp. eapply yields_mono; [apply yields_ask|].
  intros r evs (entries & -> & ->).
  eapply yields_mono; [apply sweep_loop_raises|]. intros r evs2 Hr e He.
  destruct (Hr e He) as [(evs0 & d & ->)|(evs0 & src & dst & -> & Hos)].
  - left. eexists (_ :: _ :: evs0), d. done.
  - right. eexists (_ :: _ :: evs0), src, dst. done.
Qed.

(** X20: once [final_sweep_move] has found the temp directory and listed
    it, it raises only what a [mkdir] raised, the making of the directory
    being outside the [try], or what a [rename] raised that is not an
    [OSError]; the sweep stops there, at its last call. The stamp of a
    name never makes it raise: [int] is given two digits. *)
Theorem final_sweep_move_raises (config : StreamConfig) :
  let temp_path := Path (temp_output_path config) in
  yields (World:=World) (final_sweep_move config) (λ r evs,
    ∀ e entries rest,
      r = Raise e →
      evs = EvExists temp_path true :: EvGlob temp_path "*" entries :: rest →
      (∃ evs0 target_dir, rest = evs0 ++ [EvMkdir target_dir (Raise e)])
      ∨ (∃ evs0 src dst, rest = evs0 ++ [EvRename src dst (Raise e)]
                         ∧ is_OSError e = false)).
Proof.
  intros temp_path. unfold final_sweep_move. fold temp_path.
  apply yields_bind_wp. eapply yields_mono; [apply yields_ask|].
  intros r evs (present & -> & ->).
  destruct present; cbn [negb]; [|apply yields_ret; by intros e ? ? [=]].
  apply yields_bind_wp. eapply yields_mono; [apply yields_ask|].
  intros r evs (entries & -> & ->).
  eapply yields_mono; [apply sweep_loop_raises|].
  intros r evs2 Hr e entries' rest He [= _ ->]. by apply Hr.
Qed.
End handover.

(** * The coordinator and the script *)

Section guard.
Import ProcessManager Guard Outcome.
Context {World : Type} `{OS World}.




End guard.

Section file_stage.
Import StreamStopManager Guard Outcome.
Context {World : Type} `{OS World}.
Variable get_stream_config : Z → M World StreamConfig.
Variable process_temp_files : StreamConfig → M World Z.
Hypothesis get_stream_config_ends : ∀ i, ends (get_stream_config i).
Hypothesis process_temp_files_ends : ∀ config, ends (process_temp_files config).



Lemma yields_ends {A} (c : M World A) Q : yields c Q → ends c.
Proof. intros Hc. eapply yields_mono; [exact Hc|done]. Qed.


Lemma final_sweep_move_ends config : ends (FileProcessor.final_sweep_move config).
Proof. eapply yields_ends, final_sweep_move_spec. Qed.


End file_stage.



Section stages_guard.
Import StreamStopManager Guard Outcome Files.
Context {World : Type} `{OS World}.
Variable get_running_sessions : M World sessions.
Variable get_rtsp_stream_pids : M World (list Z).
Variable get_stream_config : Z → M World StreamConfig.
Variable process_temp_files : StreamConfig → M World Z.
Variable final_sweep_seconds : M World Z.
Variable stop_file_mover_session : M World bool.
Variable stop_mediamtx : M World bool.
Variable report_log_files : Z → M World unit.
Hypothesis get_running_sessions_calm :
  yields get_running_sessions (λ r evs,
    Forall moves_nothing evs ∧ ∀ s, r = Return s → (0 ≤ streams s)%Z).
Hypothesis get_rtsp_stream_pids_calm :
  yields get_rtsp_stream_pids (λ _ evs, Forall moves_nothing evs).
Hypothesis get_stream_config_ends : ∀ i, ends (get_stream_config i).
Hypothesis process_temp_files_ends : ∀ config, ends (process_temp_files config).
Hypothesis final_sweep_seconds_ends : ends final_sweep_seconds.
Hypothesis stop_file_mover_session_calm :
  yields stop_file_mover_session (λ _ evs, Forall moves_nothing evs).
Hypothesis stop_mediamtx_calm :
  yields stop_mediamtx (λ _ evs, Forall moves_nothing evs).
Hypothesis report_log_files_calm :
  ∀ n, yields (report_log_files n) (λ _ evs, Forall moves_nothing evs).





End stages_guard.

Section passes.
Import StreamStopManager Guard Outcome Trace Moves.
Context {World : Type} `{OS World} `{Host World}.

Lemma sleeps_none evs :
  Forall (λ ev, ev ≠ EvSleep 1) evs → sleeps evs = 0.
Proof.
  unfold sleeps. induction 1 as [|ev evs Hev _ IH]; [done|].
  by rewrite filter_cons_False.
Qed.

(** One sweep of a directory sleeps not, and counts its renames. *)
Lemma final_sweep_move_count config :
  yields (World:=World) (FileProcessor.final_sweep_move config) (λ r evs,
    sleeps evs = 0 ∧ ∀ n, r = Return n → n = Z.of_nat (length (renamed evs))).
Proof.
  intros w tr.
  destruct (final_sweep_move_ends config w tr) as (r & w' & evs & Hrun & _).
  exists r, w', evs. split; [done|].
  apply final_sweep_move_trace in Hrun as (evs' & Heq & Hall & _ & Hret).
  apply app_inv_head in Heq. subst evs'. split.
  - apply sleeps_none. eapply Forall_impl; [exact Hall|].
    intros ev [[[b ->]|[names ->]]|(entry & d & _ & _ & [[r' ->]|[r' ->]])]; done.
  - intros n Hn. by destruct (Hret n Hn).
Qed.

Lemma sweep_all_count script_dir profile indices moved_count :
  yields (World:=World)
    (sweep_all (FileProcessor.get_stream_config script_dir profile) indices moved_count)
    (λ r evs,
       sleeps evs = 0
       ∧ ∀ n, r = Return n → n = (moved_count + Z.of_nat (length (renamed evs)))%Z).
Proof.
  revert moved_count. induction indices as [|i indices IH]; intros n0; simpl.
  { apply yields_ret. split; [done|]. intros n [= <-]. simpl. lia. }
  eapply yields_bind; [apply get_stream_config_spec| |].
  2: { by intros e evs1 (? & ? & ? & [=] & _). }
  intros config evs1 (config' & present & again & _ & -> & _).
  eapply yields_bind; [apply final_sweep_move_count| |].
  2: { intros e evs2 [Hsl _]. split; [|done]. by rewrite sleeps_app, Hsl. }
  intros moved evs2 [Hsl2 Hmoved]. specialize (Hmoved _ eq_refl).
  eapply yields_mono; [apply IH|]. intros r evs3 [Hsl3 Hn].
  rewrite !sleeps_app, !renamed_app, !length_app, Hsl2, Hsl3. split; [done|].
  intros n Hr. rewrite (Hn n Hr), Hmoved. simpl. lia.
Qed.

(** X21: the passes of the final sweep sleep one second after each pass
    that moved a file, so no more seconds than there are passes, nor more
    than files were moved. When the passes return before the last one has
    slept, the pass after the last sleep moved no file. *)
Theorem sweep_passes_bounded (script_dir profile : string) (passes : nat)
    (num_streams : Z) :
  yields (World:=World)
    (sweep_passes (FileProcessor.get_stream_config script_dir profile) passes num_streams)
    (λ r evs,
       (sleeps evs ≤ passes)%nat
       ∧ (sleeps evs ≤ length (renamed evs))%nat
       ∧ (r = Return tt →
          sleeps evs = passes
          ∨ ∃ evs0 evs1, evs = evs0 ++ evs1
              ∧ (evs0 = [] ∨ last evs0 = Some (EvSleep 1))
              ∧ sleeps evs1 = 0 ∧ renamed evs1 = [])).
Proof.
  induction passes as [|passes IH]; simpl.
  { apply yields_ret. split_and!; [done|done|]. by left. }
  eapply yields_bind; [apply sweep_all_count| |].
  2: { intros e evs1 [Hsl _]. rewrite Hsl. split_and!; [lia|lia|done]. }
  intros moved_count evs1 [Hsl1 Hmoved]. specialize (Hmoved _ eq_refl).
  case_bool_decide as Hzero.
  - apply yields_ret. rewrite app_nil_r, Hsl1. split_and!; [lia|lia|].
    intros _. right. exists [], evs1. split_and!; [done|by left|done|].
    apply length_zero_iff_nil. lia.
  - apply yields_bind_wp. eapply yields_mono; [apply yields_sleep|].
    intros r evs [-> ->]. eapply yields_mono; [apply IH|].
    intros r evs2 (Hle & Hren & Hret).
    rewrite !sleeps_app, !renamed_app, !length_app, Hsl1.
    change (sleeps [EvSleep 1]) with 1.
    change (renamed [EvSleep 1]) with (@nil (path * path)).
    simpl. split_and!; [lia|lia|].
    intros Hr. destruct (Hret Hr) as [->|(evs0 & evs3 & -> & Hlast & Hsl3 & Hren3)];
      [by left|].
    right. exists (evs1 ++ [EvSleep 1] ++ evs0), evs3. split_and!; [|right|done|done].
    + by rewrite <- !app_assoc.
    + destruct Hlast as [->|Hlast].
      * rewrite app_nil_r. by rewrite last_snoc.
      * by rewrite app_assoc, last_app, Hlast.
Qed.
End passes.

Section script.
Import StreamStopManager Guard Outcome Screen Table.
Context {World : Type} `{OS World} `{Host World}.

Lemma run_moves_nothing evs : Forall is_run evs → Forall moves_nothing evs.
Proof.
  intros Hev. eapply Forall_impl; [exact Hev|]. by intros ev (argv & out & ->).
Qed.






End script.
